(** * The app-aware touchscreen device

    A shallow embedding of
    [src/systems/userinput/devices/app-aware-touchscreen.js]: the device that
    turns raw touch events into the jobs "move cursor", "move camera",
    "first pincher" and "second pincher", detects N-finger taps and, once per
    tick, writes its state into the output frame.

    The JavaScript object [this] becomes the record [Device]; a method becomes
    a computation in the monad [M], which threads the device and lets a
    [TypeError] escape with the mutations made so far kept, as JavaScript
    does.  What the browser and the scene decide (the clock, the raycast, the
    camera projection) is read from a [World] that every entry point
    receives. *)

From Stdlib Require Import String.
From Stdlib Require Import ZArith List Bool Lia.
Import ListNotations.
Local Open Scope Z_scope.

(** ** JavaScript numbers

    Coordinates, distances and timestamps are JavaScript numbers.  The device
    only combines them with the operations below, so the embedding is
    parametric in them. *)
Class JSNumber (num : Type) : Type := {
  ofZ : Z -> num;
  NaN : num;
  jadd : num -> num -> num;
  jsub : num -> num -> num;
  jmul : num -> num -> num;
  jdiv : num -> num -> num;
  jneg : num -> num;
  jsqrt : num -> num;
  jleb : num -> num -> bool
}.

(** The laws of exact arithmetic that the accumulation of deltas relies on. *)
Class ExactNumber (num : Type) `{JSNumber num} : Prop := {
  jadd_0_l : forall a, jadd (ofZ 0) a = a;
  jadd_0_r : forall a, jadd a (ofZ 0) = a;
  jsub_diag : forall a, jsub a a = ofZ 0;
  jadd_jsub_chain : forall d a b c,
    jadd (jadd d (jsub b a)) (jsub c b) = jadd d (jsub c a)
}.

(** The four jobs (the string constants of the source). *)
Inductive Job : Type :=
| MOVE_CURSOR_JOB
| MOVE_CAMERA_JOB
| FIRST_PINCHER_JOB
| SECOND_PINCHER_JOB.

Definition Job_eqb (a b : Job) : bool :=
  match a, b with
  | MOVE_CURSOR_JOB, MOVE_CURSOR_JOB
  | MOVE_CAMERA_JOB, MOVE_CAMERA_JOB
  | FIRST_PINCHER_JOB, FIRST_PINCHER_JOB
  | SECOND_PINCHER_JOB, SECOND_PINCHER_JOB => true
  | _, _ => false
  end.

Inductive EventType : Type := touchstart | touchend | touchmove | touchcancel.

(** Modelled from the spec: the module [../paths] is not part of the sources.
    Section 6 of the specification lists the semantic paths the device writes:
    [isTouching], [cursorPose], [isTouchingGrabbable], [touchCameraDelta], the
    three [pinch] scalars and [tapN] for a finger count N. *)
Inductive Path : Type :=
| path_isTouching
| path_cursorPose
| path_isTouchingGrabbable
| path_touchCameraDelta
| path_pinch_delta
| path_pinch_initialDistance
| path_pinch_currentDistance
| path_tap (n : Z).

Definition Path_eqb (p q : Path) : bool :=
  match p, q with
  | path_isTouching, path_isTouching
  | path_cursorPose, path_cursorPose
  | path_isTouchingGrabbable, path_isTouchingGrabbable
  | path_touchCameraDelta, path_touchCameraDelta
  | path_pinch_delta, path_pinch_delta
  | path_pinch_initialDistance, path_pinch_initialDistance
  | path_pinch_currentDistance, path_pinch_currentDistance => true
  | path_tap n, path_tap m => n =? m
  | _, _ => false
  end.

Inductive LogEntry : Type :=
| console_warn (msg : string)
| console_error (msg : string).

Inductive JSError : Type := TypeError (msg : string).

(** How a call completes: normally with a value, or by throwing. *)
Inductive Completion (A : Type) : Type :=
| Normal (a : A)
| Throw (e : JSError).
Arguments Normal {A} a.
Arguments Throw {A} e.

Section Device.

Context {num : Type} `{JSNumber num} {Pose : Type}.

(** [paths.device.touchscreen[`tap${n}`]] may be undefined; the table is not
    part of the sources, so which tap paths it defines is a parameter. *)
Variable tapPathDefined : Z -> bool.

(** ** Data *)

(** A platform touch: a stable identifier, screen coordinates, and the class
    list of its target element. *)
Record Touch : Type := {
  identifier : Z;
  clientX : num;
  clientY : num;
  targetClassList : list string
}.

(** An assignment object.  [assign] creates it with [job] and [touch] only;
    the other properties are undefined until the device sets them. *)
Record Assignment : Type := {
  job : Job;
  touch : Touch;
  a_clientX : option num;
  a_clientY : option num;
  delta : option (num * num);
  cursorPose : option Pose;
  isFirstFrame : option bool
}.

Record Pinch : Type := {
  initialDistance : num;
  currentDistance : num;
  pinchDelta : num
}.

Record PendingTap : Type := {
  maxTouchCount : Z;
  startedAt : option num
}.

Record TouchEvent : Type := {
  type : EventType;
  changedTouches : list Touch;
  touches : list Touch
}.

(** The callbacks the device hands to [setTimeout]. *)
Inductive Task : Type :=
| TaskResolvePendingFirstTouch
| TaskEnd (t : Touch)
| TaskMove (t : Touch).

Record Timer : Type := {
  timerId : nat;
  timerDelay : Z;
  timerTask : Task
}.

(** What an element hit by the touch's ray answers to [el.matches]. *)
Record Intersection : Type := {
  matches_interactable : bool;
  matches_ui : bool
}.

(** What the browser and the scene answer while one entry point runs. *)
Record World : Type := {
  performance_now : num;
  innerWidth : num;
  innerHeight : num;
  isCursorGrabbing : bool;
  getTouchIntersection : Touch -> option Intersection;
  fromCameraProjection : num -> num -> Pose
}.

Inductive Value : Type :=
| VUndefined
| VBool (b : bool)
| VNumber (n : num)
| VPose (p : Pose)
| VArray2 (d : num * num).

(** The output frame, a JavaScript object keyed by path. *)
Definition Frame : Type := Path -> option Value.

Definition frame_set (frame : Frame) (p : Path) (v : Value) : Frame :=
  fun q => if Path_eqb q p then Some v else frame q.

(** The fields of [this], the browser's timer table and the console. *)
Record Device : Type := {
  assignments : list Assignment;
  pinch : Pinch;
  pendingTap : PendingTap;
  tapIndexToWriteNextFrame : Z;
  events : list TouchEvent;
  pendingFirstTouch : option Touch;
  firstTouchTimeout : option nat;
  timers : list Timer;
  nextTimerId : nat;
  console : list LogEntry
}.

Definition set_assignments (v : list Assignment) (s : Device) : Device :=
  {| assignments := v; pinch := pinch s; pendingTap := pendingTap s;
     tapIndexToWriteNextFrame := tapIndexToWriteNextFrame s; events := events s;
     pendingFirstTouch := pendingFirstTouch s;
     firstTouchTimeout := firstTouchTimeout s; timers := timers s;
     nextTimerId := nextTimerId s; console := console s |}.

Definition set_pinch (v : Pinch) (s : Device) : Device :=
  {| assignments := assignments s; pinch := v; pendingTap := pendingTap s;
     tapIndexToWriteNextFrame := tapIndexToWriteNextFrame s; events := events s;
     pendingFirstTouch := pendingFirstTouch s;
     firstTouchTimeout := firstTouchTimeout s; timers := timers s;
     nextTimerId := nextTimerId s; console := console s |}.

Definition set_pendingTap (v : PendingTap) (s : Device) : Device :=
  {| assignments := assignments s; pinch := pinch s; pendingTap := v;
     tapIndexToWriteNextFrame := tapIndexToWriteNextFrame s; events := events s;
     pendingFirstTouch := pendingFirstTouch s;
     firstTouchTimeout := firstTouchTimeout s; timers := timers s;
     nextTimerId := nextTimerId s; console := console s |}.

Definition set_tapIndexToWriteNextFrame (v : Z) (s : Device) : Device :=
  {| assignments := assignments s; pinch := pinch s; pendingTap := pendingTap s;
     tapIndexToWriteNextFrame := v; events := events s;
     pendingFirstTouch := pendingFirstTouch s;
     firstTouchTimeout := firstTouchTimeout s; timers := timers s;
     nextTimerId := nextTimerId s; console := console s |}.

Definition set_events (v : list TouchEvent) (s : Device) : Device :=
  {| assignments := assignments s; pinch := pinch s; pendingTap := pendingTap s;
     tapIndexToWriteNextFrame := tapIndexToWriteNextFrame s; events := v;
     pendingFirstTouch := pendingFirstTouch s;
     firstTouchTimeout := firstTouchTimeout s; timers := timers s;
     nextTimerId := nextTimerId s; console := console s |}.

Definition set_pendingFirstTouch (v : option Touch) (s : Device) : Device :=
  {| assignments := assignments s; pinch := pinch s; pendingTap := pendingTap s;
     tapIndexToWriteNextFrame := tapIndexToWriteNextFrame s; events := events s;
     pendingFirstTouch := v;
     firstTouchTimeout := firstTouchTimeout s; timers := timers s;
     nextTimerId := nextTimerId s; console := console s |}.

Definition set_firstTouchTimeout (v : option nat) (s : Device) : Device :=
  {| assignments := assignments s; pinch := pinch s; pendingTap := pendingTap s;
     tapIndexToWriteNextFrame := tapIndexToWriteNextFrame s; events := events s;
     pendingFirstTouch := pendingFirstTouch s;
     firstTouchTimeout := v; timers := timers s;
     nextTimerId := nextTimerId s; console := console s |}.

Definition set_timers (v : list Timer) (n : nat) (s : Device) : Device :=
  {| assignments := assignments s; pinch := pinch s; pendingTap := pendingTap s;
     tapIndexToWriteNextFrame := tapIndexToWriteNextFrame s; events := events s;
     pendingFirstTouch := pendingFirstTouch s;
     firstTouchTimeout := firstTouchTimeout s; timers := v;
     nextTimerId := n; console := console s |}.

Definition set_console (v : list LogEntry) (s : Device) : Device :=
  {| assignments := assignments s; pinch := pinch s; pendingTap := pendingTap s;
     tapIndexToWriteNextFrame := tapIndexToWriteNextFrame s; events := events s;
     pendingFirstTouch := pendingFirstTouch s;
     firstTouchTimeout := firstTouchTimeout s; timers := timers s;
     nextTimerId := nextTimerId s; console := v |}.

Definition zeroPinch : Pinch :=
  {| initialDistance := ofZ 0; currentDistance := ofZ 0; pinchDelta := ofZ 0 |}.

(** The device as its constructor leaves it. *)
Definition constructor : Device :=
  {| assignments := [];
     pinch := zeroPinch;
     pendingTap := {| maxTouchCount := 0; startedAt := Some (ofZ 0) |};
     tapIndexToWriteNextFrame := 0;
     events := [];
     pendingFirstTouch := None;
     firstTouchTimeout := None;
     timers := [];
     nextTimerId := 0%nat;
     console := [] |}.

(** ** The assignment table ([./touchscreen/assignments]) *)

Definition sameTouch (t : Touch) (a : Assignment) : bool :=
  identifier (touch a) =? identifier t.

Definition hasJob (j : Job) (a : Assignment) : bool := Job_eqb (job a) j.

(** Modelled from the spec: [touchIsAssigned] of the missing module
    [./touchscreen/assignments], a pure lookup by touch identity. *)
Definition touchIsAssigned (t : Touch) (l : list Assignment) : bool :=
  existsb (sameTouch t) l.

(** Modelled from the spec: [jobIsAssigned] of the missing module, a pure
    lookup by job. *)
Definition jobIsAssigned (j : Job) (l : list Assignment) : bool :=
  existsb (hasJob j) l.

(** Modelled from the spec: [findByTouch] of the missing module, a pure
    lookup; nothing is found for an unassigned touch. *)
Definition findByTouch (t : Touch) (l : list Assignment) : option Assignment :=
  find (sameTouch t) l.

(** Modelled from the spec: [findByJob] of the missing module, a pure lookup;
    nothing is found for an unassigned job. *)
Definition findByJob (j : Job) (l : list Assignment) : option Assignment :=
  find (hasJob j) l.

Definition newAssignment (t : Touch) (j : Job) : Assignment :=
  {| job := j; touch := t; a_clientX := None; a_clientY := None;
     delta := None; cursorPose := None; isFirstFrame := None |}.

(** Modelled from the spec: [assign] of the missing module.  It "creates and
    returns a new assignment" at the end of the ordered collection and
    "enforces at-most-one job per touch and at-most-one touch per job": when
    the touch or the job is taken it returns nothing and leaves the table as
    it is. *)
Definition assign (t : Touch) (j : Job) (l : list Assignment)
  : option Assignment * list Assignment :=
  if touchIsAssigned t l || jobIsAssigned j l then (None, l)
  else (Some (newAssignment t j), l ++ [newAssignment t j]).

(** Modelled from the spec: [unassign] of the missing module, which "removes
    the matching entry": the first one with this touch identity and job. *)
Fixpoint unassign (t : Touch) (j : Job) (l : list Assignment) : list Assignment :=
  match l with
  | [] => []
  | a :: l' => if sameTouch t a && hasJob j a then l' else a :: unassign t j l'
  end.

(** A write through a reference obtained from [findByTouch] or [findByJob]
    reaches the first entry that the lookup matches. *)
Fixpoint updateFirst (p : Assignment -> bool) (f : Assignment -> Assignment)
  (l : list Assignment) : list Assignment :=
  match l with
  | [] => []
  | a :: l' => if p a then f a :: l' else a :: updateFirst p f l'
  end.

(** A write through the reference [assign] returned reaches the entry it has
    just pushed, the last one. *)
Fixpoint updateLast (f : Assignment -> Assignment) (l : list Assignment)
  : list Assignment :=
  match l with
  | [] => []
  | [a] => [f a]
  | a :: l' => a :: updateLast f l'
  end.

Definition with_client (x y : option num) (a : Assignment) : Assignment :=
  {| job := job a; touch := touch a; a_clientX := x; a_clientY := y;
     delta := delta a; cursorPose := cursorPose a; isFirstFrame := isFirstFrame a |}.

Definition with_delta (d : option (num * num)) (a : Assignment) : Assignment :=
  {| job := job a; touch := touch a; a_clientX := a_clientX a;
     a_clientY := a_clientY a;
     delta := d; cursorPose := cursorPose a; isFirstFrame := isFirstFrame a |}.

Definition with_cursorPose (p : option Pose) (a : Assignment) : Assignment :=
  {| job := job a; touch := touch a; a_clientX := a_clientX a;
     a_clientY := a_clientY a;
     delta := delta a; cursorPose := p; isFirstFrame := isFirstFrame a |}.

Definition with_isFirstFrame (b : option bool) (a : Assignment) : Assignment :=
  {| job := job a; touch := touch a; a_clientX := a_clientX a;
     a_clientY := a_clientY a;
     delta := delta a; cursorPose := cursorPose a; isFirstFrame := b |}.

(** ** Helpers of the source *)

(** An undefined operand turns arithmetic into [NaN]. *)
Definition toNumber (v : option num) : num :=
  match v with Some x => x | None => NaN end.

Definition distance (x1 y1 x2 y2 : num) : num :=
  let dx := jsub x1 x2 in
  let dy := jsub y1 y2 in
  jsqrt (jadd (jmul dx dx) (jmul dy dy)).

Definition isCursorOverInteractable (w : World) (t : Touch) : bool :=
  if isCursorGrabbing w then true
  else match getTouchIntersection w t with
       | Some i => matches_interactable i
       | None => false
       end.

Definition shouldDelayStartTouch (w : World) (t : Touch) : bool :=
  match getTouchIntersection w t with
  | None => true
  | Some i => negb (matches_ui i)
  end.

(** [new Pose().fromCameraProjection(camera, x, y)] at the touch's normalised
    screen coordinates. *)
Definition poseOfTouch (w : World) (t : Touch) : Pose :=
  fromCameraProjection w
    (jsub (jmul (jdiv (clientX t) (innerWidth w)) (ofZ 2)) (ofZ 1))
    (jadd (jmul (jneg (jdiv (clientY t) (innerHeight w))) (ofZ 2)) (ofZ 1)).

(** ** The monad of device methods *)

Definition M (A : Type) : Type := Device -> Completion A * Device.

Definition ret {A : Type} (a : A) : M A := fun s => (Normal a, s).

Definition bind {A B : Type} (m : M A) (k : A -> M B) : M B :=
  fun s => match m s with
           | (Normal a, s') => k a s'
           | (Throw e, s') => (Throw e, s')
           end.

Definition throw {A : Type} (e : JSError) : M A := fun s => (Throw e, s).

Definition gets {A : Type} (f : Device -> A) : M A := fun s => (Normal (f s), s).

Definition modify (f : Device -> Device) : M unit := fun s => (Normal tt, f s).

Notation "x <- m ;; k" := (bind m (fun x => k))
  (at level 100, m at next level, right associativity).
Notation "m ;; k" := (bind m (fun _ => k))
  (at level 100, right associativity).

(** Reading a property of [undefined] throws. *)
Definition defined {A : Type} (what : string) (v : option A) : M A :=
  match v with
  | Some a => ret a
  | None => throw (TypeError what)
  end.

Definition log (e : LogEntry) : M unit :=
  modify (fun s => set_console (console s ++ [e]) s).

Definition this_assign (t : Touch) (j : Job) : M (option Assignment) :=
  fun s => (Normal (fst (assign t j (assignments s))),
            set_assignments (snd (assign t j (assignments s))) s).

Definition this_unassign (t : Touch) (j : Job) : M unit :=
  modify (fun s => set_assignments (unassign t j (assignments s)) s).

Definition mutateLast (f : Assignment -> Assignment) : M unit :=
  modify (fun s => set_assignments (updateLast f (assignments s)) s).

Definition mutateFirst (p : Assignment -> bool) (f : Assignment -> Assignment)
  : M unit :=
  modify (fun s => set_assignments (updateFirst p f (assignments s)) s).

(** [setTimeout] registers the callback in the browser's timer table and
    returns its handle; [clearTimeout] removes it (and does nothing for a
    handle that is null or no longer registered). *)
Definition setTimeout (task : Task) (delay : Z) : M nat :=
  fun s => (Normal (nextTimerId s),
            set_timers
              (timers s ++ [{| timerId := nextTimerId s; timerDelay := delay;
                               timerTask := task |}])
              (S (nextTimerId s)) s).

Definition clearTimeout (handle : option nat) : M unit :=
  match handle with
  | Some id =>
      modify (fun s =>
        set_timers (filter (fun t => negb (Nat.eqb (timerId t) id)) (timers s))
                   (nextTimerId s) s)
  | None => ret tt
  end.

Fixpoint forEach {A : Type} (l : list A) (f : A -> M unit) : M unit :=
  match l with
  | [] => ret tt
  | x :: l' => f x ;; forEach l' f
  end.

(** ** The methods of [AppAwareTouchscreenDevice] *)

Definition clearPendingFirstTouch : M unit :=
  handle <- gets firstTouchTimeout ;;
  clearTimeout handle ;;
  modify (set_pendingFirstTouch None) ;;
  modify (set_firstTouchTimeout None).

(** The last lines of [processTouchStart]: the pending tap is timestamped when
    the first touch gets a job, and records the high-water mark of the number
    of assignments. *)
Definition notePendingTap (w : World) (s : Device) : Device :=
  let s :=
    if (maxTouchCount (pendingTap s) =? 0)
       && (0 <? Z.of_nat (length (assignments s)))
    then set_pendingTap {| maxTouchCount := maxTouchCount (pendingTap s);
                           startedAt := Some (performance_now w) |} s
    else s in
  set_pendingTap
    {| maxTouchCount := Z.max (maxTouchCount (pendingTap s))
                              (Z.of_nat (length (assignments s)));
       startedAt := startedAt (pendingTap s) |} s.

Definition processTouchStart (w : World) (t : Touch)
  (allowMoveToNonInteractable : bool) : M unit :=
  assigned <- gets (fun s => touchIsAssigned t (assignments s)) ;;
  if assigned then log (console_error "touch already has a job")
  else
    hasFirstPinch <- gets (fun s => jobIsAssigned FIRST_PINCHER_JOB (assignments s)) ;;
    hasCursor <- gets (fun s => jobIsAssigned MOVE_CURSOR_JOB (assignments s)) ;;
    hasCamera <- gets (fun s => jobIsAssigned MOVE_CAMERA_JOB (assignments s)) ;;
    hasSecond <- gets (fun s => jobIsAssigned SECOND_PINCHER_JOB (assignments s)) ;;
    (if negb hasFirstPinch && negb hasCursor
        && (allowMoveToNonInteractable || isCursorOverInteractable w t)
     then
       assignment <- this_assign t MOVE_CURSOR_JOB ;;
       _ <- defined "assignment" assignment ;;
       mutateLast (with_cursorPose (Some (poseOfTouch w t))) ;;
       mutateLast (with_isFirstFrame (Some true))
     else if negb hasFirstPinch && negb hasCamera then
       assignment <- this_assign t MOVE_CAMERA_JOB ;;
       _ <- defined "assignment" assignment ;;
       mutateLast (with_client (Some (clientX t)) (Some (clientY t))) ;;
       mutateLast (with_delta (Some (ofZ 0, ofZ 0)))
     else if negb hasSecond then
       first <-
         (if hasFirstPinch then
            found <- gets (fun s => findByJob FIRST_PINCHER_JOB (assignments s)) ;;
            defined "first" found
          else
            found <- gets (fun s => findByJob MOVE_CAMERA_JOB (assignments s)) ;;
            cameraMover <- defined "cameraMover" found ;;
            this_unassign (touch cameraMover) (job cameraMover) ;;
            created <- this_assign (touch cameraMover) FIRST_PINCHER_JOB ;;
            first <- defined "first" created ;;
            mutateLast (with_client (a_clientX cameraMover) (a_clientY cameraMover)) ;;
            ret (with_client (a_clientX cameraMover) (a_clientY cameraMover) first)) ;;
       created <- this_assign t SECOND_PINCHER_JOB ;;
       _ <- defined "second" created ;;
       mutateLast (with_client (Some (clientX t)) (Some (clientY t))) ;;
       let initialDistance :=
         distance (toNumber (a_clientX first)) (toNumber (a_clientY first))
                  (clientX t) (clientY t) in
       modify (set_pinch {| initialDistance := initialDistance;
                            currentDistance := initialDistance;
                            pinchDelta := ofZ 0 |})
     else log (console_warn "no job suitable for touch")) ;;
    modify (notePendingTap w).

(** [this.pendingFirstTouch && this.pendingFirstTouch.identifier === touch.identifier] *)
Definition isPendingFirstTouch (t : Touch) (s : Device) : bool :=
  match pendingFirstTouch s with
  | Some p => identifier p =? identifier t
  | None => false
  end.

(** [this.processTouchStart(this.pendingFirstTouch, allow)]; the method reads
    properties of its argument, so a null one throws. *)
Definition processPendingFirstTouch (w : World) (allow : bool) : M unit :=
  pending <- gets pendingFirstTouch ;;
  p <- defined "touch" pending ;;
  processTouchStart w p allow.

Definition withinTapWindow (w : World) (p : PendingTap) : bool :=
  (0 <? maxTouchCount p)
  && match startedAt p with
     | Some t0 => jleb (jsub (performance_now w) t0) (ofZ 125)
     | None => false
     end.

(** The last lines of [end]: once no touch is assigned, a pending tap that is
    young enough is scheduled for the next frame write, and the pending tap
    is replaced by [{ maxTouchCount: 0 }]. *)
Definition settlePendingTap (w : World) (s : Device) : Device :=
  match assignments s with
  | [] =>
      set_pendingTap {| maxTouchCount := 0; startedAt := None |}
        (if withinTapWindow w (pendingTap s)
         then set_tapIndexToWriteNextFrame (maxTouchCount (pendingTap s)) s
         else s)
  | _ :: _ => s
  end.

Definition end_ (w : World) (t : Touch) : M unit :=
  pending <- gets (isPendingFirstTouch t) ;;
  if pending then
    processPendingFirstTouch w true ;;
    clearPendingFirstTouch ;;
    _ <- setTimeout (TaskEnd t) 0 ;;
    ret tt
  else
    assigned <- gets (fun s => touchIsAssigned t (assignments s)) ;;
    (if negb assigned then log (console_warn "touch does not have a job")
     else
       found <- gets (fun s => findByTouch t (assignments s)) ;;
       assignment <- defined "assignment" found ;;
       match job assignment with
       | MOVE_CURSOR_JOB | MOVE_CAMERA_JOB =>
           this_unassign (touch assignment) (job assignment)
       | FIRST_PINCHER_JOB =>
           this_unassign (touch assignment) (job assignment) ;;
           modify (set_pinch zeroPinch) ;;
           hasSecond <- gets (fun s => jobIsAssigned SECOND_PINCHER_JOB (assignments s)) ;;
           if hasSecond then
             found <- gets (fun s => findByJob SECOND_PINCHER_JOB (assignments s)) ;;
             second <- defined "second" found ;;
             this_unassign (touch second) (job second) ;;
             hasCamera <- gets (fun s => jobIsAssigned MOVE_CAMERA_JOB (assignments s)) ;;
             if hasCamera then
               created <- this_assign (touch second) FIRST_PINCHER_JOB ;;
               _ <- defined "first" created ;;
               mutateLast (with_client (a_clientX second) (a_clientY second))
             else
               created <- this_assign (touch second) MOVE_CAMERA_JOB ;;
               _ <- defined "cameraMover" created ;;
               mutateLast (with_client (a_clientX second) (a_clientY second)) ;;
               mutateLast (with_delta (Some (ofZ 0, ofZ 0)))
           else ret tt
       | SECOND_PINCHER_JOB =>
           this_unassign (touch assignment) (job assignment) ;;
           modify (set_pinch zeroPinch) ;;
           hasFirst <- gets (fun s => jobIsAssigned FIRST_PINCHER_JOB (assignments s)) ;;
           hasCamera <- gets (fun s => jobIsAssigned MOVE_CAMERA_JOB (assignments s)) ;;
           if hasFirst && negb hasCamera then
             found <- gets (fun s => findByJob FIRST_PINCHER_JOB (assignments s)) ;;
             first <- defined "first" found ;;
             this_unassign (touch first) (job first) ;;
             created <- this_assign (touch first) MOVE_CAMERA_JOB ;;
             _ <- defined "cameraMover" created ;;
             mutateLast (with_client (a_clientX first) (a_clientY first)) ;;
             mutateLast (with_delta (Some (ofZ 0, ofZ 0)))
           else ret tt
       end) ;;
    modify (settlePendingTap w).

(** [!touch.target.classList[0] ||
     !touch.target.classList[0].startsWith("virtual-gamepad-controls")] *)
Definition notVirtualGamepadControl (t : Touch) : bool :=
  match targetClassList t with
  | [] => true
  | c :: _ =>
      match c with
      | EmptyString => true
      | _ => negb (prefix "virtual-gamepad-controls" c)
      end
  end.

Definition move (w : World) (t : Touch) : M unit :=
  pending <- gets (isPendingFirstTouch t) ;;
  if pending then
    processPendingFirstTouch w false ;;
    clearPendingFirstTouch ;;
    _ <- setTimeout (TaskMove t) 0 ;;
    ret tt
  else
    assigned <- gets (fun s => touchIsAssigned t (assignments s)) ;;
    if negb assigned then
      if notVirtualGamepadControl t
      then log (console_warn "touch does not have job")
      else ret tt
    else
      found <- gets (fun s => findByTouch t (assignments s)) ;;
      assignment <- defined "assignment" found ;;
      match job assignment with
      | MOVE_CURSOR_JOB =>
          _ <- defined "assignment.cursorPose" (cursorPose assignment) ;;
          mutateFirst (sameTouch t) (with_cursorPose (Some (poseOfTouch w t)))
      | MOVE_CAMERA_JOB =>
          d <- defined "assignment.delta" (delta assignment) ;;
          mutateFirst (sameTouch t)
            (with_delta
               (Some (jadd (fst d) (jsub (clientX t) (toNumber (a_clientX assignment))),
                      jadd (snd d) (jsub (clientY t) (toNumber (a_clientY assignment)))))) ;;
          mutateFirst (sameTouch t) (with_client (Some (clientX t)) (Some (clientY t)))
      | FIRST_PINCHER_JOB | SECOND_PINCHER_JOB =>
          mutateFirst (sameTouch t) (with_client (Some (clientX t)) (Some (clientY t))) ;;
          hasFirst <- gets (fun s => jobIsAssigned FIRST_PINCHER_JOB (assignments s)) ;;
          hasSecond <- gets (fun s => jobIsAssigned SECOND_PINCHER_JOB (assignments s)) ;;
          if hasFirst && hasSecond then
            foundFirst <- gets (fun s => findByJob FIRST_PINCHER_JOB (assignments s)) ;;
            foundSecond <- gets (fun s => findByJob SECOND_PINCHER_JOB (assignments s)) ;;
            first <- defined "first" foundFirst ;;
            second <- defined "second" foundSecond ;;
            let currentDistance' :=
              distance (toNumber (a_clientX first)) (toNumber (a_clientY first))
                       (toNumber (a_clientX second)) (toNumber (a_clientY second)) in
            modify (fun s =>
              set_pinch
                {| initialDistance := initialDistance (pinch s);
                   currentDistance := currentDistance';
                   pinchDelta := jadd (pinchDelta (pinch s))
                                      (jsub currentDistance' (currentDistance (pinch s))) |}
                s)
          else ret tt
      end.

Definition start (w : World) (t : Touch) : M unit :=
  pending <- gets pendingFirstTouch ;;
  delayTouch <-
    match pending with
    | Some p =>
        created <- this_assign p FIRST_PINCHER_JOB ;;
        _ <- defined "job" created ;;
        mutateLast (with_client (Some (clientX p)) (Some (clientY p))) ;;
        clearPendingFirstTouch ;;
        ret false
    | None => ret (shouldDelayStartTouch w t)
    end ;;
  if delayTouch then
    modify (set_pendingFirstTouch (Some t)) ;;
    handle <- setTimeout TaskResolvePendingFirstTouch 150 ;;
    modify (set_firstTouchTimeout (Some handle))
  else processTouchStart w t false.

Definition process (w : World) (event : TouchEvent) : M unit :=
  match type event with
  | touchstart => forEach (changedTouches event) (start w)
  | touchmove => forEach (touches event) (move w)
  | touchend | touchcancel => forEach (changedTouches event) (end_ w)
  end.

Definition ofOption {A : Type} (inj : A -> Value) (v : option A) : Value :=
  match v with Some a => inj a | None => VUndefined end.

(** The first lines of [write]: the carry-over of the last tick is cleared. *)
Definition resetDeltas : M unit :=
  modify (fun s =>
    set_pinch {| initialDistance := initialDistance (pinch s);
                 currentDistance := currentDistance (pinch s);
                 pinchDelta := ofZ 0 |} s) ;;
  found <- gets (fun s => findByJob MOVE_CAMERA_JOB (assignments s)) ;;
  match found with
  | Some cameraMover =>
      _ <- defined "cameraMover.delta" (delta cameraMover) ;;
      mutateFirst (hasJob MOVE_CAMERA_JOB) (with_delta (Some (ofZ 0, ofZ 0)))
  | None => ret tt
  end.

(** [this.events.forEach(...)], then the loop that pops every event. *)
Definition drain (w : World) : M unit :=
  queued <- gets events ;;
  forEach queued (process w) ;;
  modify (set_events []).

(** The rest of [write]: the state is published into the frame. *)
Definition publish (frame : Frame) : M Frame :=
  hasCursorJob <- gets (fun s => jobIsAssigned MOVE_CURSOR_JOB (assignments s)) ;;
  hasCameraJob <- gets (fun s => jobIsAssigned MOVE_CAMERA_JOB (assignments s)) ;;
  let frame :=
    if hasCursorJob || hasCameraJob
    then frame_set frame path_isTouching (VBool true) else frame in
  frame <-
    (if hasCursorJob then
       found <- gets (fun s => findByJob MOVE_CURSOR_JOB (assignments s)) ;;
       assignment <- defined "assignment" found ;;
       mutateFirst (hasJob MOVE_CURSOR_JOB) (with_isFirstFrame (Some false)) ;;
       ret (frame_set
              (frame_set frame path_cursorPose (ofOption VPose (cursorPose assignment)))
              path_isTouchingGrabbable
              (VBool (negb (match isFirstFrame assignment with
                            | Some b => b
                            | None => false
                            end))))
     else ret frame) ;;
  frame <-
    (if hasCameraJob then
       found <- gets (fun s => findByJob MOVE_CAMERA_JOB (assignments s)) ;;
       cameraMover <- defined "cameraMover" found ;;
       ret (frame_set frame path_touchCameraDelta (ofOption VArray2 (delta cameraMover)))
     else ret frame) ;;
  p <- gets pinch ;;
  let frame := frame_set frame path_pinch_delta (VNumber (pinchDelta p)) in
  let frame := frame_set frame path_pinch_initialDistance (VNumber (initialDistance p)) in
  let frame := frame_set frame path_pinch_currentDistance (VNumber (currentDistance p)) in
  n <- gets tapIndexToWriteNextFrame ;;
  let frame :=
    if negb (n =? 0) && tapPathDefined n
    then frame_set frame (path_tap n) (VBool true) else frame in
  modify (set_tapIndexToWriteNextFrame 0) ;;
  ret frame.

Definition write (w : World) (frame : Frame) : M Frame :=
  resetDeltas ;;
  drain w ;;
  publish frame.

(** ** The device in its environment *)

Definition runTask (w : World) (task : Task) : M unit :=
  match task with
  | TaskResolvePendingFirstTouch =>
      processPendingFirstTouch w false ;;
      modify (set_pendingFirstTouch None)
  | TaskEnd t => end_ w t
  | TaskMove t => move w t
  end.

(** What can happen to the device: the canvas listener pushes an event, the
    input system calls [write] for a tick, or a registered timer fires. *)
Inductive Op : Type :=
| Dispatch (event : TouchEvent)
| Tick (w : World) (frame : Frame)
| Fire (w : World) (id : nat).

Definition step (op : Op) (s : Device) : Device :=
  match op with
  | Dispatch event => set_events (events s ++ [event]) s
  | Tick w frame => snd (write w frame s)
  | Fire w id =>
      match find (fun t => Nat.eqb (timerId t) id) (timers s) with
      | Some t =>
          snd (runTask w (timerTask t)
                 (set_timers
                    (filter (fun t => negb (Nat.eqb (timerId t) id)) (timers s))
                    (nextTimerId s) s))
      | None => s
      end
  end.

Definition run (ops : list Op) (s : Device) : Device :=
  fold_left (fun s op => step op s) ops s.

Inductive reachable : Device -> Prop :=
| reachable_constructor : reachable constructor
| reachable_step : forall op s, reachable s -> reachable (step op s).

(** * Properties of the assignment table *)

Definition touchIds (l : list Assignment) : list Z :=
  map (fun a => identifier (touch a)) l.

Definition jobsOf (l : list Assignment) : list Job := map job l.

(** No touch identity and no job occurs twice. *)
Definition wfTable (l : list Assignment) : Prop :=
  NoDup (touchIds l) /\ NoDup (jobsOf l).

(** [removed a l l']: [l'] is [l] without its entry [a]. *)
Definition removed (a : Assignment) (l l' : list Assignment) : Prop :=
  exists l1 l2, l = l1 ++ a :: l2 /\ l' = l1 ++ l2.

Lemma Job_eqb_eq (a b : Job) : Job_eqb a b = true <-> a = b.
Proof. destruct a, b; simpl; split; intro E; congruence. Qed.

Lemma Job_eqb_refl (a : Job) : Job_eqb a a = true.
Proof. now destruct a. Qed.

Lemma Job_eqb_neq (a b : Job) : a <> b -> Job_eqb a b = false.
Proof.
  intro N. destruct (Job_eqb a b) eqn:E; [|reflexivity].
  apply Job_eqb_eq in E. contradiction.
Qed.

Lemma touchIsAssigned_In (t : Touch) (l : list Assignment) :
  touchIsAssigned t l = true <-> In (identifier t) (touchIds l).
Proof.
  unfold touchIsAssigned, touchIds, sameTouch.
  rewrite existsb_exists, in_map_iff. split.
  - intros [a [Ha E]]. apply Z.eqb_eq in E. eauto.
  - intros [a [E Ha]]. exists a. split; [assumption|]. now apply Z.eqb_eq.
Qed.

Lemma jobIsAssigned_In (j : Job) (l : list Assignment) :
  jobIsAssigned j l = true <-> In j (jobsOf l).
Proof.
  unfold jobIsAssigned, jobsOf, hasJob.
  rewrite existsb_exists, in_map_iff. split.
  - intros [a [Ha E]]. apply Job_eqb_eq in E. eauto.
  - intros [a [E Ha]]. exists a. split; [assumption|]. now apply Job_eqb_eq.
Qed.

Lemma touchIsAssigned_notIn (t : Touch) (l : list Assignment) :
  touchIsAssigned t l = false <-> ~ In (identifier t) (touchIds l).
Proof. rewrite <- touchIsAssigned_In. now destruct (touchIsAssigned t l). Qed.

Lemma jobIsAssigned_notIn (j : Job) (l : list Assignment) :
  jobIsAssigned j l = false <-> ~ In j (jobsOf l).
Proof. rewrite <- jobIsAssigned_In. now destruct (jobIsAssigned j l). Qed.

Lemma findByJob_Some (j : Job) (l : list Assignment) (a : Assignment) :
  findByJob j l = Some a -> In a l /\ job a = j.
Proof.
  intro E. apply find_some in E. destruct E as [Ha E].
  split; [assumption|]. now apply Job_eqb_eq.
Qed.

Lemma findByJob_None (j : Job) (l : list Assignment) :
  findByJob j l = None -> jobIsAssigned j l = false.
Proof.
  intro E. unfold jobIsAssigned. destruct (existsb (hasJob j) l) eqn:X; [|reflexivity].
  apply existsb_exists in X. destruct X as [a [Ha X]].
  unfold findByJob in E. now rewrite (find_none _ _ E a Ha) in X.
Qed.

Lemma findByJob_assigned (j : Job) (l : list Assignment) :
  jobIsAssigned j l = true -> exists a, findByJob j l = Some a.
Proof.
  intro E. destruct (findByJob j l) as [a|] eqn:F; [eauto|].
  apply findByJob_None in F. congruence.
Qed.

Lemma findByTouch_Some (t : Touch) (l : list Assignment) (a : Assignment) :
  findByTouch t l = Some a -> In a l /\ identifier (touch a) = identifier t.
Proof.
  intro E. apply find_some in E. destruct E as [Ha E].
  split; [assumption|]. now apply Z.eqb_eq.
Qed.

Lemma findByTouch_assigned (t : Touch) (l : list Assignment) :
  touchIsAssigned t l = true -> exists a, findByTouch t l = Some a.
Proof.
  intro E. unfold touchIsAssigned in E. apply existsb_exists in E.
  destruct E as [a [Ha E]].
  destruct (findByTouch t l) as [b|] eqn:F; [eauto|].
  unfold findByTouch in F. now rewrite (find_none _ _ F a Ha) in E.
Qed.

Lemma findByTouch_touchIsAssigned (t : Touch) (l : list Assignment) (a : Assignment) :
  findByTouch t l = Some a -> touchIsAssigned t l = true.
Proof.
  intro E. apply find_some in E. destruct E as [Ha E].
  unfold touchIsAssigned. apply existsb_exists. eauto.
Qed.

Lemma touchIds_app (l1 l2 : list Assignment) :
  touchIds (l1 ++ l2) = touchIds l1 ++ touchIds l2.
Proof. apply map_app. Qed.

Lemma jobsOf_app (l1 l2 : list Assignment) :
  jobsOf (l1 ++ l2) = jobsOf l1 ++ jobsOf l2.
Proof. apply map_app. Qed.

Lemma jobIsAssigned_app (j : Job) (l1 l2 : list Assignment) :
  jobIsAssigned j (l1 ++ l2) = jobIsAssigned j l1 || jobIsAssigned j l2.
Proof. apply existsb_app. Qed.

Lemma touchIsAssigned_app (t : Touch) (l1 l2 : list Assignment) :
  touchIsAssigned t (l1 ++ l2) = touchIsAssigned t l1 || touchIsAssigned t l2.
Proof. apply existsb_app. Qed.

(** A successful [assign] pushes the new entry. *)
Lemma assign_fresh (t : Touch) (j : Job) (l : list Assignment) :
  touchIsAssigned t l = false -> jobIsAssigned j l = false ->
  assign t j l = (Some (newAssignment t j), l ++ [newAssignment t j]).
Proof. intros Ht Hj. unfold assign. now rewrite Ht, Hj. Qed.

(** A refused [assign] returns nothing and leaves the table alone. *)
Lemma assign_taken (t : Touch) (j : Job) (l : list Assignment) :
  touchIsAssigned t l || jobIsAssigned j l = true -> assign t j l = (None, l).
Proof. intro E. unfold assign. now rewrite E. Qed.

Lemma wfTable_nil : wfTable [].
Proof. split; constructor. Qed.

Lemma wfTable_push (l : list Assignment) (a : Assignment) :
  wfTable l ->
  touchIsAssigned (touch a) l = false -> jobIsAssigned (job a) l = false ->
  wfTable (l ++ [a]).
Proof.
  intros [Ht Hj] Nt Nj.
  apply touchIsAssigned_notIn in Nt. apply jobIsAssigned_notIn in Nj.
  split.
  - rewrite touchIds_app. simpl.
    apply NoDup_app; [assumption | repeat constructor; intros [] | ].
    intros x Hx [E|[]]. subst x. contradiction.
  - rewrite jobsOf_app. simpl.
    apply NoDup_app; [assumption | repeat constructor; intros [] | ].
    intros x Hx [E|[]]. subst x. contradiction.
Qed.

(** The field setters change neither the job nor the touch of an entry. *)
Definition keepsKeys (f : Assignment -> Assignment) : Prop :=
  forall a, job (f a) = job a /\ touch (f a) = touch a.

Lemma keepsKeys_with_client x y : keepsKeys (with_client x y).
Proof. now split. Qed.

Lemma keepsKeys_with_delta d : keepsKeys (with_delta d).
Proof. now split. Qed.

Lemma keepsKeys_with_cursorPose p : keepsKeys (with_cursorPose p).
Proof. now split. Qed.

Lemma keepsKeys_with_isFirstFrame b : keepsKeys (with_isFirstFrame b).
Proof. now split. Qed.

Lemma updateLast_push (f : Assignment -> Assignment) (l : list Assignment) (a : Assignment) :
  updateLast f (l ++ [a]) = l ++ [f a].
Proof.
  induction l as [|x l IH]; [reflexivity|].
  simpl app. simpl updateLast. rewrite IH.
  destruct (l ++ [a]) eqn:E; [|reflexivity].
  destruct l; discriminate.
Qed.

Lemma jobsOf_updateLast f l : keepsKeys f -> jobsOf (updateLast f l) = jobsOf l.
Proof.
  intro K. destruct l as [|x l] using rev_ind; [reflexivity|].
  rewrite updateLast_push, !jobsOf_app. simpl. now rewrite (proj1 (K x)).
Qed.

Lemma touchIds_updateLast f l : keepsKeys f -> touchIds (updateLast f l) = touchIds l.
Proof.
  intro K. destruct l as [|x l] using rev_ind; [reflexivity|].
  rewrite updateLast_push, !touchIds_app. simpl. now rewrite (proj2 (K x)).
Qed.

Lemma jobsOf_updateFirst p f l : keepsKeys f -> jobsOf (updateFirst p f l) = jobsOf l.
Proof.
  intro K. induction l as [|x l IH]; [reflexivity|].
  simpl. destruct (p x); simpl.
  - now rewrite (proj1 (K x)).
  - f_equal. exact IH.
Qed.

Lemma touchIds_updateFirst p f l : keepsKeys f -> touchIds (updateFirst p f l) = touchIds l.
Proof.
  intro K. induction l as [|x l IH]; [reflexivity|].
  simpl. destruct (p x); simpl.
  - now rewrite (proj2 (K x)).
  - f_equal. exact IH.
Qed.

Lemma length_updateFirst p f l : length (updateFirst p f l) = length l.
Proof.
  induction l as [|x l IH]; [reflexivity|].
  simpl. destruct (p x); simpl; congruence.
Qed.

(** Presence of a job or a touch only depends on the keys. *)
Lemma jobIsAssigned_keys j l l' : jobsOf l = jobsOf l' -> jobIsAssigned j l = jobIsAssigned j l'.
Proof.
  intro E. destruct (jobIsAssigned j l') eqn:X.
  - apply jobIsAssigned_In. rewrite E. now apply jobIsAssigned_In.
  - apply jobIsAssigned_notIn. rewrite E. now apply jobIsAssigned_notIn.
Qed.

Lemma touchIsAssigned_keys t l l' :
  touchIds l = touchIds l' -> touchIsAssigned t l = touchIsAssigned t l'.
Proof.
  intro E. destruct (touchIsAssigned t l') eqn:X.
  - apply touchIsAssigned_In. rewrite E. now apply touchIsAssigned_In.
  - apply touchIsAssigned_notIn. rewrite E. now apply touchIsAssigned_notIn.
Qed.

Lemma wfTable_keys l l' : touchIds l = touchIds l' -> jobsOf l = jobsOf l' -> wfTable l -> wfTable l'.
Proof. unfold wfTable. intros <- <-. trivial. Qed.

(** In a table without duplicate touches, [unassign] of an entry's own touch
    and job removes exactly that entry. *)
Lemma unassign_removed (a : Assignment) (l : list Assignment) :
  NoDup (touchIds l) -> In a l -> removed a l (unassign (touch a) (job a) l).
Proof.
  induction l as [|x l IH]; intros ND Ha; [destruct Ha|].
  simpl in ND. inversion ND as [|? ? Nx ND']; subst.
  simpl. destruct (sameTouch (touch a) x && hasJob (job a) x) eqn:E.
  - destruct Ha as [->|Ha]; [exists [], l; now split|].
    exfalso. apply Nx. apply andb_prop in E. destruct E as [E _].
    unfold sameTouch in E. apply Z.eqb_eq in E. rewrite E.
    unfold touchIds. apply in_map_iff. eauto.
  - destruct Ha as [->|Ha].
    + unfold sameTouch, hasJob in E. now rewrite Z.eqb_refl, Job_eqb_refl in E.
    + destruct (IH ND' Ha) as [l1 [l2 [E1 E2]]].
      exists (x :: l1), l2. split; simpl; congruence.
Qed.

Lemma removed_wfTable a l l' : wfTable l -> removed a l l' -> wfTable l'.
Proof.
  intros [Ht Hj] [l1 [l2 [-> ->]]].
  rewrite touchIds_app in Ht. rewrite jobsOf_app in Hj. simpl in Ht, Hj.
  apply NoDup_remove_1 in Ht. apply NoDup_remove_1 in Hj.
  split; [now rewrite touchIds_app | now rewrite jobsOf_app].
Qed.

Lemma removed_touch a l l' :
  wfTable l -> removed a l l' -> touchIsAssigned (touch a) l' = false.
Proof.
  intros [Ht _] [l1 [l2 [-> ->]]].
  apply touchIsAssigned_notIn. rewrite touchIds_app in Ht. simpl in Ht.
  apply NoDup_remove_2 in Ht. now rewrite touchIds_app.
Qed.

Lemma removed_job a l l' :
  wfTable l -> removed a l l' -> jobIsAssigned (job a) l' = false.
Proof.
  intros [_ Hj] [l1 [l2 [-> ->]]].
  apply jobIsAssigned_notIn. rewrite jobsOf_app in Hj. simpl in Hj.
  apply NoDup_remove_2 in Hj. now rewrite jobsOf_app.
Qed.

Lemma removed_other_job a l l' j :
  removed a l l' -> j <> job a -> jobIsAssigned j l' = jobIsAssigned j l.
Proof.
  intros [l1 [l2 [-> ->]]] N.
  rewrite !jobIsAssigned_app.
  change (jobIsAssigned j (a :: l2)) with (hasJob j a || jobIsAssigned j l2).
  unfold hasJob. rewrite (Job_eqb_neq (job a) j); [reflexivity | congruence].
Qed.

Lemma removed_touch_absent a l l' t :
  removed a l l' -> touchIsAssigned t l = false -> touchIsAssigned t l' = false.
Proof.
  intros [l1 [l2 [-> ->]]]. rewrite !touchIsAssigned_app.
  change (touchIsAssigned t (a :: l2)) with (sameTouch t a || touchIsAssigned t l2).
  intro E. apply orb_false_iff in E. destruct E as [E1 E2].
  apply orb_false_iff in E2. destruct E2 as [_ E2]. now rewrite E1, E2.
Qed.

Lemma removed_In a l l' b : removed a l l' -> In b l' -> In b l.
Proof.
  intros [l1 [l2 [-> ->]]] Hb. apply in_app_or in Hb. apply in_or_app.
  destruct Hb; [now left | right; now right].
Qed.

Lemma findByJob_removed_other a l l' j :
  removed a l l' -> j <> job a -> findByJob j l' = findByJob j l.
Proof.
  intros [l1 [l2 [-> ->]]] N. unfold findByJob.
  induction l1 as [|x l1 IH]; simpl.
  - unfold hasJob at 2. now rewrite (Job_eqb_neq (job a) j) by congruence.
  - now rewrite IH.
Qed.

(** The invariant of the table: it is well formed, and a second pincher is
    only there together with a first one. *)
Definition tableInv (l : list Assignment) : Prop :=
  wfTable l /\
  (jobIsAssigned SECOND_PINCHER_JOB l = true -> jobIsAssigned FIRST_PINCHER_JOB l = true).

Definition deviceInv (s : Device) : Prop := tableInv (assignments s).

Lemma tableInv_nil : tableInv [].
Proof. split; [apply wfTable_nil | discriminate]. Qed.

Lemma tableInv_no_second l :
  wfTable l -> jobIsAssigned SECOND_PINCHER_JOB l = false -> tableInv l.
Proof. intros W N. split; [assumption | congruence]. Qed.

Lemma tableInv_push l a :
  tableInv l ->
  touchIsAssigned (touch a) l = false -> jobIsAssigned (job a) l = false ->
  (job a = SECOND_PINCHER_JOB -> jobIsAssigned FIRST_PINCHER_JOB l = true) ->
  tableInv (l ++ [a]).
Proof.
  intros [W I] Nt Nj F. split; [now apply wfTable_push|].
  rewrite !jobIsAssigned_app. simpl. unfold hasJob. rewrite !orb_false_r.
  intro E. apply orb_prop in E. destruct E as [E|E].
  - now rewrite (I E).
  - apply Job_eqb_eq in E. now rewrite (F E).
Qed.

Lemma tableInv_keys l l' :
  touchIds l = touchIds l' -> jobsOf l = jobsOf l' -> tableInv l -> tableInv l'.
Proof.
  intros Et Ej [W I]. split; [now apply (wfTable_keys l)|].
  now rewrite <- !(jobIsAssigned_keys _ l l' Ej).
Qed.

(** * Reasoning about methods

    [respects R m]: whatever [m] does, and however it completes, the device
    it leaves is related by [R] to the one it found. *)
Definition respects (R : Device -> Device -> Prop) {A : Type} (m : M A) : Prop :=
  forall s, R s (snd (m s)).

Section Respects.

Variable R : Device -> Device -> Prop.
Hypothesis R_refl : forall s, R s s.
Hypothesis R_trans : forall s1 s2 s3, R s1 s2 -> R s2 s3 -> R s1 s3.

Lemma respects_ret {A : Type} (a : A) : respects R (ret a).
Proof. intro s. apply R_refl. Qed.

Lemma respects_throw {A : Type} (e : JSError) : respects R (@throw A e).
Proof. intro s. apply R_refl. Qed.

Lemma respects_gets {A : Type} (f : Device -> A) : respects R (gets f).
Proof. intro s. apply R_refl. Qed.

Lemma respects_defined {A : Type} (what : string) (v : option A) :
  respects R (defined what v).
Proof. destruct v; [apply respects_ret | apply respects_throw]. Qed.

Lemma respects_modify (f : Device -> Device) :
  (forall s, R s (f s)) -> respects R (modify f).
Proof. intros F s. apply F. Qed.

Lemma respects_bind {A B : Type} (m : M A) (k : A -> M B) :
  respects R m -> (forall a, respects R (k a)) -> respects R (bind m k).
Proof.
  intros Hm Hk s. unfold bind. specialize (Hm s).
  destruct (m s) as [[a|e] s']; simpl in *; [|assumption].
  eapply R_trans; [exact Hm | apply Hk].
Qed.

Lemma respects_forEach {A : Type} (l : list A) (f : A -> M unit) :
  (forall x, respects R (f x)) -> respects R (forEach l f).
Proof.
  intro F. induction l as [|x l IH]; simpl.
  - apply respects_ret.
  - apply respects_bind; [apply F | intros _; exact IH].
Qed.

End Respects.

(** The keys of the table (which touch has which job) stay as they are. *)
Definition sameKeys (s s' : Device) : Prop :=
  touchIds (assignments s') = touchIds (assignments s) /\
  jobsOf (assignments s') = jobsOf (assignments s).

Lemma sameKeys_refl s : sameKeys s s.
Proof. now split. Qed.

Lemma sameKeys_trans s1 s2 s3 : sameKeys s1 s2 -> sameKeys s2 s3 -> sameKeys s1 s3.
Proof. intros [A1 B1] [A2 B2]. split; congruence. Qed.

(** The table itself stays as it is. *)
Definition sameTable (s s' : Device) : Prop := assignments s' = assignments s.

Lemma sameTable_refl s : sameTable s s.
Proof. reflexivity. Qed.

Lemma sameTable_trans s1 s2 s3 : sameTable s1 s2 -> sameTable s2 s3 -> sameTable s1 s3.
Proof. unfold sameTable. congruence. Qed.

Definition keepsInv (s s' : Device) : Prop := deviceInv s -> deviceInv s'.

Lemma keepsInv_refl s : keepsInv s s.
Proof. now intro. Qed.

Lemma keepsInv_trans s1 s2 s3 : keepsInv s1 s2 -> keepsInv s2 s3 -> keepsInv s1 s3.
Proof. unfold keepsInv. auto. Qed.

Lemma sameKeys_keepsInv s s' : sameKeys s s' -> keepsInv s s'.
Proof. intros [Et Ej]. unfold keepsInv, deviceInv. now apply tableInv_keys. Qed.

Lemma sameTable_sameKeys s s' : sameTable s s' -> sameKeys s s'.
Proof. unfold sameTable. intro E. split; now rewrite E. Qed.

Lemma respects_weaken (R R' : Device -> Device -> Prop) {A : Type} (m : M A) :
  (forall s s', R s s' -> R' s s') -> respects R m -> respects R' m.
Proof. intros W Hm s. apply W, Hm. Qed.

(** * What the methods do *)

Definition cursorEntry (w : World) (t : Touch) : Assignment :=
  with_isFirstFrame (Some true)
    (with_cursorPose (Some (poseOfTouch w t)) (newAssignment t MOVE_CURSOR_JOB)).

Definition cameraEntry (t : Touch) (x y : option num) : Assignment :=
  with_delta (Some (ofZ 0, ofZ 0)) (with_client x y (newAssignment t MOVE_CAMERA_JOB)).

Definition pincherEntry (j : Job) (t : Touch) (x y : option num) : Assignment :=
  with_client x y (newAssignment t j).

Definition startPinch (first : Assignment) (t : Touch) : Pinch :=
  let d := distance (toNumber (a_clientX first)) (toNumber (a_clientY first))
                    (clientX t) (clientY t) in
  {| initialDistance := d; currentDistance := d; pinchDelta := ofZ 0 |}.

Lemma processTouchStart_cursor (w : World) t allow (s : Device) :
  touchIsAssigned t (assignments s) = false ->
  negb (jobIsAssigned FIRST_PINCHER_JOB (assignments s))
  && negb (jobIsAssigned MOVE_CURSOR_JOB (assignments s))
  && (allow || isCursorOverInteractable w t) = true ->
  processTouchStart w t allow s =
  (Normal tt,
   notePendingTap w (set_assignments (assignments s ++ [cursorEntry w t]) s)).
Proof.
  intros Et C1. unfold processTouchStart, bind, gets. rewrite Et, C1.
  apply andb_prop in C1. destruct C1 as [C1 _]. apply andb_prop in C1.
  destruct C1 as [_ Ec]. apply negb_true_iff in Ec.
  simpl. unfold this_assign. rewrite (assign_fresh _ _ _ Et Ec). simpl.
  unfold mutateLast, modify. simpl. rewrite !updateLast_push. reflexivity.
Qed.

Lemma processTouchStart_camera (w : World) t allow (s : Device) :
  touchIsAssigned t (assignments s) = false ->
  negb (jobIsAssigned FIRST_PINCHER_JOB (assignments s))
  && negb (jobIsAssigned MOVE_CURSOR_JOB (assignments s))
  && (allow || isCursorOverInteractable w t) = false ->
  negb (jobIsAssigned FIRST_PINCHER_JOB (assignments s))
  && negb (jobIsAssigned MOVE_CAMERA_JOB (assignments s)) = true ->
  processTouchStart w t allow s =
  (Normal tt,
   notePendingTap w
     (set_assignments
        (assignments s ++ [cameraEntry t (Some (clientX t)) (Some (clientY t))]) s)).
Proof.
  intros Et C1 C2. unfold processTouchStart, bind, gets. rewrite Et, C1, C2.
  apply andb_prop in C2. destruct C2 as [_ Ec]. apply negb_true_iff in Ec.
  simpl. unfold this_assign. rewrite (assign_fresh _ _ _ Et Ec). simpl.
  unfold mutateLast, modify. simpl. rewrite !updateLast_push. reflexivity.
Qed.

Lemma processTouchStart_second (w : World) t allow (s : Device) first :
  touchIsAssigned t (assignments s) = false ->
  findByJob FIRST_PINCHER_JOB (assignments s) = Some first ->
  jobIsAssigned SECOND_PINCHER_JOB (assignments s) = false ->
  processTouchStart w t allow s =
  (Normal tt,
   notePendingTap w
     (set_pinch (startPinch first t)
        (set_assignments
           (assignments s
              ++ [pincherEntry SECOND_PINCHER_JOB t (Some (clientX t)) (Some (clientY t))])
           s))).
Proof.
  intros Et Ff Es. unfold processTouchStart, bind, gets. rewrite Et, Es.
  assert (Ef : jobIsAssigned FIRST_PINCHER_JOB (assignments s) = true).
  { destruct (jobIsAssigned FIRST_PINCHER_JOB (assignments s)) eqn:X; [reflexivity|].
    apply jobIsAssigned_notIn in X. apply findByJob_Some in Ff. destruct Ff as [Hin Hj].
    exfalso. apply X. unfold jobsOf. apply in_map_iff. eauto. }
  rewrite Ef. simpl. rewrite Ff. simpl.
  unfold this_assign. rewrite (assign_fresh _ _ _ Et Es). simpl.
  unfold mutateLast, modify. simpl. rewrite !updateLast_push. reflexivity.
Qed.

Lemma processTouchStart_promote (w : World) t allow (s : Device) cameraMover :
  wfTable (assignments s) ->
  touchIsAssigned t (assignments s) = false ->
  jobIsAssigned FIRST_PINCHER_JOB (assignments s) = false ->
  negb (jobIsAssigned MOVE_CURSOR_JOB (assignments s))
  && (allow || isCursorOverInteractable w t) = false ->
  findByJob MOVE_CAMERA_JOB (assignments s) = Some cameraMover ->
  jobIsAssigned SECOND_PINCHER_JOB (assignments s) = false ->
  processTouchStart w t allow s =
  (Normal tt,
   notePendingTap w
     (set_pinch
        (startPinch
           (pincherEntry FIRST_PINCHER_JOB (touch cameraMover)
              (a_clientX cameraMover) (a_clientY cameraMover)) t)
        (set_assignments
           ((unassign (touch cameraMover) MOVE_CAMERA_JOB (assignments s)
               ++ [pincherEntry FIRST_PINCHER_JOB (touch cameraMover)
                     (a_clientX cameraMover) (a_clientY cameraMover)])
              ++ [pincherEntry SECOND_PINCHER_JOB t (Some (clientX t)) (Some (clientY t))])
           s))).
Proof.
  intros W Et Ef C1 Fc Es. unfold processTouchStart, bind, gets. rewrite Et, Ef, Es.
  simpl negb. rewrite andb_true_l. rewrite C1.
  destruct (findByJob_Some _ _ _ Fc) as [Hin Hj].
  assert (Ec : jobIsAssigned MOVE_CAMERA_JOB (assignments s) = true).
  { apply jobIsAssigned_In. unfold jobsOf. apply in_map_iff. eauto. }
  rewrite Ec. simpl. rewrite Fc. simpl.
  unfold this_unassign, modify. simpl. rewrite Hj.
  pose proof (unassign_removed cameraMover _ (proj1 W) Hin) as Rm. rewrite Hj in Rm.
  set (l1 := unassign (touch cameraMover) MOVE_CAMERA_JOB (assignments s)) in *.
  assert (W1 : wfTable l1) by exact (removed_wfTable _ _ _ W Rm).
  assert (T1 : touchIsAssigned (touch cameraMover) l1 = false)
    by exact (removed_touch _ _ _ W Rm).
  assert (F1 : jobIsAssigned FIRST_PINCHER_JOB l1 = false).
  { rewrite (removed_other_job _ _ _ FIRST_PINCHER_JOB Rm); [assumption | congruence]. }
  unfold this_assign. simpl. rewrite (assign_fresh _ _ _ T1 F1). simpl.
  unfold mutateLast, modify. simpl. rewrite !updateLast_push.
  assert (T2 : touchIsAssigned t
                 (l1 ++ [with_client (a_clientX cameraMover) (a_clientY cameraMover)
                           (newAssignment (touch cameraMover) FIRST_PINCHER_JOB)]) = false).
  { rewrite touchIsAssigned_app, (removed_touch_absent _ _ _ _ Rm Et). simpl.
    unfold sameTouch. simpl. rewrite orb_false_r.
    apply touchIsAssigned_notIn in Et. apply Z.eqb_neq. intro E. apply Et.
    rewrite <- E. unfold touchIds. apply in_map_iff. eauto. }
  assert (S2 : jobIsAssigned SECOND_PINCHER_JOB
                 (l1 ++ [with_client (a_clientX cameraMover) (a_clientY cameraMover)
                           (newAssignment (touch cameraMover) FIRST_PINCHER_JOB)]) = false).
  { rewrite jobIsAssigned_app. simpl.
    rewrite (removed_other_job _ _ _ SECOND_PINCHER_JOB Rm); [now rewrite Es | congruence]. }
  rewrite (assign_fresh _ _ _ T2 S2). simpl. rewrite !updateLast_push. reflexivity.
Qed.

Lemma processTouchStart_dropped (w : World) t allow (s : Device) :
  touchIsAssigned t (assignments s) = false ->
  negb (jobIsAssigned FIRST_PINCHER_JOB (assignments s))
  && negb (jobIsAssigned MOVE_CURSOR_JOB (assignments s))
  && (allow || isCursorOverInteractable w t) = false ->
  negb (jobIsAssigned FIRST_PINCHER_JOB (assignments s))
  && negb (jobIsAssigned MOVE_CAMERA_JOB (assignments s)) = false ->
  jobIsAssigned SECOND_PINCHER_JOB (assignments s) = true ->
  processTouchStart w t allow s =
  (Normal tt,
   notePendingTap w
     (set_console (console s ++ [console_warn "no job suitable for touch"]) s)).
Proof.
  intros Et C1 C2 Es. unfold processTouchStart, bind, gets. rewrite Et, C1, C2, Es.
  reflexivity.
Qed.

Lemma assignments_notePendingTap (w : World) (s : Device) :
  assignments (notePendingTap w s) = assignments s.
Proof.
  unfold notePendingTap.
  destruct ((maxTouchCount (pendingTap s) =? 0) && (0 <? Z.of_nat (length (assignments s))));
    reflexivity.
Qed.

Lemma settlePendingTap_nonempty (w : World) (s : Device) :
  assignments s <> [] -> settlePendingTap w s = s.
Proof. unfold settlePendingTap. destruct (assignments s); [congruence | reflexivity]. Qed.

Lemma assignments_settlePendingTap (w : World) (s : Device) :
  assignments (settlePendingTap w s) = assignments s.
Proof.
  unfold settlePendingTap. destruct (assignments s) eqn:E; [|assumption].
  destruct (withinTapWindow w (pendingTap s)); simpl; assumption.
Qed.

Definition endFirstTable (a : Assignment) (l : list (Assignment)) :=
  let l1 := unassign (touch a) FIRST_PINCHER_JOB l in
  match findByJob SECOND_PINCHER_JOB l with
  | Some second =>
      unassign (touch second) SECOND_PINCHER_JOB l1
        ++ [if jobIsAssigned MOVE_CAMERA_JOB l
            then pincherEntry FIRST_PINCHER_JOB (touch second)
                   (a_clientX second) (a_clientY second)
            else cameraEntry (touch second) (a_clientX second) (a_clientY second)]
  | None => l1
  end.

Definition endSecondTable (a : Assignment) (l : list (Assignment)) :=
  let l1 := unassign (touch a) SECOND_PINCHER_JOB l in
  match findByJob FIRST_PINCHER_JOB l with
  | Some first =>
      if jobIsAssigned MOVE_CAMERA_JOB l then l1
      else unassign (touch first) FIRST_PINCHER_JOB l1
             ++ [cameraEntry (touch first) (a_clientX first) (a_clientY first)]
  | None => l1
  end.

Lemma end_unassigned (w : World) t (s : Device) :
  isPendingFirstTouch t s = false ->
  touchIsAssigned t (assignments s) = false ->
  end_ w t s =
  (Normal tt,
   settlePendingTap w (set_console (console s ++ [console_warn "touch does not have a job"]) s)).
Proof.
  intros Ep Et. unfold end_, bind, gets. rewrite Ep, Et. reflexivity.
Qed.

Lemma end_single (w : World) t (s : Device) a :
  isPendingFirstTouch t s = false ->
  findByTouch t (assignments s) = Some a ->
  job a = MOVE_CURSOR_JOB \/ job a = MOVE_CAMERA_JOB ->
  end_ w t s =
  (Normal tt,
   settlePendingTap w (set_assignments (unassign (touch a) (job a) (assignments s)) s)).
Proof.
  intros Ep Ft Hj. unfold end_, bind, gets.
  rewrite Ep, (findByTouch_touchIsAssigned _ _ _ Ft). simpl. rewrite Ft. simpl.
  destruct Hj as [Hj|Hj]; rewrite Hj; reflexivity.
Qed.

Lemma end_first (w : World) t (s : Device) a :
  wfTable (assignments s) ->
  isPendingFirstTouch t s = false ->
  findByTouch t (assignments s) = Some a ->
  job a = FIRST_PINCHER_JOB ->
  end_ w t s =
  (Normal tt,
   settlePendingTap w
     (set_assignments (endFirstTable a (assignments s)) (set_pinch zeroPinch s))).
Proof.
  intros W Ep Ft Hj. unfold end_, bind, gets.
  rewrite Ep, (findByTouch_touchIsAssigned _ _ _ Ft). simpl. rewrite Ft. simpl.
  rewrite Hj. unfold this_unassign, modify. simpl.
  destruct (findByTouch_Some _ _ _ Ft) as [Hin _].
  pose proof (unassign_removed a _ (proj1 W) Hin) as Rm. rewrite Hj in Rm.
  unfold endFirstTable.
  set (l1 := unassign (touch a) FIRST_PINCHER_JOB (assignments s)) in *.
  assert (W1 : wfTable l1) by exact (removed_wfTable _ _ _ W Rm).
  assert (F1 : jobIsAssigned FIRST_PINCHER_JOB l1 = false).
  { rewrite <- Hj. exact (removed_job _ _ _ W Rm). }
  rewrite (removed_other_job _ _ _ SECOND_PINCHER_JOB Rm) by congruence.
  destruct (findByJob SECOND_PINCHER_JOB (assignments s)) as [second|] eqn:Fs.
  - assert (Es : jobIsAssigned SECOND_PINCHER_JOB (assignments s) = true).
    { destruct (findByJob_Some _ _ _ Fs) as [Hs Hjs].
      apply jobIsAssigned_In. unfold jobsOf. apply in_map_iff. eauto. }
    rewrite Es. simpl.
    assert (Fs1 : findByJob SECOND_PINCHER_JOB l1 = Some second).
    { rewrite (findByJob_removed_other _ _ _ SECOND_PINCHER_JOB Rm) by congruence.
      exact Fs. }
    destruct (findByJob_Some _ _ _ Fs1) as [Hs1 Hjs].
    rewrite Fs1. simpl. rewrite Hjs.
    pose proof (unassign_removed second _ (proj1 W1) Hs1) as Rm2. rewrite Hjs in Rm2.
    set (l2 := unassign (touch second) SECOND_PINCHER_JOB l1) in *.
    assert (T2 : touchIsAssigned (touch second) l2 = false)
      by exact (removed_touch _ _ _ W1 Rm2).
    assert (F2 : jobIsAssigned FIRST_PINCHER_JOB l2 = false).
    { rewrite (removed_other_job _ _ _ FIRST_PINCHER_JOB Rm2); [assumption|congruence]. }
    assert (C2 : jobIsAssigned MOVE_CAMERA_JOB l2
                 = jobIsAssigned MOVE_CAMERA_JOB (assignments s)).
    { rewrite (removed_other_job _ _ _ MOVE_CAMERA_JOB Rm2) by congruence.
      rewrite (removed_other_job _ _ _ MOVE_CAMERA_JOB Rm) by congruence.
      reflexivity. }
    destruct (jobIsAssigned MOVE_CAMERA_JOB (assignments s)) eqn:Ec; rewrite C2.
    + unfold this_assign. simpl. rewrite (assign_fresh _ _ _ T2 F2). simpl.
      unfold mutateLast, modify. simpl. rewrite !updateLast_push. reflexivity.
    + unfold this_assign. simpl. rewrite (assign_fresh _ _ _ T2 C2). simpl.
      unfold mutateLast, modify. simpl. rewrite !updateLast_push. reflexivity.
  - rewrite (findByJob_None _ _ Fs). reflexivity.
Qed.

Lemma end_second (w : World) t (s : Device) a :
  wfTable (assignments s) ->
  isPendingFirstTouch t s = false ->
  findByTouch t (assignments s) = Some a ->
  job a = SECOND_PINCHER_JOB ->
  end_ w t s =
  (Normal tt,
   settlePendingTap w
     (set_assignments (endSecondTable a (assignments s)) (set_pinch zeroPinch s))).
Proof.
  intros W Ep Ft Hj. unfold end_, bind, gets.
  rewrite Ep, (findByTouch_touchIsAssigned _ _ _ Ft). simpl. rewrite Ft. simpl.
  rewrite Hj. unfold this_unassign, modify. simpl.
  destruct (findByTouch_Some _ _ _ Ft) as [Hin _].
  pose proof (unassign_removed a _ (proj1 W) Hin) as Rm. rewrite Hj in Rm.
  unfold endSecondTable.
  set (l1 := unassign (touch a) SECOND_PINCHER_JOB (assignments s)) in *.
  assert (W1 : wfTable l1) by exact (removed_wfTable _ _ _ W Rm).
  rewrite (removed_other_job _ _ _ FIRST_PINCHER_JOB Rm) by congruence.
  rewrite (removed_other_job _ _ _ MOVE_CAMERA_JOB Rm) by congruence.
  destruct (findByJob FIRST_PINCHER_JOB (assignments s)) as [first|] eqn:Ff.
  - assert (Ef : jobIsAssigned FIRST_PINCHER_JOB (assignments s) = true).
    { destruct (findByJob_Some _ _ _ Ff) as [Hs Hjs].
      apply jobIsAssigned_In. unfold jobsOf. apply in_map_iff. eauto. }
    rewrite Ef. simpl.
    destruct (jobIsAssigned MOVE_CAMERA_JOB (assignments s)) eqn:Ec; [reflexivity|].
    simpl.
    assert (Ff1 : findByJob FIRST_PINCHER_JOB l1 = Some first).
    { rewrite (findByJob_removed_other _ _ _ FIRST_PINCHER_JOB Rm) by congruence.
      exact Ff. }
    destruct (findByJob_Some _ _ _ Ff1) as [Hf1 Hjf].
    rewrite Ff1. simpl. rewrite Hjf.
    pose proof (unassign_removed first _ (proj1 W1) Hf1) as Rm2. rewrite Hjf in Rm2.
    set (l2 := unassign (touch first) FIRST_PINCHER_JOB l1) in *.
    assert (T2 : touchIsAssigned (touch first) l2 = false)
      by exact (removed_touch _ _ _ W1 Rm2).
    assert (C2 : jobIsAssigned MOVE_CAMERA_JOB l2 = false).
    { rewrite (removed_other_job _ _ _ MOVE_CAMERA_JOB Rm2) by congruence.
      rewrite (removed_other_job _ _ _ MOVE_CAMERA_JOB Rm) by congruence.
      exact Ec. }
    unfold this_assign. simpl. rewrite (assign_fresh _ _ _ T2 C2). simpl.
    unfold mutateLast, modify. simpl. rewrite !updateLast_push. reflexivity.
  - rewrite (findByJob_None _ _ Ff). reflexivity.
Qed.


Lemma In_jobIsAssigned (a : Assignment) l : In a l -> jobIsAssigned (job a) l = true.
Proof. intro Ha. apply jobIsAssigned_In. unfold jobsOf. apply in_map_iff. eauto. Qed.

Lemma In_touchIsAssigned (a : Assignment) l : In a l -> touchIsAssigned (touch a) l = true.
Proof. intro Ha. apply touchIsAssigned_In. unfold touchIds. apply in_map_iff. eauto. Qed.

Lemma In_sameTouch (a : Assignment) t l :
  In a l -> identifier (touch a) = identifier t -> touchIsAssigned t l = true.
Proof.
  intros Ha E. apply touchIsAssigned_In. rewrite <- E. unfold touchIds.
  apply in_map_iff. eauto.
Qed.

Lemma processTouchStart_assigned (w : World) t allow (s : Device) :
  touchIsAssigned t (assignments s) = true ->
  processTouchStart w t allow s =
  (Normal tt, set_console (console s ++ [console_error "touch already has a job"]) s).
Proof.
  intro E. unfold processTouchStart, bind, gets. rewrite E. reflexivity.
Qed.

Lemma processTouchStart_inv (w : World) t allow (s : Device) :
  deviceInv s ->
  deviceInv (snd (processTouchStart w t allow s))
  /\ fst (processTouchStart w t allow s) = Normal tt.
Proof.
  intros Hinv. pose proof Hinv as [W I]. unfold deviceInv in *.
  destruct (touchIsAssigned t (assignments s)) eqn:Et.
  { rewrite processTouchStart_assigned by assumption. simpl. now split. }
  destruct (negb (jobIsAssigned FIRST_PINCHER_JOB (assignments s))
            && negb (jobIsAssigned MOVE_CURSOR_JOB (assignments s))
            && (allow || isCursorOverInteractable w t)) eqn:C1.
  { rewrite processTouchStart_cursor by assumption. cbn [fst snd].
    rewrite assignments_notePendingTap. simpl. split; [|reflexivity].
    apply andb_prop in C1. destruct C1 as [C1 _]. apply andb_prop in C1.
    destruct C1 as [_ Ec]. apply negb_true_iff in Ec.
    apply tableInv_push; simpl; try assumption; discriminate. }
  destruct (negb (jobIsAssigned FIRST_PINCHER_JOB (assignments s))
            && negb (jobIsAssigned MOVE_CAMERA_JOB (assignments s))) eqn:C2.
  { rewrite processTouchStart_camera by assumption. cbn [fst snd].
    rewrite assignments_notePendingTap. simpl. split; [|reflexivity].
    apply andb_prop in C2. destruct C2 as [_ Ec]. apply negb_true_iff in Ec.
    apply tableInv_push; simpl; try assumption; discriminate. }
  destruct (jobIsAssigned SECOND_PINCHER_JOB (assignments s)) eqn:Es.
  { rewrite processTouchStart_dropped by assumption. cbn [fst snd].
    rewrite assignments_notePendingTap. simpl. now split. }
  destruct (jobIsAssigned FIRST_PINCHER_JOB (assignments s)) eqn:Ef.
  { destruct (findByJob_assigned _ _ Ef) as [first Ff].
    rewrite (processTouchStart_second w t allow s first) by assumption. cbn [fst snd].
    rewrite assignments_notePendingTap. simpl. split; [|reflexivity].
    apply tableInv_push; simpl; try assumption; trivial. }
  simpl in C1, C2. apply negb_false_iff in C2.
  destruct (findByJob_assigned _ _ C2) as [cm Fc].
  rewrite (processTouchStart_promote w t allow s cm) by assumption. cbn [fst snd].
  rewrite assignments_notePendingTap. simpl. split; [|reflexivity].
  destruct (findByJob_Some _ _ _ Fc) as [Hin Hj].
  pose proof (unassign_removed cm _ (proj1 W) Hin) as Rm. rewrite Hj in Rm.
  set (l1 := unassign (touch cm) MOVE_CAMERA_JOB (assignments s)) in *.
  assert (W1 : wfTable l1) by exact (removed_wfTable _ _ _ W Rm).
  assert (S1 : jobIsAssigned SECOND_PINCHER_JOB l1 = false).
  { rewrite (removed_other_job _ _ _ SECOND_PINCHER_JOB Rm); [assumption|congruence]. }
  assert (F1 : jobIsAssigned FIRST_PINCHER_JOB l1 = false).
  { rewrite (removed_other_job _ _ _ FIRST_PINCHER_JOB Rm); [assumption|congruence]. }
  apply tableInv_push; simpl.
  - apply tableInv_push; simpl.
    + now apply tableInv_no_second.
    + exact (removed_touch _ _ _ W Rm).
    + exact F1.
    + discriminate.
  - rewrite touchIsAssigned_app, (removed_touch_absent _ _ _ _ Rm Et). simpl.
    unfold sameTouch. simpl. rewrite orb_false_r.
    apply Z.eqb_neq. intro E.
    rewrite (In_sameTouch _ _ _ Hin E) in Et. discriminate.
  - rewrite jobIsAssigned_app, S1. reflexivity.
  - intros _. rewrite jobIsAssigned_app. simpl. apply orb_true_r.
Qed.

Lemma tableInv_removed_single (a : Assignment) l :
  tableInv l -> In a l ->
  job a = MOVE_CURSOR_JOB \/ job a = MOVE_CAMERA_JOB ->
  tableInv (unassign (touch a) (job a) l).
Proof.
  intros [W I] Hin Hj.
  pose proof (unassign_removed a _ (proj1 W) Hin) as Rm.
  split; [exact (removed_wfTable _ _ _ W Rm)|].
  rewrite (removed_other_job _ _ _ SECOND_PINCHER_JOB Rm) by (destruct Hj; congruence).
  rewrite (removed_other_job _ _ _ FIRST_PINCHER_JOB Rm) by (destruct Hj; congruence).
  exact I.
Qed.

Lemma tableInv_endFirstTable (a : Assignment) l :
  tableInv l -> In a l -> job a = FIRST_PINCHER_JOB -> tableInv (endFirstTable a l).
Proof.
  intros [W I] Hin Hj. unfold endFirstTable.
  pose proof (unassign_removed a _ (proj1 W) Hin) as Rm. rewrite Hj in Rm.
  set (l1 := unassign (touch a) FIRST_PINCHER_JOB l) in *.
  assert (W1 : wfTable l1) by exact (removed_wfTable _ _ _ W Rm).
  assert (F1 : jobIsAssigned FIRST_PINCHER_JOB l1 = false).
  { rewrite <- Hj. exact (removed_job _ _ _ W Rm). }
  destruct (findByJob SECOND_PINCHER_JOB l) as [second|] eqn:Fs.
  - assert (Fs1 : findByJob SECOND_PINCHER_JOB l1 = Some second).
    { rewrite (findByJob_removed_other _ _ _ SECOND_PINCHER_JOB Rm) by congruence.
      exact Fs. }
    destruct (findByJob_Some _ _ _ Fs1) as [Hs1 Hjs].
    pose proof (unassign_removed second _ (proj1 W1) Hs1) as Rm2. rewrite Hjs in Rm2.
    set (l2 := unassign (touch second) SECOND_PINCHER_JOB l1) in *.
    assert (W2 : wfTable l2) by exact (removed_wfTable _ _ _ W1 Rm2).
    assert (S2 : jobIsAssigned SECOND_PINCHER_JOB l2 = false).
    { rewrite <- Hjs. exact (removed_job _ _ _ W1 Rm2). }
    assert (T2 : touchIsAssigned (touch second) l2 = false)
      by exact (removed_touch _ _ _ W1 Rm2).
    assert (F2 : jobIsAssigned FIRST_PINCHER_JOB l2 = false).
    { rewrite (removed_other_job _ _ _ FIRST_PINCHER_JOB Rm2); [assumption|congruence]. }
    destruct (jobIsAssigned MOVE_CAMERA_JOB l) eqn:Ec.
    + apply tableInv_push; simpl; try assumption;
        [now apply tableInv_no_second | discriminate].
    + apply tableInv_push; simpl; try assumption;
        [now apply tableInv_no_second | | discriminate].
      rewrite (removed_other_job _ _ _ MOVE_CAMERA_JOB Rm2) by congruence.
      rewrite (removed_other_job _ _ _ MOVE_CAMERA_JOB Rm) by congruence.
      exact Ec.
  - apply tableInv_no_second; [assumption|].
    rewrite (removed_other_job _ _ _ SECOND_PINCHER_JOB Rm) by congruence.
    now apply findByJob_None.
Qed.

Lemma tableInv_endSecondTable (a : Assignment) l :
  tableInv l -> In a l -> job a = SECOND_PINCHER_JOB -> tableInv (endSecondTable a l).
Proof.
  intros [W I] Hin Hj. unfold endSecondTable.
  pose proof (unassign_removed a _ (proj1 W) Hin) as Rm. rewrite Hj in Rm.
  set (l1 := unassign (touch a) SECOND_PINCHER_JOB l) in *.
  assert (W1 : wfTable l1) by exact (removed_wfTable _ _ _ W Rm).
  assert (S1 : jobIsAssigned SECOND_PINCHER_JOB l1 = false).
  { rewrite <- Hj. exact (removed_job _ _ _ W Rm). }
  destruct (findByJob FIRST_PINCHER_JOB l) as [first|] eqn:Ff;
    [|now apply tableInv_no_second].
  destruct (jobIsAssigned MOVE_CAMERA_JOB l) eqn:Ec; [now apply tableInv_no_second|].
  assert (Ff1 : findByJob FIRST_PINCHER_JOB l1 = Some first).
  { rewrite (findByJob_removed_other _ _ _ FIRST_PINCHER_JOB Rm) by congruence.
    exact Ff. }
  destruct (findByJob_Some _ _ _ Ff1) as [Hf1 Hjf].
  pose proof (unassign_removed first _ (proj1 W1) Hf1) as Rm2. rewrite Hjf in Rm2.
  set (l2 := unassign (touch first) FIRST_PINCHER_JOB l1) in *.
  assert (W2 : wfTable l2) by exact (removed_wfTable _ _ _ W1 Rm2).
  assert (S2 : jobIsAssigned SECOND_PINCHER_JOB l2 = false).
  { rewrite (removed_other_job _ _ _ SECOND_PINCHER_JOB Rm2); [assumption|congruence]. }
  apply tableInv_push; simpl.
  - now apply tableInv_no_second.
  - exact (removed_touch _ _ _ W1 Rm2).
  - rewrite (removed_other_job _ _ _ MOVE_CAMERA_JOB Rm2) by congruence.
    rewrite (removed_other_job _ _ _ MOVE_CAMERA_JOB Rm) by congruence.
    exact Ec.
  - discriminate.
Qed.

Lemma respects_log R (e : LogEntry) :
  (forall s s' : Device, sameTable s s' -> R s s') -> respects R (log e).
Proof. intros W s. apply W. reflexivity. Qed.

Lemma clearPendingFirstTouch_sameTable : respects sameTable clearPendingFirstTouch.
Proof.
  intro s. unfold clearPendingFirstTouch, bind, gets, clearTimeout, modify, ret.
  destruct (firstTouchTimeout s); reflexivity.
Qed.

Lemma setTimeout_sameTable task delay : respects sameTable (setTimeout task delay).
Proof. intro s. reflexivity. Qed.

Lemma sameTable_keepsInv (s s' : Device) : sameTable s s' -> keepsInv s s'.
Proof. intro E. apply sameKeys_keepsInv, sameTable_sameKeys, E. Qed.

Lemma processTouchStart_keepsInv (w : World) t allow :
  respects keepsInv (processTouchStart w t allow).
Proof. intros s I. now apply processTouchStart_inv. Qed.

Lemma processPendingFirstTouch_keepsInv (w : World) allow :
  respects keepsInv (processPendingFirstTouch w allow).
Proof.
  unfold processPendingFirstTouch.
  apply (respects_bind _ keepsInv_trans).
  - apply respects_gets, keepsInv_refl.
  - intro pending. apply (respects_bind _ keepsInv_trans).
    + apply respects_defined, keepsInv_refl.
    + intro p. apply processTouchStart_keepsInv.
Qed.

Lemma end_pending (w : World) t s :
  isPendingFirstTouch t s = true ->
  end_ w t s =
  (processPendingFirstTouch w true ;;
   clearPendingFirstTouch ;;
   _ <- setTimeout (TaskEnd t) 0 ;;
   ret tt) s.
Proof. intro Ep. unfold end_. unfold bind at 1. unfold gets at 1. now rewrite Ep. Qed.

Lemma redispatch_sameTable (task : Task) :
  respects sameTable (clearPendingFirstTouch ;; _ <- setTimeout task 0 ;; ret tt).
Proof.
  apply (respects_bind _ sameTable_trans).
  - apply clearPendingFirstTouch_sameTable.
  - intros _. apply (respects_bind _ sameTable_trans).
    + apply setTimeout_sameTable.
    + intros _. apply respects_ret, sameTable_refl.
Qed.

Lemma end_keepsInv (w : World) t : respects keepsInv (end_ w t).
Proof.
  intros s. destruct (isPendingFirstTouch t s) eqn:Ep.
  - rewrite (end_pending w t s Ep).
    apply (respects_bind _ keepsInv_trans).
    + apply processPendingFirstTouch_keepsInv.
    + intros _. apply (respects_weaken sameTable); [apply sameTable_keepsInv|].
      apply redispatch_sameTable.
  - intro I. unfold deviceInv in *.
    destruct (touchIsAssigned t (assignments s)) eqn:Et.
    + destruct (findByTouch_assigned _ _ Et) as [a Ft].
      destruct (findByTouch_Some _ _ _ Ft) as [Hin _].
      destruct (job a) eqn:Hj.
      * rewrite (end_single w t s a) by auto. cbn [snd].
        rewrite assignments_settlePendingTap. simpl. rewrite Hj, <- Hj.
        apply tableInv_removed_single; auto.
      * rewrite (end_single w t s a) by auto. cbn [snd].
        rewrite assignments_settlePendingTap. simpl. rewrite Hj, <- Hj.
        apply tableInv_removed_single; auto.
      * rewrite (end_first w t s a) by (try apply I; auto). cbn [snd].
        rewrite assignments_settlePendingTap. simpl.
        now apply tableInv_endFirstTable.
      * rewrite (end_second w t s a) by (try apply I; auto). cbn [snd].
        rewrite assignments_settlePendingTap. simpl.
        now apply tableInv_endSecondTable.
    + rewrite end_unassigned by assumption. cbn [snd].
      rewrite assignments_settlePendingTap. exact I.
Qed.

(** What [clearPendingFirstTouch] leaves: the timer is unregistered and both
    fields are null. *)
Definition afterClearPendingFirstTouch (s : Device) : Device :=
  set_firstTouchTimeout None
    (set_pendingFirstTouch None
       (match firstTouchTimeout s with
        | Some id =>
            set_timers (filter (fun t => negb (Nat.eqb (timerId t) id)) (timers s))
                       (nextTimerId s) s
        | None => s
        end)).

Lemma clearPendingFirstTouch_eq (s : Device) :
  clearPendingFirstTouch s = (Normal tt, afterClearPendingFirstTouch s).
Proof.
  unfold clearPendingFirstTouch, afterClearPendingFirstTouch, bind, gets, clearTimeout,
    modify, ret.
  destruct (firstTouchTimeout s); reflexivity.
Qed.

Lemma assignments_afterClearPendingFirstTouch (s : Device) :
  assignments (afterClearPendingFirstTouch s) = assignments s.
Proof. unfold afterClearPendingFirstTouch. destruct (firstTouchTimeout s); reflexivity. Qed.

(** What [start] leaves when it buffers the touch. *)
Definition afterDelay (t : Touch) (s : Device) : Device :=
  set_firstTouchTimeout (Some (nextTimerId s))
    (set_timers
       (timers s ++ [{| timerId := nextTimerId s; timerDelay := 150;
                        timerTask := TaskResolvePendingFirstTouch |}])
       (S (nextTimerId s))
       (set_pendingFirstTouch (Some t) s)).

Lemma start_delay (w : World) t s :
  pendingFirstTouch s = None -> shouldDelayStartTouch w t = true ->
  start w t s = (Normal tt, afterDelay t s).
Proof.
  intros Ep Ed. unfold start, bind, gets. rewrite Ep. simpl. rewrite Ed. reflexivity.
Qed.

Lemma start_immediate (w : World) t s :
  pendingFirstTouch s = None -> shouldDelayStartTouch w t = false ->
  start w t s = processTouchStart w t false s.
Proof.
  intros Ep Ed. unfold start, bind, gets. rewrite Ep. simpl. rewrite Ed. reflexivity.
Qed.

Lemma start_flush (w : World) t s p :
  pendingFirstTouch s = Some p ->
  touchIsAssigned p (assignments s) = false ->
  jobIsAssigned FIRST_PINCHER_JOB (assignments s) = false ->
  start w t s =
  processTouchStart w t false
    (afterClearPendingFirstTouch
       (set_assignments
          (assignments s
             ++ [pincherEntry FIRST_PINCHER_JOB p (Some (clientX p)) (Some (clientY p))])
          s)).
Proof.
  intros Ep Et Ef. unfold start, bind, gets. rewrite Ep. simpl.
  unfold this_assign. rewrite (assign_fresh _ _ _ Et Ef). simpl.
  unfold mutateLast, modify. simpl. rewrite updateLast_push.
  rewrite clearPendingFirstTouch_eq. reflexivity.
Qed.

Lemma start_flush_throws (w : World) t s p :
  pendingFirstTouch s = Some p ->
  touchIsAssigned p (assignments s) || jobIsAssigned FIRST_PINCHER_JOB (assignments s) = true ->
  start w t s = (Throw (TypeError "job"), s).
Proof.
  intros Ep E. unfold start, bind, gets. rewrite Ep. simpl.
  unfold this_assign. rewrite (assign_taken _ _ _ E). simpl.
  destruct s; reflexivity.
Qed.

Lemma start_keepsInv (w : World) t : respects keepsInv (start w t).
Proof.
  intros s I. destruct (pendingFirstTouch s) as [p|] eqn:Ep.
  - destruct (touchIsAssigned p (assignments s)
              || jobIsAssigned FIRST_PINCHER_JOB (assignments s)) eqn:E.
    + rewrite (start_flush_throws w t s p Ep E). exact I.
    + apply orb_false_iff in E. destruct E as [Et Ef].
      rewrite (start_flush w t s p Ep Et Ef).
      apply processTouchStart_keepsInv. unfold deviceInv.
      rewrite assignments_afterClearPendingFirstTouch. simpl.
      apply tableInv_push; simpl; try assumption. discriminate.
  - destruct (shouldDelayStartTouch w t) eqn:Ed.
    + rewrite (start_delay w t s Ep Ed). exact I.
    + rewrite (start_immediate w t s Ep Ed). now apply processTouchStart_keepsInv.
Qed.

Lemma move_pending (w : World) t s :
  isPendingFirstTouch t s = true ->
  move w t s =
  (processPendingFirstTouch w false ;;
   clearPendingFirstTouch ;;
   _ <- setTimeout (TaskMove t) 0 ;;
   ret tt) s.
Proof. intro Ep. unfold move. unfold bind at 1. unfold gets at 1. now rewrite Ep. Qed.

Lemma sameKeys_updateFirst p f (s : Device) (s' : Device) :
  keepsKeys f ->
  assignments s' = updateFirst p f (assignments s) -> sameKeys s s'.
Proof.
  intros K E. split; rewrite E; [now apply touchIds_updateFirst | now apply jobsOf_updateFirst].
Qed.

Ltac split_cases :=
  repeat match goal with
         | |- context [if ?b then _ else _] =>
             lazymatch b with
             | context [match _ with _ => _ end] => fail
             | _ => destruct b eqn:?; simpl
             end
         | |- context [match ?x with _ => _ end] =>
             lazymatch x with
             | context [match _ with _ => _ end] => fail
             | _ => destruct x eqn:?; simpl
             end
         end.

Ltac keys_leaf :=
  split; simpl;
  rewrite ?touchIds_updateFirst, ?jobsOf_updateFirst, ?touchIds_updateLast, ?jobsOf_updateLast;
  auto using keepsKeys_with_client, keepsKeys_with_delta, keepsKeys_with_cursorPose,
    keepsKeys_with_isFirstFrame.

(** A move of a touch that is not the buffered one changes fields only. *)
Lemma move_sameKeys (w : World) t s :
  isPendingFirstTouch t s = false -> sameKeys s (snd (move w t s)).
Proof.
  intro Ep. unfold move, bind, gets. rewrite Ep. simpl.
  unfold mutateFirst, modify, log, defined, ret, throw.
  split_cases; keys_leaf.
Qed.

Lemma move_keepsInv (w : World) t : respects keepsInv (move w t).
Proof.
  intros s. destruct (isPendingFirstTouch t s) eqn:Ep.
  - rewrite (move_pending w t s Ep).
    apply (respects_bind _ keepsInv_trans).
    + apply processPendingFirstTouch_keepsInv.
    + intros _. apply (respects_weaken sameTable); [apply sameTable_keepsInv|].
      apply redispatch_sameTable.
  - apply sameKeys_keepsInv, move_sameKeys, Ep.
Qed.

Lemma process_keepsInv (w : World) event : respects keepsInv (process w event).
Proof.
  unfold process. destruct (type event);
    apply (respects_forEach _ keepsInv_refl keepsInv_trans); intro t.
  - apply start_keepsInv.
  - apply end_keepsInv.
  - apply move_keepsInv.
  - apply end_keepsInv.
Qed.

Lemma resetDeltas_sameKeys : respects sameKeys resetDeltas.
Proof.
  intro s. unfold resetDeltas, bind, gets, modify, mutateFirst, defined, ret, throw. simpl.
  split_cases; keys_leaf.
Qed.

Lemma drain_keepsInv (w : World) : respects keepsInv (drain w).
Proof.
  unfold drain. apply (respects_bind _ keepsInv_trans).
  - apply respects_gets, keepsInv_refl.
  - intro queued. apply (respects_bind _ keepsInv_trans).
    + apply (respects_forEach _ keepsInv_refl keepsInv_trans). intro e.
      apply process_keepsInv.
    + intros _. intros s I. exact I.
Qed.

Lemma publish_sameKeys frame : respects sameKeys (publish frame).
Proof.
  intro s. unfold publish, bind, gets, modify, mutateFirst, defined, ret, throw. simpl.
  split_cases; keys_leaf.
Qed.

Lemma write_keepsInv (w : World) frame : respects keepsInv (write w frame).
Proof.
  unfold write. apply (respects_bind _ keepsInv_trans).
  - apply (respects_weaken sameKeys); [apply sameKeys_keepsInv | apply resetDeltas_sameKeys].
  - intros _. apply (respects_bind _ keepsInv_trans).
    + apply drain_keepsInv.
    + intros _. apply (respects_weaken sameKeys);
        [apply sameKeys_keepsInv | apply publish_sameKeys].
Qed.

Lemma runTask_keepsInv (w : World) task : respects keepsInv (runTask w task).
Proof.
  destruct task; simpl.
  - apply (respects_bind _ keepsInv_trans).
    + apply processPendingFirstTouch_keepsInv.
    + intros _ s I. exact I.
  - apply end_keepsInv.
  - apply move_keepsInv.
Qed.

Lemma step_keepsInv op s : deviceInv s -> deviceInv (step op s).
Proof.
  intro I. destruct op as [event|w frame|w id]; simpl.
  - exact I.
  - now apply write_keepsInv.
  - destruct (find _ (timers s)) as [t|]; [|exact I].
    now apply runTask_keepsInv.
Qed.

(** Every reachable device satisfies the table invariant. *)
Lemma reachable_deviceInv s : reachable s -> deviceInv s.
Proof.
  induction 1 as [|op s R IH].
  - apply tableInv_nil.
  - now apply step_keepsInv.
Qed.

Lemma reachable_run ops s : reachable s -> reachable (run ops s).
Proof.
  revert s. induction ops as [|op ops IH]; intros s R; simpl.
  - exact R.
  - apply IH. now apply reachable_step.
Qed.

(** * The claims *)

(** C2: in every reachable state of the device, an assignment with job
    SecondPincher exists in the table only if one with job FirstPincher
    exists as well. *)
Theorem second_pincher_only_with_first (s : Device) :
  reachable s ->
  jobIsAssigned SECOND_PINCHER_JOB (assignments s) = true ->
  jobIsAssigned FIRST_PINCHER_JOB (assignments s) = true.
Proof. intro R. exact (proj2 (reachable_deviceInv s R)). Qed.

(** C3: in every reachable state of the device, each touch identity appears
    in at most one assignment of the table, and each of the four jobs appears
    in at most one assignment. *)
Theorem one_job_per_touch_one_touch_per_job (s : Device) :
  reachable s ->
  NoDup (touchIds (assignments s)) /\ NoDup (jobsOf (assignments s)).
Proof. intro R. exact (proj1 (reachable_deviceInv s R)). Qed.

(** C8: a touch-start processed for a touch whose identity is already in the
    assignment table reports an error and aborts: the method returns, and the
    device is the one it found with one more error on the console; the
    table, the pinch state and the pending tap (start timestamp and maximum
    touch count) are untouched. *)
Theorem processTouchStart_already_assigned (w : World) (t : Touch) (allow : bool)
  (s : Device) :
  touchIsAssigned t (assignments s) = true ->
  processTouchStart w t allow s
  = (Normal tt, set_console (console s ++ [console_error "touch already has a job"]) s)
  /\ assignments (snd (processTouchStart w t allow s)) = assignments s
  /\ pinch (snd (processTouchStart w t allow s)) = pinch s
  /\ pendingTap (snd (processTouchStart w t allow s)) = pendingTap s
  /\ tapIndexToWriteNextFrame (snd (processTouchStart w t allow s))
     = tapIndexToWriteNextFrame s
  /\ pendingFirstTouch (snd (processTouchStart w t allow s)) = pendingFirstTouch s
  /\ timers (snd (processTouchStart w t allow s)) = timers s
  /\ events (snd (processTouchStart w t allow s)) = events s.
Proof.
  intro E. rewrite (processTouchStart_assigned w t allow s E). now repeat split.
Qed.

(** C10: when touch-start resolution reaches the branch that assigns
    SecondPincher (neither of the two earlier conditions holds and no
    SecondPincher is assigned), FirstPincher or CameraMove is assigned, and the
    lookup the branch performs ([findByJob] of FirstPincher when it is
    assigned, of CameraMove otherwise) finds an entry with that job: it never
    works on an undefined one, and on a table that satisfies the invariant
    the whole method completes without throwing. *)
Theorem promotion_lookup_finds_an_assignment (w : World) (t : Touch) (allow : bool)
  (s : Device) :
  negb (jobIsAssigned FIRST_PINCHER_JOB (assignments s))
  && negb (jobIsAssigned MOVE_CURSOR_JOB (assignments s))
  && (allow || isCursorOverInteractable w t) = false ->
  negb (jobIsAssigned FIRST_PINCHER_JOB (assignments s))
  && negb (jobIsAssigned MOVE_CAMERA_JOB (assignments s)) = false ->
  jobIsAssigned SECOND_PINCHER_JOB (assignments s) = false ->
  jobIsAssigned FIRST_PINCHER_JOB (assignments s)
  || jobIsAssigned MOVE_CAMERA_JOB (assignments s) = true
  /\ (exists first,
        (if jobIsAssigned FIRST_PINCHER_JOB (assignments s)
         then findByJob FIRST_PINCHER_JOB (assignments s)
         else findByJob MOVE_CAMERA_JOB (assignments s)) = Some first
        /\ In first (assignments s)
        /\ job first = (if jobIsAssigned FIRST_PINCHER_JOB (assignments s)
                        then FIRST_PINCHER_JOB else MOVE_CAMERA_JOB))
  /\ (deviceInv s -> fst (processTouchStart w t allow s) = Normal tt).
Proof.
  intros _ C2 _. split; [|split].
  - destruct (jobIsAssigned FIRST_PINCHER_JOB (assignments s)); [reflexivity|].
    simpl in C2. now apply negb_false_iff in C2.
  - destruct (jobIsAssigned FIRST_PINCHER_JOB (assignments s)) eqn:Ef.
    + destruct (findByJob_assigned _ _ Ef) as [a Fa].
      exists a. destruct (findByJob_Some _ _ _ Fa). auto.
    + simpl in C2. apply negb_false_iff in C2.
      destruct (findByJob_assigned _ _ C2) as [a Fa].
      exists a. destruct (findByJob_Some _ _ _ Fa). auto.
  - intro I. now apply processTouchStart_inv.
Qed.

Lemma touchIsAssigned_same_id (t t' : Touch) l :
  identifier t = identifier t' -> touchIsAssigned t l = touchIsAssigned t' l.
Proof. intro E. unfold touchIsAssigned, sameTouch. now rewrite E. Qed.

Lemma not_sameTouch_of_absent (a b : Assignment) l :
  In b l -> touchIsAssigned (touch a) l = false ->
  (identifier (touch b) =? identifier (touch a)) = false.
Proof.
  intros Hb Na. apply Z.eqb_neq. intro E.
  rewrite (In_sameTouch _ _ _ Hb E) in Na. discriminate.
Qed.

Lemma endFirstTable_touch_gone (a : Assignment) l :
  wfTable l -> In a l -> job a = FIRST_PINCHER_JOB ->
  touchIsAssigned (touch a) (endFirstTable a l) = false.
Proof.
  intros W Hin Hj. unfold endFirstTable.
  pose proof (unassign_removed a _ (proj1 W) Hin) as Rm. rewrite Hj in Rm.
  set (l1 := unassign (touch a) FIRST_PINCHER_JOB l) in *.
  assert (W1 : wfTable l1) by exact (removed_wfTable _ _ _ W Rm).
  assert (T1 : touchIsAssigned (touch a) l1 = false) by exact (removed_touch _ _ _ W Rm).
  destruct (findByJob SECOND_PINCHER_JOB l) as [second|] eqn:Fs; [|exact T1].
  assert (Fs1 : findByJob SECOND_PINCHER_JOB l1 = Some second).
  { rewrite (findByJob_removed_other _ _ _ SECOND_PINCHER_JOB Rm) by congruence.
    exact Fs. }
  destruct (findByJob_Some _ _ _ Fs1) as [Hs1 Hjs].
  pose proof (unassign_removed second _ (proj1 W1) Hs1) as Rm2. rewrite Hjs in Rm2.
  rewrite touchIsAssigned_app, (removed_touch_absent _ _ _ _ Rm2 T1).
  simpl. rewrite orb_false_r. unfold sameTouch.
  destruct (jobIsAssigned MOVE_CAMERA_JOB l); simpl;
    exact (not_sameTouch_of_absent a second l1 Hs1 T1).
Qed.

Lemma endSecondTable_touch_gone (a : Assignment) l :
  wfTable l -> In a l -> job a = SECOND_PINCHER_JOB ->
  touchIsAssigned (touch a) (endSecondTable a l) = false.
Proof.
  intros W Hin Hj. unfold endSecondTable.
  pose proof (unassign_removed a _ (proj1 W) Hin) as Rm. rewrite Hj in Rm.
  set (l1 := unassign (touch a) SECOND_PINCHER_JOB l) in *.
  assert (W1 : wfTable l1) by exact (removed_wfTable _ _ _ W Rm).
  assert (T1 : touchIsAssigned (touch a) l1 = false) by exact (removed_touch _ _ _ W Rm).
  destruct (findByJob FIRST_PINCHER_JOB l) as [first|] eqn:Ff; [|exact T1].
  destruct (jobIsAssigned MOVE_CAMERA_JOB l); [exact T1|].
  assert (Ff1 : findByJob FIRST_PINCHER_JOB l1 = Some first).
  { rewrite (findByJob_removed_other _ _ _ FIRST_PINCHER_JOB Rm) by congruence.
    exact Ff. }
  destruct (findByJob_Some _ _ _ Ff1) as [Hf1 Hjf].
  pose proof (unassign_removed first _ (proj1 W1) Hf1) as Rm2. rewrite Hjf in Rm2.
  rewrite touchIsAssigned_app, (removed_touch_absent _ _ _ _ Rm2 T1).
  simpl. rewrite orb_false_r. unfold sameTouch. simpl.
  exact (not_sameTouch_of_absent a first l1 Hf1 T1).
Qed.

(** C4: when the touch that holds FirstPincher ends (and is not the buffered
    first touch), [end] returns with the pinch state all zeros and the table
    [endFirstTable]: the touch's entry is gone and a SecondPincher, if there
    was one, has become FirstPincher when a CameraMove was assigned before
    the lift, and CameraMove with delta [0, 0] otherwise, keeping its
    coordinates.  When the touch that holds SecondPincher ends, [end] returns
    with the pinch state all zeros and the table [endSecondTable]: the entry
    is gone, and a remaining FirstPincher has become CameraMove with delta
    [0, 0] and its coordinates when no CameraMove was assigned. *)
Theorem end_of_a_pincher (w : World) (t : Touch) (s : Device) (a : Assignment) :
  wfTable (assignments s) ->
  isPendingFirstTouch t s = false ->
  findByTouch t (assignments s) = Some a ->
  (job a = FIRST_PINCHER_JOB ->
   fst (end_ w t s) = Normal tt
   /\ pinch (snd (end_ w t s)) = zeroPinch
   /\ assignments (snd (end_ w t s)) = endFirstTable a (assignments s)
   /\ touchIsAssigned t (assignments (snd (end_ w t s))) = false)
  /\ (job a = SECOND_PINCHER_JOB ->
      fst (end_ w t s) = Normal tt
      /\ pinch (snd (end_ w t s)) = zeroPinch
      /\ assignments (snd (end_ w t s)) = endSecondTable a (assignments s)
      /\ touchIsAssigned t (assignments (snd (end_ w t s))) = false).
Proof.
  intros W Ep Ft. destruct (findByTouch_Some _ _ _ Ft) as [Hin Hid].
  split; intro Hj.
  - rewrite (end_first w t s a W Ep Ft Hj). cbn [fst snd].
    rewrite assignments_settlePendingTap. simpl.
    repeat split.
    + unfold settlePendingTap. simpl.
      destruct (endFirstTable a (assignments s)); [|reflexivity].
      destruct (withinTapWindow w (pendingTap s)); reflexivity.
    + rewrite <- (touchIsAssigned_same_id (touch a) t _ Hid).
      now apply endFirstTable_touch_gone.
  - rewrite (end_second w t s a W Ep Ft Hj). cbn [fst snd].
    rewrite assignments_settlePendingTap. simpl.
    repeat split.
    + unfold settlePendingTap. simpl.
      destruct (endSecondTable a (assignments s)); [|reflexivity].
      destruct (withinTapWindow w (pendingTap s)); reflexivity.
    + rewrite <- (touchIsAssigned_same_id (touch a) t _ Hid).
      now apply endSecondTable_touch_gone.
Qed.

(** * Defined fields

    An entry that moves the cursor has its pose, one that moves the camera
    has its delta: the properties the device dereferences are there. *)
Definition entryOk (a : Assignment) : Prop :=
  match job a with
  | MOVE_CURSOR_JOB => cursorPose a <> None
  | MOVE_CAMERA_JOB => delta a <> None
  | _ => True
  end.

Definition fieldsOk (l : list Assignment) : Prop := Forall entryOk l.

Definition deviceOk (s : Device) : Prop :=
  deviceInv s /\ fieldsOk (assignments s).

Definition keepsOk (s s' : Device) : Prop := deviceOk s -> deviceOk s'.

Lemma keepsOk_refl s : keepsOk s s.
Proof. now intro. Qed.

Lemma keepsOk_trans s1 s2 s3 : keepsOk s1 s2 -> keepsOk s2 s3 -> keepsOk s1 s3.
Proof. unfold keepsOk. auto. Qed.

Lemma entryOk_with_client x y a : entryOk a -> entryOk (with_client x y a).
Proof. unfold entryOk. simpl. trivial. Qed.

Lemma entryOk_with_isFirstFrame b a : entryOk a -> entryOk (with_isFirstFrame b a).
Proof. unfold entryOk. simpl. trivial. Qed.

Lemma entryOk_with_delta d a : entryOk a -> entryOk (with_delta (Some d) a).
Proof. unfold entryOk. simpl. destruct (job a); trivial. discriminate. Qed.

Lemma entryOk_with_cursorPose p a : entryOk a -> entryOk (with_cursorPose (Some p) a).
Proof. unfold entryOk. simpl. destruct (job a); trivial. discriminate. Qed.

Lemma entryOk_cursorEntry w t : entryOk (cursorEntry w t).
Proof. unfold entryOk. simpl. discriminate. Qed.

Lemma entryOk_cameraEntry t x y : entryOk (cameraEntry t x y).
Proof. unfold entryOk. simpl. discriminate. Qed.

Lemma entryOk_pincherEntry_first t x y : entryOk (pincherEntry FIRST_PINCHER_JOB t x y).
Proof. exact I. Qed.

Lemma entryOk_pincherEntry_second t x y : entryOk (pincherEntry SECOND_PINCHER_JOB t x y).
Proof. exact I. Qed.

Lemma fieldsOk_push l a : fieldsOk l -> entryOk a -> fieldsOk (l ++ [a]).
Proof. intros Hl Ha. apply Forall_app. split; [assumption | now constructor]. Qed.

Lemma fieldsOk_unassign t j l : fieldsOk l -> fieldsOk (unassign t j l).
Proof.
  induction 1 as [|a l Ha Hl IH]; simpl; [constructor|].
  destruct (sameTouch t a && hasJob j a); [assumption | now constructor].
Qed.

Lemma fieldsOk_updateFirst p f l :
  (forall a, entryOk a -> entryOk (f a)) -> fieldsOk l -> fieldsOk (updateFirst p f l).
Proof.
  intro F. induction 1 as [|a l Ha Hl IH]; simpl; [constructor|].
  destruct (p a); constructor; auto.
Qed.

Lemma fieldsOk_endFirstTable a l : fieldsOk l -> fieldsOk (endFirstTable a l).
Proof.
  intro F. unfold endFirstTable.
  destruct (findByJob SECOND_PINCHER_JOB l).
  - apply fieldsOk_push; [now repeat apply fieldsOk_unassign|].
    destruct (jobIsAssigned MOVE_CAMERA_JOB l);
      [apply entryOk_pincherEntry_first | apply entryOk_cameraEntry].
  - now apply fieldsOk_unassign.
Qed.

Lemma fieldsOk_endSecondTable a l : fieldsOk l -> fieldsOk (endSecondTable a l).
Proof.
  intro F. unfold endSecondTable.
  destruct (findByJob FIRST_PINCHER_JOB l); [|now apply fieldsOk_unassign].
  destruct (jobIsAssigned MOVE_CAMERA_JOB l); [now apply fieldsOk_unassign|].
  apply fieldsOk_push; [now repeat apply fieldsOk_unassign | apply entryOk_cameraEntry].
Qed.

Lemma processTouchStart_fields (w : World) t allow (s : Device) :
  wfTable (assignments s) -> fieldsOk (assignments s) ->
  fieldsOk (assignments (snd (processTouchStart w t allow s))).
Proof.
  intros W F.
  destruct (touchIsAssigned t (assignments s)) eqn:Et.
  { now rewrite processTouchStart_assigned by assumption. }
  destruct (negb (jobIsAssigned FIRST_PINCHER_JOB (assignments s))
            && negb (jobIsAssigned MOVE_CURSOR_JOB (assignments s))
            && (allow || isCursorOverInteractable w t)) eqn:C1.
  { rewrite processTouchStart_cursor by assumption. cbn [snd].
    rewrite assignments_notePendingTap. simpl.
    apply fieldsOk_push; [assumption | apply entryOk_cursorEntry]. }
  destruct (negb (jobIsAssigned FIRST_PINCHER_JOB (assignments s))
            && negb (jobIsAssigned MOVE_CAMERA_JOB (assignments s))) eqn:C2.
  { rewrite processTouchStart_camera by assumption. cbn [snd].
    rewrite assignments_notePendingTap. simpl.
    apply fieldsOk_push; [assumption | apply entryOk_cameraEntry]. }
  destruct (jobIsAssigned SECOND_PINCHER_JOB (assignments s)) eqn:Es.
  { rewrite processTouchStart_dropped by assumption. cbn [snd].
    now rewrite assignments_notePendingTap. }
  destruct (jobIsAssigned FIRST_PINCHER_JOB (assignments s)) eqn:Ef.
  { destruct (findByJob_assigned _ _ Ef) as [first Ff].
    rewrite (processTouchStart_second w t allow s first) by assumption. cbn [snd].
    rewrite assignments_notePendingTap. simpl.
    apply fieldsOk_push; [assumption | apply entryOk_pincherEntry_second]. }
  simpl in C1, C2. apply negb_false_iff in C2.
  destruct (findByJob_assigned _ _ C2) as [cm Fc].
  rewrite (processTouchStart_promote w t allow s cm) by assumption. cbn [snd].
  rewrite assignments_notePendingTap. simpl.
  apply fieldsOk_push; [|apply entryOk_pincherEntry_second].
  apply fieldsOk_push; [|apply entryOk_pincherEntry_first].
  now apply fieldsOk_unassign.
Qed.

Lemma processTouchStart_keepsOk (w : World) t allow :
  respects keepsOk (processTouchStart w t allow).
Proof.
  intros s [I F]. split.
  - now apply processTouchStart_keepsInv.
  - apply processTouchStart_fields; [apply I | exact F].
Qed.

Lemma sameTable_keepsOk (s s' : Device) : sameTable s s' -> keepsOk s s'.
Proof.
  intros E [I F]. unfold deviceOk, deviceInv in *. unfold sameTable in E.
  now rewrite E.
Qed.

Lemma processPendingFirstTouch_keepsOk (w : World) allow :
  respects keepsOk (processPendingFirstTouch w allow).
Proof.
  unfold processPendingFirstTouch.
  apply (respects_bind _ keepsOk_trans).
  - apply respects_gets, keepsOk_refl.
  - intro pending. apply (respects_bind _ keepsOk_trans).
    + apply respects_defined, keepsOk_refl.
    + intro p. apply processTouchStart_keepsOk.
Qed.

Lemma end_keepsOk (w : World) t : respects keepsOk (end_ w t).
Proof.
  intros s. destruct (isPendingFirstTouch t s) eqn:Ep.
  - rewrite (end_pending w t s Ep).
    apply (respects_bind _ keepsOk_trans).
    + apply processPendingFirstTouch_keepsOk.
    + intros _. apply (respects_weaken sameTable); [apply sameTable_keepsOk|].
      apply redispatch_sameTable.
  - intros [I F]. split; [now apply end_keepsInv|].
    destruct (touchIsAssigned t (assignments s)) eqn:Et.
    + destruct (findByTouch_assigned _ _ Et) as [a Ft].
      destruct (job a) eqn:Hj.
      * rewrite (end_single w t s a) by auto. cbn [snd].
        rewrite assignments_settlePendingTap. simpl. now apply fieldsOk_unassign.
      * rewrite (end_single w t s a) by auto. cbn [snd].
        rewrite assignments_settlePendingTap. simpl. now apply fieldsOk_unassign.
      * rewrite (end_first w t s a) by (try apply I; auto). cbn [snd].
        rewrite assignments_settlePendingTap. simpl. now apply fieldsOk_endFirstTable.
      * rewrite (end_second w t s a) by (try apply I; auto). cbn [snd].
        rewrite assignments_settlePendingTap. simpl. now apply fieldsOk_endSecondTable.
    + rewrite end_unassigned by assumption. cbn [snd].
      now rewrite assignments_settlePendingTap.
Qed.

Lemma start_keepsOk (w : World) t : respects keepsOk (start w t).
Proof.
  intros s [I F]. destruct (pendingFirstTouch s) as [p|] eqn:Ep.
  - destruct (touchIsAssigned p (assignments s)
              || jobIsAssigned FIRST_PINCHER_JOB (assignments s)) eqn:E.
    + rewrite (start_flush_throws w t s p Ep E). now split.
    + apply orb_false_iff in E. destruct E as [Et Ef].
      rewrite (start_flush w t s p Ep Et Ef).
      apply processTouchStart_keepsOk. unfold deviceOk, deviceInv.
      rewrite assignments_afterClearPendingFirstTouch. simpl. split.
      * apply tableInv_push; simpl; try assumption. discriminate.
      * apply fieldsOk_push; [assumption | apply entryOk_pincherEntry_first].
  - destruct (shouldDelayStartTouch w t) eqn:Ed.
    + rewrite (start_delay w t s Ep Ed). now split.
    + rewrite (start_immediate w t s Ep Ed). now apply processTouchStart_keepsOk.
Qed.

Ltac fields_leaf :=
  simpl; repeat (apply fieldsOk_updateFirst;
                 [auto using entryOk_with_client, entryOk_with_delta,
                    entryOk_with_cursorPose, entryOk_with_isFirstFrame|]);
  try assumption.

Lemma move_fields (w : World) t s :
  isPendingFirstTouch t s = false -> fieldsOk (assignments s) ->
  fieldsOk (assignments (snd (move w t s))).
Proof.
  intros Ep F. unfold move, bind, gets. rewrite Ep. simpl.
  unfold mutateFirst, modify, log, defined, ret, throw.
  split_cases; fields_leaf.
Qed.

Lemma move_keepsOk (w : World) t : respects keepsOk (move w t).
Proof.
  intros s. destruct (isPendingFirstTouch t s) eqn:Ep.
  - rewrite (move_pending w t s Ep).
    apply (respects_bind _ keepsOk_trans).
    + apply processPendingFirstTouch_keepsOk.
    + intros _. apply (respects_weaken sameTable); [apply sameTable_keepsOk|].
      apply redispatch_sameTable.
  - intros [I F]. split; [now apply move_keepsInv | now apply move_fields].
Qed.

Lemma process_keepsOk (w : World) event : respects keepsOk (process w event).
Proof.
  unfold process. destruct (type event);
    apply (respects_forEach _ keepsOk_refl keepsOk_trans); intro t.
  - apply start_keepsOk.
  - apply end_keepsOk.
  - apply move_keepsOk.
  - apply end_keepsOk.
Qed.

Lemma resetDeltas_keepsOk : respects keepsOk resetDeltas.
Proof.
  intros s [I F]. split.
  - now apply (sameKeys_keepsInv _ _ (resetDeltas_sameKeys s)).
  - unfold resetDeltas, bind, gets, modify, mutateFirst, defined, ret, throw. simpl.
    split_cases; fields_leaf.
Qed.

Lemma drain_keepsOk (w : World) : respects keepsOk (drain w).
Proof.
  unfold drain. apply (respects_bind _ keepsOk_trans).
  - apply respects_gets, keepsOk_refl.
  - intro queued. apply (respects_bind _ keepsOk_trans).
    + apply (respects_forEach _ keepsOk_refl keepsOk_trans). intro e.
      apply process_keepsOk.
    + intros _. intros s I. exact I.
Qed.

Lemma publish_keepsOk frame : respects keepsOk (publish frame).
Proof.
  intros s [I F]. split.
  - now apply (sameKeys_keepsInv _ _ (publish_sameKeys frame s)).
  - unfold publish, bind, gets, modify, mutateFirst, defined, ret, throw. simpl.
    split_cases; fields_leaf.
Qed.

Lemma write_keepsOk (w : World) frame : respects keepsOk (write w frame).
Proof.
  unfold write. apply (respects_bind _ keepsOk_trans).
  - apply resetDeltas_keepsOk.
  - intros _. apply (respects_bind _ keepsOk_trans).
    + apply drain_keepsOk.
    + intros _. apply publish_keepsOk.
Qed.

Lemma runTask_keepsOk (w : World) task : respects keepsOk (runTask w task).
Proof.
  destruct task; simpl.
  - apply (respects_bind _ keepsOk_trans).
    + apply processPendingFirstTouch_keepsOk.
    + intros _ s I. exact I.
  - apply end_keepsOk.
  - apply move_keepsOk.
Qed.

Lemma step_keepsOk op s : deviceOk s -> deviceOk (step op s).
Proof.
  intro I. destruct op as [event|w frame|w id]; simpl.
  - exact I.
  - now apply write_keepsOk.
  - destruct (find _ (timers s)) as [t|]; [|exact I].
    now apply runTask_keepsOk.
Qed.

Lemma reachable_deviceOk s : reachable s -> deviceOk s.
Proof.
  induction 1 as [|op s R IH].
  - split; [apply tableInv_nil | constructor].
  - now apply step_keepsOk.
Qed.

(** * The frame write, step by step *)

(** The device after the first lines of [write]. *)
Definition afterReset (s : Device) : Device :=
  set_assignments
    (match findByJob MOVE_CAMERA_JOB (assignments s) with
     | Some _ =>
         updateFirst (hasJob MOVE_CAMERA_JOB) (with_delta (Some (ofZ 0, ofZ 0)))
           (assignments s)
     | None => assignments s
     end)
    (set_pinch {| initialDistance := initialDistance (pinch s);
                  currentDistance := currentDistance (pinch s);
                  pinchDelta := ofZ 0 |} s).

(** What [write] puts into the frame once the events are drained. *)
Definition publishedFrame (frame : Frame) (s : Device) : Frame :=
  let l := assignments s in
  let frame :=
    if jobIsAssigned MOVE_CURSOR_JOB l || jobIsAssigned MOVE_CAMERA_JOB l
    then frame_set frame path_isTouching (VBool true) else frame in
  let frame :=
    match findByJob MOVE_CURSOR_JOB l with
    | Some assignment =>
        frame_set
          (frame_set frame path_cursorPose (ofOption VPose (cursorPose assignment)))
          path_isTouchingGrabbable
          (VBool (negb (match isFirstFrame assignment with
                        | Some b => b
                        | None => false
                        end)))
    | None => frame
    end in
  let frame :=
    match findByJob MOVE_CAMERA_JOB l with
    | Some cameraMover =>
        frame_set frame path_touchCameraDelta (ofOption VArray2 (delta cameraMover))
    | None => frame
    end in
  let frame := frame_set frame path_pinch_delta (VNumber (pinchDelta (pinch s))) in
  let frame :=
    frame_set frame path_pinch_initialDistance (VNumber (initialDistance (pinch s))) in
  let frame :=
    frame_set frame path_pinch_currentDistance (VNumber (currentDistance (pinch s))) in
  if negb (tapIndexToWriteNextFrame s =? 0) && tapPathDefined (tapIndexToWriteNextFrame s)
  then frame_set frame (path_tap (tapIndexToWriteNextFrame s)) (VBool true)
  else frame.

(** The device after [write] has published. *)
Definition afterPublish (s : Device) : Device :=
  set_tapIndexToWriteNextFrame 0
    (match findByJob MOVE_CURSOR_JOB (assignments s) with
     | Some _ =>
         set_assignments
           (updateFirst (hasJob MOVE_CURSOR_JOB) (with_isFirstFrame (Some false))
              (assignments s)) s
     | None => s
     end).

Lemma In_entryOk a l : fieldsOk l -> In a l -> entryOk a.
Proof. intros F Ha. unfold fieldsOk in F. rewrite Forall_forall in F. auto. Qed.

Lemma resetDeltas_eq s :
  fieldsOk (assignments s) -> resetDeltas s = (Normal tt, afterReset s).
Proof.
  intro F. unfold resetDeltas, afterReset, bind, gets, modify. simpl.
  destruct (findByJob MOVE_CAMERA_JOB (assignments s)) as [cm|] eqn:Fc; [|reflexivity].
  destruct (findByJob_Some _ _ _ Fc) as [Hin Hj].
  pose proof (In_entryOk _ _ F Hin) as Ok. unfold entryOk in Ok. rewrite Hj in Ok.
  destruct (delta cm); [reflexivity | congruence].
Qed.

Lemma findByJob_updateFirst_other j j' f l :
  keepsKeys f -> j <> j' ->
  findByJob j (updateFirst (hasJob j') f l) = findByJob j l.
Proof.
  intros K N. unfold findByJob. induction l as [|a l IH]; [reflexivity|].
  simpl. destruct (hasJob j' a) eqn:Ea.
  - simpl. unfold hasJob in *. rewrite (proj1 (K a)).
    apply Job_eqb_eq in Ea. rewrite Ea.
    now rewrite (Job_eqb_neq j' j) by congruence.
  - simpl. destruct (hasJob j a); [reflexivity | exact IH].
Qed.

Lemma jobIsAssigned_findByJob j l :
  jobIsAssigned j l = match findByJob j l with Some _ => true | None => false end.
Proof.
  destruct (findByJob j l) eqn:F.
  - destruct (findByJob_Some _ _ _ F) as [Hin Hj]. rewrite <- Hj.
    now apply In_jobIsAssigned.
  - now apply findByJob_None.
Qed.

Lemma publish_eq frame s :
  publish frame s = (Normal (publishedFrame frame s), afterPublish s).
Proof.
  unfold publish, publishedFrame, afterPublish.
  rewrite (jobIsAssigned_findByJob MOVE_CURSOR_JOB).
  rewrite (jobIsAssigned_findByJob MOVE_CAMERA_JOB).
  unfold bind, gets. simpl.
  rewrite (jobIsAssigned_findByJob MOVE_CURSOR_JOB).
  rewrite (jobIsAssigned_findByJob MOVE_CAMERA_JOB).
  destruct (findByJob MOVE_CURSOR_JOB (assignments s)) as [a|] eqn:Fa;
    destruct (findByJob MOVE_CAMERA_JOB (assignments s)) as [cm|] eqn:Fc;
    simpl; rewrite ?Fa; simpl;
    rewrite ?findByJob_updateFirst_other
      by (try apply keepsKeys_with_isFirstFrame; congruence);
    rewrite ?Fc; simpl; try reflexivity; destruct s; reflexivity.
Qed.

Lemma write_eq (w : World) frame s s1 :
  fieldsOk (assignments s) ->
  forEach (events s) (process w) (afterReset s) = (Normal tt, s1) ->
  write w frame s
  = (Normal (publishedFrame frame (set_events [] s1)), afterPublish (set_events [] s1)).
Proof.
  intros F D. unfold write, bind. rewrite (resetDeltas_eq s F).
  unfold drain, bind, gets. simpl. rewrite D. unfold modify.
  apply publish_eq.
Qed.

Lemma write_throws (w : World) frame s s1 e :
  fieldsOk (assignments s) ->
  forEach (events s) (process w) (afterReset s) = (Throw e, s1) ->
  write w frame s = (Throw e, s1).
Proof.
  intros F D. unfold write, bind. rewrite (resetDeltas_eq s F).
  unfold drain, bind, gets. simpl. now rewrite D.
Qed.

(** * Methods that cannot throw *)

Lemma isPendingFirstTouch_true t s :
  isPendingFirstTouch t s = true ->
  exists p, pendingFirstTouch s = Some p /\ identifier p = identifier t.
Proof.
  unfold isPendingFirstTouch. destruct (pendingFirstTouch s) as [p|]; [|discriminate].
  intro E. apply Z.eqb_eq in E. eauto.
Qed.

Lemma processPendingFirstTouch_normal (w : World) allow s p :
  deviceInv s -> pendingFirstTouch s = Some p ->
  processPendingFirstTouch w allow s = (Normal tt, snd (processTouchStart w p allow s)).
Proof.
  intros I Hp. unfold processPendingFirstTouch, bind, gets. rewrite Hp. simpl.
  destruct (processTouchStart_inv w p allow s I) as [_ E].
  destruct (processTouchStart w p allow s) as [c s']. simpl in *. now rewrite E.
Qed.

Lemma redispatch_normal (w : World) allow task s p :
  deviceInv s -> pendingFirstTouch s = Some p ->
  (processPendingFirstTouch w allow ;;
   clearPendingFirstTouch ;;
   _ <- setTimeout task 0 ;;
   ret tt) s
  = (Normal tt,
     snd (setTimeout task 0
            (afterClearPendingFirstTouch (snd (processTouchStart w p allow s))))).
Proof.
  intros I Hp. unfold bind at 1. rewrite (processPendingFirstTouch_normal w allow s p I Hp).
  unfold bind at 1. rewrite clearPendingFirstTouch_eq. reflexivity.
Qed.

Lemma move_normal (w : World) t s : deviceOk s -> fst (move w t s) = Normal tt.
Proof.
  intros [I F]. destruct (isPendingFirstTouch t s) eqn:Ep.
  - destruct (isPendingFirstTouch_true t s Ep) as [p [Hp _]].
    rewrite (move_pending w t s Ep). now rewrite (redispatch_normal w false _ s p I Hp).
  - unfold move, bind, gets. rewrite Ep. simpl.
    destruct (touchIsAssigned t (assignments s)) eqn:Et; simpl.
    2:{ destruct (notVirtualGamepadControl t); reflexivity. }
    destruct (findByTouch_assigned _ _ Et) as [a Ft]. rewrite Ft. simpl.
    destruct (findByTouch_Some _ _ _ Ft) as [Hin _].
    pose proof (In_entryOk _ _ F Hin) as Ok. unfold entryOk in Ok.
    assert (P : forall j,
               jobIsAssigned j
                 (updateFirst (sameTouch t)
                    (with_client (Some (clientX t)) (Some (clientY t))) (assignments s))
               = jobIsAssigned j (assignments s)).
    { intro j. apply jobIsAssigned_keys. apply jobsOf_updateFirst, keepsKeys_with_client. }
    destruct (job a) eqn:Hj.
    + destruct (cursorPose a); [reflexivity | congruence].
    + destruct (delta a); [reflexivity | congruence].
    + unfold mutateFirst, modify. simpl. rewrite !P.
      destruct (jobIsAssigned FIRST_PINCHER_JOB (assignments s)
                && jobIsAssigned SECOND_PINCHER_JOB (assignments s)) eqn:B; [|reflexivity].
      apply andb_prop in B. destruct B as [B1 B2]. rewrite <- P in B1, B2.
      destruct (findByJob_assigned _ _ B1) as [f Ff].
      destruct (findByJob_assigned _ _ B2) as [g Fg].
      simpl. rewrite Ff, Fg. reflexivity.
    + unfold mutateFirst, modify. simpl. rewrite !P.
      destruct (jobIsAssigned FIRST_PINCHER_JOB (assignments s)
                && jobIsAssigned SECOND_PINCHER_JOB (assignments s)) eqn:B; [|reflexivity].
      apply andb_prop in B. destruct B as [B1 B2]. rewrite <- P in B1, B2.
      destruct (findByJob_assigned _ _ B1) as [f Ff].
      destruct (findByJob_assigned _ _ B2) as [g Fg].
      simpl. rewrite Ff, Fg. reflexivity.
Qed.

Lemma end_normal (w : World) t s : deviceOk s -> fst (end_ w t s) = Normal tt.
Proof.
  intros [I F]. destruct (isPendingFirstTouch t s) eqn:Ep.
  - destruct (isPendingFirstTouch_true t s Ep) as [p [Hp _]].
    rewrite (end_pending w t s Ep). now rewrite (redispatch_normal w true _ s p I Hp).
  - destruct (touchIsAssigned t (assignments s)) eqn:Et.
    + destruct (findByTouch_assigned _ _ Et) as [a Ft].
      destruct (job a) eqn:Hj.
      * now rewrite (end_single w t s a) by auto.
      * now rewrite (end_single w t s a) by auto.
      * now rewrite (end_first w t s a) by (try apply I; auto).
      * now rewrite (end_second w t s a) by (try apply I; auto).
    + now rewrite end_unassigned by assumption.
Qed.

(** * A pinch in progress *)



(** The pinch state a move of a pincher leaves, [first] and [second] being
    the pincher entries after the touch's coordinates are stored. *)
Definition movedPinch (p : Pinch) (first second : Assignment) : Pinch :=
  let currentDistance' :=
    distance (toNumber (a_clientX first)) (toNumber (a_clientY first))
             (toNumber (a_clientX second)) (toNumber (a_clientY second)) in
  {| initialDistance := initialDistance p;
     currentDistance := currentDistance';
     pinchDelta := jadd (pinchDelta p) (jsub currentDistance' (currentDistance p)) |}.

Lemma pinch_notePendingTap (w : World) s : pinch (notePendingTap w s) = pinch s.
Proof.
  unfold notePendingTap.
  destruct ((maxTouchCount (pendingTap s) =? 0) && (0 <? Z.of_nat (length (assignments s))));
    reflexivity.
Qed.

Lemma pinch_afterClearPendingFirstTouch s : pinch (afterClearPendingFirstTouch s) = pinch s.
Proof. unfold afterClearPendingFirstTouch. destruct (firstTouchTimeout s); reflexivity. Qed.

Lemma assignments_setTimeout task d s :
  assignments (snd (setTimeout task d s)) = assignments s.
Proof. reflexivity. Qed.

Lemma pinch_setTimeout task d s : pinch (snd (setTimeout task d s)) = pinch s.
Proof. reflexivity. Qed.


(** A move of the touch that holds a pincher stores the coordinates and,
    when both pinchers are assigned, accumulates the change of distance. *)
Lemma move_pincher (w : World) t s a first second :
  isPendingFirstTouch t s = false ->
  findByTouch t (assignments s) = Some a ->
  job a = FIRST_PINCHER_JOB \/ job a = SECOND_PINCHER_JOB ->
  findByJob FIRST_PINCHER_JOB
    (updateFirst (sameTouch t) (with_client (Some (clientX t)) (Some (clientY t)))
       (assignments s)) = Some first ->
  findByJob SECOND_PINCHER_JOB
    (updateFirst (sameTouch t) (with_client (Some (clientX t)) (Some (clientY t)))
       (assignments s)) = Some second ->
  move w t s
  = (Normal tt,
     set_pinch (movedPinch (pinch s) first second)
       (set_assignments
          (updateFirst (sameTouch t) (with_client (Some (clientX t)) (Some (clientY t)))
             (assignments s)) s)).
Proof.
  intros Ep Ft Hj Ff Fs. unfold move, bind, gets. rewrite Ep. simpl.
  rewrite (findByTouch_touchIsAssigned _ _ _ Ft). simpl. rewrite Ft. simpl.
  assert (B : jobIsAssigned FIRST_PINCHER_JOB
                (updateFirst (sameTouch t)
                   (with_client (Some (clientX t)) (Some (clientY t))) (assignments s))
              && jobIsAssigned SECOND_PINCHER_JOB
                   (updateFirst (sameTouch t)
                      (with_client (Some (clientX t)) (Some (clientY t))) (assignments s))
              = true).
  { rewrite !jobIsAssigned_findByJob, Ff, Fs. reflexivity. }
  destruct Hj as [Hj|Hj]; rewrite Hj; unfold mutateFirst, modify; simpl;
    rewrite B; simpl; rewrite Ff, Fs; reflexivity.
Qed.

Section Exact.

Context {exact : ExactNumber num}.






Lemma pinch_afterPublish s : pinch (afterPublish s) = pinch s.
Proof.
  unfold afterPublish. destruct (findByJob MOVE_CURSOR_JOB (assignments s)); reflexivity.
Qed.

Lemma publishedFrame_pinch_delta frame s :
  publishedFrame frame s path_pinch_delta = Some (VNumber (pinchDelta (pinch s))).
Proof.
  unfold publishedFrame.
  destruct (negb (tapIndexToWriteNextFrame s =? 0)
            && tapPathDefined (tapIndexToWriteNextFrame s)); reflexivity.
Qed.



End Exact.

(** * Taps *)

(** The scheduled tap index stays as it is. *)
Definition sameTapIndex (s s' : Device) : Prop :=
  tapIndexToWriteNextFrame s' = tapIndexToWriteNextFrame s.

Lemma sameTapIndex_refl s : sameTapIndex s s.
Proof. reflexivity. Qed.

Lemma sameTapIndex_trans s1 s2 s3 :
  sameTapIndex s1 s2 -> sameTapIndex s2 s3 -> sameTapIndex s1 s3.
Proof. unfold sameTapIndex. congruence. Qed.

Lemma tapIndex_notePendingTap (w : World) s :
  tapIndexToWriteNextFrame (notePendingTap w s) = tapIndexToWriteNextFrame s.
Proof.
  unfold notePendingTap.
  destruct ((maxTouchCount (pendingTap s) =? 0) && (0 <? Z.of_nat (length (assignments s))));
    reflexivity.
Qed.

Ltac monad_leaves :=
  unfold this_assign, this_unassign, mutateLast, mutateFirst, modify, log, defined, ret,
    throw, setTimeout, clearTimeout;
  simpl.

Lemma processTouchStart_sameTapIndex (w : World) t allow :
  respects sameTapIndex (processTouchStart w t allow).
Proof.
  intro s. unfold sameTapIndex, processTouchStart, bind, gets. simpl. monad_leaves.
  split_cases; rewrite ?tapIndex_notePendingTap; reflexivity.
Qed.

Lemma processPendingFirstTouch_sameTapIndex (w : World) allow :
  respects sameTapIndex (processPendingFirstTouch w allow).
Proof.
  unfold processPendingFirstTouch.
  apply (respects_bind _ sameTapIndex_trans).
  - apply respects_gets, sameTapIndex_refl.
  - intro pending. apply (respects_bind _ sameTapIndex_trans).
    + apply respects_defined, sameTapIndex_refl.
    + intro p. apply processTouchStart_sameTapIndex.
Qed.

Lemma redispatch_sameTapIndex (task : Task) :
  respects sameTapIndex (clearPendingFirstTouch ;; _ <- setTimeout task 0 ;; ret tt).
Proof.
  intro s. unfold sameTapIndex, bind. rewrite clearPendingFirstTouch_eq. simpl.
  unfold afterClearPendingFirstTouch. destruct (firstTouchTimeout s); reflexivity.
Qed.

Lemma start_sameTapIndex (w : World) t : respects sameTapIndex (start w t).
Proof.
  intro s. unfold start. unfold bind at 1. unfold gets at 1.
  destruct (pendingFirstTouch s) as [p|] eqn:Ep.
  - unfold bind at 1. unfold bind at 1. unfold this_assign at 1.
    destruct (fst (assign p FIRST_PINCHER_JOB (assignments s))) eqn:A.
    + unfold bind at 1. unfold defined at 1. unfold ret at 1.
      unfold bind at 1. unfold mutateLast at 1. unfold modify at 1.
      unfold bind at 1. rewrite clearPendingFirstTouch_eq.
      unfold ret at 1.
      eapply sameTapIndex_trans; [|apply processTouchStart_sameTapIndex].
      unfold sameTapIndex, afterClearPendingFirstTouch. simpl.
      destruct (firstTouchTimeout s); reflexivity.
    + reflexivity.
  - unfold bind at 1. unfold ret at 1. destruct (shouldDelayStartTouch w t).
    + reflexivity.
    + apply processTouchStart_sameTapIndex.
Qed.

Lemma move_sameTapIndex (w : World) t : respects sameTapIndex (move w t).
Proof.
  intro s. destruct (isPendingFirstTouch t s) eqn:Ep.
  - rewrite (move_pending w t s Ep).
    apply (respects_bind _ sameTapIndex_trans).
    + apply processPendingFirstTouch_sameTapIndex.
    + intros _. apply redispatch_sameTapIndex.
  - unfold sameTapIndex, move, bind, gets. rewrite Ep. simpl. monad_leaves.
    split_cases; reflexivity.
Qed.

(** An [end] of a touch that is not the buffered one does its job-specific
    work on the table and the pinch state, and then settles the pending
    tap. *)
Lemma end_settles (w : World) t s :
  deviceOk s -> isPendingFirstTouch t s = false ->
  exists s0,
    end_ w t s = (Normal tt, settlePendingTap w s0)
    /\ pendingTap s0 = pendingTap s
    /\ tapIndexToWriteNextFrame s0 = tapIndexToWriteNextFrame s.
Proof.
  intros [I F] Ep. destruct (touchIsAssigned t (assignments s)) eqn:Et.
  - destruct (findByTouch_assigned _ _ Et) as [a Ft].
    destruct (job a) eqn:Hj.
    + eexists. rewrite (end_single w t s a) by auto. now repeat split.
    + eexists. rewrite (end_single w t s a) by auto. now repeat split.
    + eexists. rewrite (end_first w t s a) by (try apply I; auto). now repeat split.
    + eexists. rewrite (end_second w t s a) by (try apply I; auto). now repeat split.
  - eexists. rewrite end_unassigned by assumption. now repeat split.
Qed.

Lemma settlePendingTap_emptied (w : World) s0 :
  assignments (settlePendingTap w s0) = [] ->
  withinTapWindow w (pendingTap s0) = true ->
  tapIndexToWriteNextFrame (settlePendingTap w s0) = maxTouchCount (pendingTap s0)
  /\ pendingTap (settlePendingTap w s0) = {| maxTouchCount := 0; startedAt := None |}.
Proof.
  intros E W. rewrite assignments_settlePendingTap in E.
  unfold settlePendingTap. rewrite E, W. now split.
Qed.

Lemma settlePendingTap_tapIndex (w : World) s0 :
  tapIndexToWriteNextFrame (settlePendingTap w s0) <> tapIndexToWriteNextFrame s0 ->
  assignments s0 = [] /\ withinTapWindow w (pendingTap s0) = true.
Proof.
  unfold settlePendingTap. destruct (assignments s0); [|congruence].
  destruct (withinTapWindow w (pendingTap s0)); simpl; [now split | congruence].
Qed.

Lemma publishedFrame_tap frame s :
  tapIndexToWriteNextFrame s <> 0 ->
  tapPathDefined (tapIndexToWriteNextFrame s) = true ->
  publishedFrame frame s (path_tap (tapIndexToWriteNextFrame s)) = Some (VBool true).
Proof.
  intros N D. unfold publishedFrame. rewrite D.
  apply Z.eqb_neq in N. rewrite N. simpl. unfold frame_set. simpl.
  now rewrite Z.eqb_refl.
Qed.

Lemma publishedFrame_other_tap frame s k :
  k <> tapIndexToWriteNextFrame s \/ tapIndexToWriteNextFrame s = 0
  \/ tapPathDefined (tapIndexToWriteNextFrame s) = false ->
  publishedFrame frame s (path_tap k) = frame (path_tap k).
Proof.
  intro C. unfold publishedFrame.
  assert (X : forall f : Frame,
             (if negb (tapIndexToWriteNextFrame s =? 0)
                 && tapPathDefined (tapIndexToWriteNextFrame s)
              then frame_set f (path_tap (tapIndexToWriteNextFrame s)) (VBool true)
              else f) (path_tap k) = f (path_tap k)).
  { intro f.
    destruct (negb (tapIndexToWriteNextFrame s =? 0)
              && tapPathDefined (tapIndexToWriteNextFrame s)) eqn:B; [|reflexivity].
    apply andb_prop in B. destruct B as [B1 B2]. apply negb_true_iff, Z.eqb_neq in B1.
    destruct C as [C|[C|C]]; try congruence.
    unfold frame_set. simpl. apply Z.eqb_neq in C. now rewrite C. }
  rewrite X. unfold frame_set. simpl.
  destruct (findByJob MOVE_CAMERA_JOB (assignments s));
    destruct (findByJob MOVE_CURSOR_JOB (assignments s));
    destruct (jobIsAssigned MOVE_CURSOR_JOB (assignments s)
              || jobIsAssigned MOVE_CAMERA_JOB (assignments s)); reflexivity.
Qed.

Lemma tapIndex_afterPublish s : tapIndexToWriteNextFrame (afterPublish s) = 0.
Proof. reflexivity. Qed.

Lemma fieldsOk_afterPublish s : fieldsOk (assignments s) -> fieldsOk (assignments (afterPublish s)).
Proof.
  intro F. unfold afterPublish.
  destruct (findByJob MOVE_CURSOR_JOB (assignments s)); simpl; [|assumption].
  apply fieldsOk_updateFirst; [|assumption]. intros x Hx.
  now apply entryOk_with_isFirstFrame.
Qed.

Lemma fieldsOk_afterReset s : fieldsOk (assignments s) -> fieldsOk (assignments (afterReset s)).
Proof.
  intro F. unfold afterReset.
  destruct (findByJob MOVE_CAMERA_JOB (assignments s)); simpl; [|assumption].
  apply fieldsOk_updateFirst; [|assumption]. intros x Hx.
  now apply entryOk_with_delta.
Qed.

(** A write that finds no queued event. *)
Lemma write_nothing_queued (w : World) frame s :
  fieldsOk (assignments s) -> events s = [] ->
  write w frame s
  = (Normal (publishedFrame frame (set_events [] (afterReset s))),
     afterPublish (set_events [] (afterReset s))).
Proof.
  intros F E. apply write_eq; [assumption|]. now rewrite E.
Qed.

(** C7, as amended: a touch-end (of a touch that is not the buffered one)
    that empties the table while the pending tap counts N > 0 touches and is
    at most 125 ms old schedules N and resets the pending tap.  A frame
    write that completes publishes [true] at the tap path of the index that
    is scheduled when its drain ends, if the paths table defines it, touches
    no other tap path, and resets the index; [start] and [move] never change
    the index and [end] only does when it empties the table within the
    window.  So with nothing else queued the write that follows publishes
    the flag for N, and the one after it publishes no tap flag. *)
Theorem tap_scheduled_then_published_once (w : World) (t : Touch) (s : Device) :
  deviceOk s ->
  isPendingFirstTouch t s = false ->
  assignments (snd (end_ w t s)) = [] ->
  withinTapWindow w (pendingTap s) = true ->
  (fst (end_ w t s) = Normal tt
   /\ tapIndexToWriteNextFrame (snd (end_ w t s)) = maxTouchCount (pendingTap s)
   /\ 0 < maxTouchCount (pendingTap s)
   /\ pendingTap (snd (end_ w t s)) = {| maxTouchCount := 0; startedAt := None |})
  /\ (forall (w' : World) (frame : Frame) (s2 s3 : Device),
         fieldsOk (assignments s2) ->
         forEach (events s2) (process w') (afterReset s2) = (Normal tt, s3) ->
         exists frame' s4,
           write w' frame s2 = (Normal frame', s4)
           /\ tapIndexToWriteNextFrame s4 = 0
           /\ (tapIndexToWriteNextFrame s3 <> 0 ->
               tapPathDefined (tapIndexToWriteNextFrame s3) = true ->
               frame' (path_tap (tapIndexToWriteNextFrame s3)) = Some (VBool true))
           /\ (forall k, k <> tapIndexToWriteNextFrame s3 ->
                         frame' (path_tap k) = frame (path_tap k))
           /\ (tapIndexToWriteNextFrame s3 = 0 ->
               forall k, frame' (path_tap k) = frame (path_tap k)))
  /\ (forall (w' : World) (t' : Touch) (s2 : Device),
         tapIndexToWriteNextFrame (snd (start w' t' s2)) = tapIndexToWriteNextFrame s2
         /\ tapIndexToWriteNextFrame (snd (move w' t' s2)) = tapIndexToWriteNextFrame s2
         /\ (deviceOk s2 -> isPendingFirstTouch t' s2 = false ->
             tapIndexToWriteNextFrame (snd (end_ w' t' s2)) <> tapIndexToWriteNextFrame s2 ->
             assignments (snd (end_ w' t' s2)) = []
             /\ withinTapWindow w' (pendingTap s2) = true))
  /\ (forall (w1 w2 : World) (frame1 frame2 : Frame) (s2 : Device),
         fieldsOk (assignments s2) -> events s2 = [] ->
         tapIndexToWriteNextFrame s2 = maxTouchCount (pendingTap s) ->
         tapPathDefined (maxTouchCount (pendingTap s)) = true ->
         exists frame1' s3 frame2' s4,
           write w1 frame1 s2 = (Normal frame1', s3)
           /\ frame1' (path_tap (maxTouchCount (pendingTap s))) = Some (VBool true)
           /\ write w2 frame2 s3 = (Normal frame2', s4)
           /\ forall k, frame2' (path_tap k) = frame2 (path_tap k)).
Proof.
  intros Ok Ep Empty Win.
  assert (Pos : 0 < maxTouchCount (pendingTap s)).
  { unfold withinTapWindow in Win. apply andb_prop in Win. destruct Win as [P _].
    now apply Z.ltb_lt in P. }
  split; [|split; [|split]].
  - destruct (end_settles w t s Ok Ep) as [s0 [E [Hp Ht]]].
    rewrite E in *. cbn [fst snd] in *. rewrite <- Hp in *.
    destruct (settlePendingTap_emptied w s0 Empty Win) as [A B]. auto.
  - intros w' frame s2 s3 F D.
    exists (publishedFrame frame (set_events [] s3)), (afterPublish (set_events [] s3)).
    split; [exact (write_eq w' frame s2 s3 F D)|].
    split; [reflexivity|]. split; [|split].
    + intros N Df. exact (publishedFrame_tap frame (set_events [] s3) N Df).
    + intros k N. apply publishedFrame_other_tap. now left.
    + intros Z k. apply publishedFrame_other_tap. right. now left.
  - intros w' t' s2. split; [apply start_sameTapIndex|].
    split; [apply move_sameTapIndex|].
    intros Ok2 Ep2 N.
    destruct (end_settles w' t' s2 Ok2 Ep2) as [s0 [E [Hp Ht]]].
    rewrite E in *. cbn [snd] in *. rewrite <- Ht in N.
    destruct (settlePendingTap_tapIndex w' s0 N) as [A B].
    rewrite assignments_settlePendingTap. rewrite <- Hp. now split.
  - intros w1 w2 frame1 frame2 s2 F E Hn Df.
    exists (publishedFrame frame1 (set_events [] (afterReset s2))),
           (afterPublish (set_events [] (afterReset s2))),
           (publishedFrame frame2
              (set_events [] (afterReset (afterPublish (set_events [] (afterReset s2)))))),
           (afterPublish
              (set_events [] (afterReset (afterPublish (set_events [] (afterReset s2)))))).
    split; [exact (write_nothing_queued w1 frame1 s2 F E)|].
    split.
    + rewrite <- Hn.
      apply (publishedFrame_tap frame1 (set_events [] (afterReset s2))).
      * simpl. lia.
      * simpl. now rewrite Hn.
    + split.
      * apply write_nothing_queued.
        -- apply fieldsOk_afterPublish. simpl. now apply fieldsOk_afterReset.
        -- unfold afterPublish.
           destruct (findByJob MOVE_CURSOR_JOB (assignments (set_events [] (afterReset s2))));
             reflexivity.
      * intro k. apply publishedFrame_other_tap. right. now left.
Qed.

(** * The first touch *)

Lemma publishedFrame_grabbable frame s a :
  findByJob MOVE_CURSOR_JOB (assignments s) = Some a ->
  publishedFrame frame s path_isTouchingGrabbable
  = Some (VBool (negb (match isFirstFrame a with Some b => b | None => false end))).
Proof.
  intro Fa. unfold publishedFrame. rewrite Fa.
  destruct (negb (tapIndexToWriteNextFrame s =? 0)
            && tapPathDefined (tapIndexToWriteNextFrame s));
    destruct (findByJob MOVE_CAMERA_JOB (assignments s)); reflexivity.
Qed.

Lemma publishedFrame_not_grabbable frame s :
  findByJob MOVE_CURSOR_JOB (assignments s) = None ->
  publishedFrame frame s path_isTouchingGrabbable = frame path_isTouchingGrabbable.
Proof.
  intro Fa. unfold publishedFrame. rewrite Fa.
  destruct (negb (tapIndexToWriteNextFrame s =? 0)
            && tapPathDefined (tapIndexToWriteNextFrame s));
    destruct (findByJob MOVE_CAMERA_JOB (assignments s));
    destruct (jobIsAssigned MOVE_CURSOR_JOB (assignments s)
              || jobIsAssigned MOVE_CAMERA_JOB (assignments s)); reflexivity.
Qed.

(** Two writes in a row, nothing queued, while only the cursor entry that a
    touch-start has just created is in the table: the first publishes
    [isTouchingGrabbable = false], the second [true]. *)
Lemma hover_then_grab (w : World) (t : Touch) (s : Device) :
  assignments s = [cursorEntry w t] -> events s = [] ->
  forall (w1 w2 : World) (frame1 frame2 : Frame),
  exists frame1' s1 frame2' s2,
    write w1 frame1 s = (Normal frame1', s1)
    /\ frame1' path_isTouchingGrabbable = Some (VBool false)
    /\ write w2 frame2 s1 = (Normal frame2', s2)
    /\ frame2' path_isTouchingGrabbable = Some (VBool true).
Proof.
  intros Ea Ee w1 w2 frame1 frame2.
  assert (F : fieldsOk (assignments s)).
  { rewrite Ea. repeat constructor. apply entryOk_cursorEntry. }
  assert (A0 : assignments (set_events [] (afterReset s)) = [cursorEntry w t]).
  { unfold afterReset. now rewrite Ea. }
  remember (afterPublish (set_events [] (afterReset s))) as s1 eqn:S1.
  assert (A1 : assignments s1 = [with_isFirstFrame (Some false) (cursorEntry w t)]).
  { rewrite S1. unfold afterPublish. now rewrite A0. }
  assert (F1 : fieldsOk (assignments s1)).
  { rewrite A1. repeat constructor. apply entryOk_with_isFirstFrame, entryOk_cursorEntry. }
  assert (E1 : events s1 = []).
  { rewrite S1. unfold afterPublish. now rewrite A0. }
  exists (publishedFrame frame1 (set_events [] (afterReset s))), s1,
         (publishedFrame frame2 (set_events [] (afterReset s1))),
         (afterPublish (set_events [] (afterReset s1))).
  split; [rewrite S1; exact (write_nothing_queued w1 frame1 s F Ee)|].
  split.
  { rewrite (publishedFrame_grabbable frame1 _ (cursorEntry w t)); [reflexivity|].
    now rewrite A0. }
  split; [exact (write_nothing_queued w2 frame2 s1 F1 E1)|].
  rewrite (publishedFrame_grabbable frame2 _
             (with_isFirstFrame (Some false) (cursorEntry w t))); [reflexivity|].
  unfold afterReset. simpl. now rewrite A1.
Qed.

Lemma events_notePendingTap (w : World) s : events (notePendingTap w s) = events s.
Proof.
  unfold notePendingTap.
  destruct ((maxTouchCount (pendingTap s) =? 0) && (0 <? Z.of_nat (length (assignments s))));
    reflexivity.
Qed.

Lemma assignments_afterReset_nil s : assignments s = [] -> assignments (afterReset s) = [].
Proof. intro E. unfold afterReset. now rewrite E. Qed.

Lemma assignments_afterPublish_nil s :
  assignments s = [] -> afterPublish s = set_tapIndexToWriteNextFrame 0 s.
Proof. intro E. unfold afterPublish. now rewrite E. Qed.

(** The drain of one touch-start of a touch that is not delayed and is over
    an interactable, in an empty table. *)
Lemma drain_first_touch_immediate (w : World) (t : Touch) (ts : list Touch) (s0 : Device) :
  assignments s0 = [] ->
  pendingFirstTouch s0 = None ->
  events s0 = [{| type := touchstart; changedTouches := [t]; touches := ts |}] ->
  isCursorOverInteractable w t = true ->
  shouldDelayStartTouch w t = false ->
  forEach (events s0) (process w) s0
  = (Normal tt, notePendingTap w (set_assignments [cursorEntry w t] s0)).
Proof.
  intros Ea Ep Ee Hi Hd. rewrite Ee.
  change (forEach [{| type := touchstart; changedTouches := [t]; touches := ts |}]
            (process w) s0)
    with (bind (bind (start w t) (fun _ => ret tt)) (fun _ => ret tt) s0).
  unfold bind. rewrite (start_immediate w t s0 Ep Hd).
  rewrite processTouchStart_cursor.
  - rewrite Ea. reflexivity.
  - now rewrite Ea.
  - rewrite Ea. exact Hi.
Qed.

(** The drain of one touch-start of a touch that is delayed. *)
Lemma drain_first_touch_delayed (w : World) (t : Touch) (ts : list Touch) (s0 : Device) :
  pendingFirstTouch s0 = None ->
  events s0 = [{| type := touchstart; changedTouches := [t]; touches := ts |}] ->
  shouldDelayStartTouch w t = true ->
  forEach (events s0) (process w) s0 = (Normal tt, afterDelay t s0).
Proof.
  intros Ep Ee Hd. rewrite Ee.
  change (forEach [{| type := touchstart; changedTouches := [t]; touches := ts |}]
            (process w) s0)
    with (bind (bind (start w t) (fun _ => ret tt)) (fun _ => ret tt) s0).
  unfold bind. now rewrite (start_delay w t s0 Ep Hd).
Qed.

(** The 150 ms timer fires while its touch is still buffered and over an
    interactable, the table being empty. *)
Lemma fire_resolves_to_cursor (w : World) (t : Touch) (s1 : Device) (id : nat) :
  assignments s1 = [] ->
  pendingFirstTouch s1 = Some t ->
  timers s1 = [{| timerId := id; timerDelay := 150;
                  timerTask := TaskResolvePendingFirstTouch |}] ->
  isCursorOverInteractable w t = true ->
  step (Fire w id) s1
  = set_pendingFirstTouch None
      (notePendingTap w
         (set_assignments [cursorEntry w t] (set_timers [] (nextTimerId s1) s1))).
Proof.
  intros Ea Ep Et Hi. unfold step. rewrite Et.
  change (find (fun t0 : Timer => Nat.eqb (timerId t0) id)
            [{| timerId := id; timerDelay := 150;
                timerTask := TaskResolvePendingFirstTouch |}])
    with (if Nat.eqb id id
          then Some {| timerId := id; timerDelay := 150;
                       timerTask := TaskResolvePendingFirstTouch |}
          else None).
  change (filter (fun t0 : Timer => negb (Nat.eqb (timerId t0) id))
            [{| timerId := id; timerDelay := 150;
                timerTask := TaskResolvePendingFirstTouch |}])
    with (if negb (Nat.eqb id id)
          then [{| timerId := id; timerDelay := 150;
                   timerTask := TaskResolvePendingFirstTouch |}]
          else []).
  rewrite Nat.eqb_refl. cbn [negb timerTask runTask].
  set (s2 := set_timers [] (nextTimerId s1) s1).
  assert (Ea2 : assignments s2 = []) by exact Ea.
  assert (Ep2 : pendingFirstTouch s2 = Some t) by exact Ep.
  clearbody s2.
  unfold bind, processPendingFirstTouch, bind, gets. rewrite Ep2.
  cbn [defined ret]. rewrite processTouchStart_cursor.
  - rewrite Ea2. reflexivity.
  - now rewrite Ea2.
  - rewrite Ea2. exact Hi.
Qed.

(** C9, as amended: a single first touch over an interactable, in a device
    with no assignment, nothing buffered and no timer.  If the hit-test
    reports a UI surface the touch is not delayed: the write that drains its
    touch-start resolves it to CursorMove with [isFirstFrame = true] and
    publishes [isTouchingGrabbable = false], and the next write publishes
    [true].  If it reports no UI surface, interactable or not, the touch is
    buffered: after the write the table is still empty, nothing is published
    about grabbing, the touch is pending and a 150 ms timer is registered;
    when that timer fires with the touch over an interactable the touch
    becomes CursorMove with [isFirstFrame = true], the next write publishes
    [isTouchingGrabbable = false] and the one after it [true]. *)
Theorem first_touch_over_an_interactable
  (w : World) (t : Touch) (ts : list Touch) (frame : Frame) (s : Device) :
  assignments s = [] ->
  pendingFirstTouch s = None ->
  timers s = [] ->
  events s = [{| type := touchstart; changedTouches := [t]; touches := ts |}] ->
  isCursorOverInteractable w t = true ->
  (shouldDelayStartTouch w t = false ->
   exists frame1 s1,
     write w frame s = (Normal frame1, s1)
     /\ assignments (snd (forEach (events s) (process w) (afterReset s))) = [cursorEntry w t]
     /\ isFirstFrame (cursorEntry w t) = Some true
     /\ job (cursorEntry w t) = MOVE_CURSOR_JOB
     /\ frame1 path_isTouchingGrabbable = Some (VBool false)
     /\ forall (w2 : World) (frame2 : Frame),
          exists frame2' s2,
            write w2 frame2 s1 = (Normal frame2', s2)
            /\ frame2' path_isTouchingGrabbable = Some (VBool true))
  /\ (shouldDelayStartTouch w t = true ->
      exists frame1 s1,
        write w frame s = (Normal frame1, s1)
        /\ assignments s1 = []
        /\ pendingFirstTouch s1 = Some t
        /\ frame1 path_isTouchingGrabbable = frame path_isTouchingGrabbable
        /\ timers s1 = [{| timerId := nextTimerId s; timerDelay := 150;
                           timerTask := TaskResolvePendingFirstTouch |}]
        /\ forall (w3 : World),
             isCursorOverInteractable w3 t = true ->
             assignments (step (Fire w3 (nextTimerId s)) s1) = [cursorEntry w3 t]
             /\ pendingFirstTouch (step (Fire w3 (nextTimerId s)) s1) = None
             /\ forall (w4 w5 : World) (frame4 frame5 : Frame),
                  exists frame4' s4 frame5' s5,
                    write w4 frame4 (step (Fire w3 (nextTimerId s)) s1)
                    = (Normal frame4', s4)
                    /\ frame4' path_isTouchingGrabbable = Some (VBool false)
                    /\ write w5 frame5 s4 = (Normal frame5', s5)
                    /\ frame5' path_isTouchingGrabbable = Some (VBool true)).
Proof.
  intros Ea Ep Et Ee Hi.
  assert (F : fieldsOk (assignments s)) by (rewrite Ea; constructor).
  pose proof (assignments_afterReset_nil s Ea) as A0.
  assert (P0 : pendingFirstTouch (afterReset s) = None) by exact Ep.
  assert (E0 : events (afterReset s)
               = [{| type := touchstart; changedTouches := [t]; touches := ts |}])
    by exact Ee.
  split; intro Hd.
  - pose proof (drain_first_touch_immediate w t ts (afterReset s) A0 P0 E0 Hi Hd) as D.
    change (events (afterReset s)) with (events s) in D.
    remember (notePendingTap w (set_assignments [cursorEntry w t] (afterReset s)))
      as s0 eqn:S0.
    assert (As0 : assignments s0 = [cursorEntry w t])
      by (rewrite S0; now rewrite assignments_notePendingTap).
    assert (As0' : assignments (set_events [] s0) = [cursorEntry w t]) by exact As0.
    assert (Ee0 : events (set_events [] s0) = []) by reflexivity.
    exists (publishedFrame frame (set_events [] s0)), (afterPublish (set_events [] s0)).
    split; [exact (write_eq w frame s s0 F D)|].
    split; [rewrite D; exact As0|].
    split; [reflexivity|]. split; [reflexivity|].
    split.
    { rewrite (publishedFrame_grabbable frame _ (cursorEntry w t)); [reflexivity|].
      now rewrite As0'. }
    intros w2 frame2.
    remember (afterPublish (set_events [] s0)) as s1 eqn:S1.
    assert (A1 : assignments s1 = [with_isFirstFrame (Some false) (cursorEntry w t)]).
    { rewrite S1. unfold afterPublish. now rewrite As0'. }
    assert (F1 : fieldsOk (assignments s1)).
    { rewrite A1. repeat constructor.
      apply entryOk_with_isFirstFrame, entryOk_cursorEntry. }
    assert (E1 : events s1 = []).
    { rewrite S1. unfold afterPublish. now rewrite As0'. }
    eexists. eexists.
    split; [exact (write_nothing_queued w2 frame2 _ F1 E1)|].
    rewrite (publishedFrame_grabbable frame2 _
               (with_isFirstFrame (Some false) (cursorEntry w t))); [reflexivity|].
    change (assignments (set_events [] (afterReset s1))) with (assignments (afterReset s1)).
    unfold afterReset. cbn [assignments set_assignments]. now rewrite A1.
  - pose proof (drain_first_touch_delayed w t ts (afterReset s) P0 E0 Hd) as D.
    change (events (afterReset s)) with (events s) in D.
    remember (afterDelay t (afterReset s)) as s0 eqn:S0.
    assert (As0 : assignments (set_events [] s0) = []) by (rewrite S0; exact A0).
    assert (Ps0 : pendingFirstTouch s0 = Some t) by (rewrite S0; reflexivity).
    assert (Ts0 : timers s0 = [{| timerId := nextTimerId s; timerDelay := 150;
                                  timerTask := TaskResolvePendingFirstTouch |}]).
    { rewrite S0. unfold afterDelay. cbn [timers set_timers set_firstTouchTimeout].
      change (timers (afterReset s)) with (timers s). now rewrite Et. }
    remember (afterPublish (set_events [] s0)) as s1 eqn:S1'.
    pose proof (assignments_afterPublish_nil _ As0) as S1. rewrite <- S1' in S1.
    assert (As1 : assignments s1 = []) by (rewrite S1; exact As0).
    assert (Ps1 : pendingFirstTouch s1 = Some t) by (rewrite S1; exact Ps0).
    assert (Ts1 : timers s1 = [{| timerId := nextTimerId s; timerDelay := 150;
                                  timerTask := TaskResolvePendingFirstTouch |}])
      by (rewrite S1; exact Ts0).
    assert (Es1 : events s1 = []) by (rewrite S1; reflexivity).
    exists (publishedFrame frame (set_events [] s0)), s1.
    split; [rewrite S1'; exact (write_eq w frame s s0 F D)|].
    split; [exact As1|]. split; [exact Ps1|].
    split; [apply publishedFrame_not_grabbable; now rewrite As0|].
    split; [exact Ts1|].
    intros w3 Hi3.
    rewrite (fire_resolves_to_cursor w3 t s1 (nextTimerId s) As1 Ps1 Ts1 Hi3).
    clear S1 S1' D S0.
    remember (set_assignments [cursorEntry w3 t] (set_timers [] (nextTimerId s1) s1))
      as s2 eqn:S2.
    assert (Es2 : events s2 = []) by (rewrite S2; exact Es1).
    split; [cbn [assignments set_pendingFirstTouch];
            rewrite assignments_notePendingTap, S2; reflexivity|].
    split; [reflexivity|].
    intros w4 w5 frame4 frame5.
    apply (hover_then_grab w3 t).
    + cbn [assignments set_pendingFirstTouch].
      rewrite assignments_notePendingTap, S2. reflexivity.
    + cbn [events set_pendingFirstTouch]. rewrite events_notePendingTap. exact Es2.
Qed.

(** * Cursor and camera together *)

Lemma at_most_one_with_job (j : Job) (l : list Assignment) :
  NoDup (jobsOf l) -> (length (filter (hasJob j) l) <= 1)%nat.
Proof.
  induction l as [|a l IH]; intro ND; [simpl; lia|].
  simpl in ND. inversion ND as [|? ? Na ND']; subst.
  simpl. destruct (hasJob j a) eqn:E; [|now apply IH].
  unfold hasJob in E. apply Job_eqb_eq in E. subst j.
  assert (F : filter (hasJob (job a)) l = []).
  { clear IH ND ND'. induction l as [|b l IH]; [reflexivity|].
    simpl. destruct (hasJob (job a) b) eqn:Eb.
    - exfalso. apply Na. unfold hasJob in Eb. apply Job_eqb_eq in Eb.
      rewrite <- Eb. now left.
    - apply IH. intro X. apply Na. now right. }
  rewrite F. simpl. lia.
Qed.

Lemma same_touch_same_entry (a b : Assignment) (l : list Assignment) :
  NoDup (touchIds l) -> In a l -> In b l ->
  identifier (touch a) = identifier (touch b) -> a = b.
Proof.
  induction l as [|x l IH]; intros ND Ha Hb E; [destruct Ha|].
  simpl in ND. inversion ND as [|? ? Nx ND']; subst.
  destruct Ha as [->|Ha], Hb as [->|Hb]; try reflexivity.
  - exfalso. apply Nx. rewrite E. unfold touchIds. apply in_map_iff. eauto.
  - exfalso. apply Nx. rewrite <- E. unfold touchIds. apply in_map_iff. eauto.
  - now apply IH.
Qed.

(** C1, as amended: CursorMove and CameraMove can be assigned together.  In
    every reachable state at most one assignment has job CursorMove and at
    most one has job CameraMove, and when both exist they belong to
    different touches; a touch-start that finds CursorMove taken, and neither
    FirstPincher nor CameraMove assigned, gets CameraMove beside it. *)
Theorem cursor_and_camera_each_once_and_together (s : Device) :
  reachable s ->
  (length (filter (hasJob MOVE_CURSOR_JOB) (assignments s)) <= 1)%nat
  /\ (length (filter (hasJob MOVE_CAMERA_JOB) (assignments s)) <= 1)%nat
  /\ (forall c m,
         findByJob MOVE_CURSOR_JOB (assignments s) = Some c ->
         findByJob MOVE_CAMERA_JOB (assignments s) = Some m ->
         identifier (touch c) <> identifier (touch m))
  /\ (forall (w : World) (t : Touch) (allow : bool),
         touchIsAssigned t (assignments s) = false ->
         jobIsAssigned FIRST_PINCHER_JOB (assignments s) = false ->
         jobIsAssigned MOVE_CURSOR_JOB (assignments s) = true ->
         jobIsAssigned MOVE_CAMERA_JOB (assignments s) = false ->
         fst (processTouchStart w t allow s) = Normal tt
         /\ assignments (snd (processTouchStart w t allow s))
            = assignments s ++ [cameraEntry t (Some (clientX t)) (Some (clientY t))]
         /\ jobIsAssigned MOVE_CURSOR_JOB (assignments (snd (processTouchStart w t allow s)))
            = true
         /\ jobIsAssigned MOVE_CAMERA_JOB (assignments (snd (processTouchStart w t allow s)))
            = true).
Proof.
  intro R. destruct (reachable_deviceInv s R) as [[Wt Wj] _].
  split; [now apply at_most_one_with_job|].
  split; [now apply at_most_one_with_job|].
  split.
  - intros c m Fc Fm E.
    destruct (findByJob_Some _ _ _ Fc) as [Hc Jc].
    destruct (findByJob_Some _ _ _ Fm) as [Hm Jm].
    pose proof (same_touch_same_entry c m _ Wt Hc Hm E) as X. subst m. congruence.
  - intros w t allow Et Ef Ec Em.
    rewrite processTouchStart_camera; try assumption.
    + cbn [fst snd]. rewrite assignments_notePendingTap.
      cbn [assignments set_assignments].
      rewrite !jobIsAssigned_app, Ec. repeat split. apply orb_true_r.
    + rewrite Ef, Ec. reflexivity.
    + rewrite Ef, Em. reflexivity.
Qed.

(** * The second touch of a pinch *)

Lemma findByJob_push_fresh (j : Job) (l : list Assignment) (a : Assignment) :
  jobIsAssigned j l = false -> job a = j -> findByJob j (l ++ [a]) = Some a.
Proof.
  intros N E. unfold findByJob. induction l as [|x l IH]; simpl.
  - unfold hasJob. rewrite E, Job_eqb_refl. reflexivity.
  - simpl in N. apply orb_false_iff in N. destruct N as [N1 N2].
    rewrite N1. now apply IH.
Qed.

(** X14.  While a touch [p] is buffered, no pincher is assigned and neither
    [p] nor the new touch [t] has a job, the touch-start of [t] makes [p] the first
    pincher, unregisters the timer, empties the buffer, makes [t] the second
    pincher and starts the pinch at the distance between the two. *)
Lemma start_of_second_touch (w : World) (t p : Touch) (s : Device) :
  pendingFirstTouch s = Some p ->
  touchIsAssigned p (assignments s) = false ->
  touchIsAssigned t (assignments s) = false ->
  identifier t <> identifier p ->
  jobIsAssigned FIRST_PINCHER_JOB (assignments s) = false ->
  jobIsAssigned SECOND_PINCHER_JOB (assignments s) = false ->
  exists s',
    start w t s = (Normal tt, s')
    /\ assignments s'
       = (assignments s
            ++ [pincherEntry FIRST_PINCHER_JOB p (Some (clientX p)) (Some (clientY p))])
           ++ [pincherEntry SECOND_PINCHER_JOB t (Some (clientX t)) (Some (clientY t))]
    /\ pendingFirstTouch s' = None
    /\ firstTouchTimeout s' = None
    /\ (forall id, firstTouchTimeout s = Some id ->
                   find (fun x => Nat.eqb (timerId x) id) (timers s') = None)
    /\ pinch s'
       = {| initialDistance := distance (clientX p) (clientY p) (clientX t) (clientY t);
            currentDistance := distance (clientX p) (clientY p) (clientX t) (clientY t);
            pinchDelta := ofZ 0 |}.
Proof.
  intros Ep Etp Ett Ne Ef Es.
  rewrite (start_flush w t s p Ep Etp Ef).
  set (first := pincherEntry FIRST_PINCHER_JOB p (Some (clientX p)) (Some (clientY p))).
  remember (afterClearPendingFirstTouch (set_assignments (assignments s ++ [first]) s))
    as s1 eqn:S1.
  assert (A1 : assignments s1 = assignments s ++ [first]).
  { rewrite S1. now rewrite assignments_afterClearPendingFirstTouch. }
  assert (T1 : touchIsAssigned t (assignments s1) = false).
  { rewrite A1, touchIsAssigned_app, Ett. simpl. unfold sameTouch. simpl.
    rewrite orb_false_r. apply Z.eqb_neq. congruence. }
  assert (F1 : findByJob FIRST_PINCHER_JOB (assignments s1) = Some first).
  { rewrite A1. now apply findByJob_push_fresh. }
  assert (S1' : jobIsAssigned SECOND_PINCHER_JOB (assignments s1) = false).
  { rewrite A1, jobIsAssigned_app, Es. reflexivity. }
  rewrite (processTouchStart_second w t false s1 first T1 F1 S1').
  eexists. split; [reflexivity|].
  rewrite assignments_notePendingTap, pinch_notePendingTap.
  cbn [assignments set_assignments set_pinch pinch]. rewrite A1.
  split; [reflexivity|].
  split.
  { unfold notePendingTap.
    destruct ((maxTouchCount (pendingTap _) =? 0) && _); rewrite S1; reflexivity. }
  split.
  { unfold notePendingTap.
    destruct ((maxTouchCount (pendingTap _) =? 0) && _); rewrite S1; reflexivity. }
  split; [|reflexivity].
  intros id Hid.
  assert (X : timers (notePendingTap w
                (set_pinch (startPinch first t)
                   (set_assignments
                      ((assignments s ++ [first])
                         ++ [pincherEntry SECOND_PINCHER_JOB t
                               (Some (clientX t)) (Some (clientY t))]) s1)))
              = filter (fun x => negb (Nat.eqb (timerId x) id)) (timers s)).
  { unfold notePendingTap.
    destruct ((maxTouchCount (pendingTap _) =? 0) && _); rewrite S1;
      unfold afterClearPendingFirstTouch; cbn [firstTouchTimeout set_assignments];
      rewrite Hid; reflexivity. }
  rewrite X.
  destruct (find (fun x => Nat.eqb (timerId x) id)
              (filter (fun x => negb (Nat.eqb (timerId x) id)) (timers s))) as [x|] eqn:Fx;
    [|reflexivity].
  apply find_some in Fx. destruct Fx as [Hin Hx].
  apply filter_In in Hin. destruct Hin as [_ Hn]. rewrite Hx in Hn. discriminate.
Qed.

(** * The event queue *)

(** Walks a method down to its primitive steps: [known] closes the calls of
    methods that have a lemma, [leaf] shows the relation for one primitive
    step. *)
Ltac respects_walk Rrefl Rtrans known leaf :=
  repeat (first
    [ known
    | lazymatch goal with
      | |- respects _ (bind _ _) => apply (respects_bind _ Rtrans); [|intro; cbv beta]
      | |- respects _ (ret _) => apply (respects_ret _ Rrefl)
      | |- respects _ (throw _) => apply (respects_throw _ Rrefl)
      | |- respects _ (gets _) => apply (respects_gets _ Rrefl)
      | |- respects _ (defined _ _) => apply (respects_defined _ Rrefl)
      | |- respects _ (if ?b then _ else _) => destruct b
      | |- respects _ (match ?x with _ => _ end) => destruct x
      | |- respects _ (clearTimeout ?h) =>
          destruct h; [intro; leaf | apply (respects_ret _ Rrefl)]
      | |- respects _ (modify _) => intro; leaf
      | |- respects _ (log _) => intro; leaf
      | |- respects _ (this_assign _ _) => intro; leaf
      | |- respects _ (this_unassign _ _) => intro; leaf
      | |- respects _ (mutateLast _) => intro; leaf
      | |- respects _ (mutateFirst _ _) => intro; leaf
      | |- respects _ (setTimeout _ _) => intro; leaf
      end ]).

(** The queue of events stays as it is. *)
Definition sameEvents (s s' : Device) : Prop := events s' = events s.

Lemma sameEvents_refl s : sameEvents s s.
Proof. reflexivity. Qed.

Lemma sameEvents_trans s1 s2 s3 :
  sameEvents s1 s2 -> sameEvents s2 s3 -> sameEvents s1 s3.
Proof. unfold sameEvents. congruence. Qed.

Lemma events_settlePendingTap (w : World) s : events (settlePendingTap w s) = events s.
Proof.
  unfold settlePendingTap. destruct (assignments s); [|reflexivity].
  destruct (withinTapWindow w (pendingTap s)); reflexivity.
Qed.

Ltac events_leaf :=
  unfold sameEvents;
  first [ reflexivity | apply events_notePendingTap | apply events_settlePendingTap ].

Lemma processTouchStart_sameEvents (w : World) t allow :
  respects sameEvents (processTouchStart w t allow).
Proof.
  unfold processTouchStart.
  respects_walk sameEvents_refl sameEvents_trans fail events_leaf.
Qed.

Lemma clearPendingFirstTouch_sameEvents : respects sameEvents clearPendingFirstTouch.
Proof.
  unfold clearPendingFirstTouch.
  respects_walk sameEvents_refl sameEvents_trans fail events_leaf.
Qed.

Lemma processPendingFirstTouch_sameEvents (w : World) allow :
  respects sameEvents (processPendingFirstTouch w allow).
Proof.
  unfold processPendingFirstTouch.
  respects_walk sameEvents_refl sameEvents_trans
    ltac:(apply processTouchStart_sameEvents) events_leaf.
Qed.

Ltac events_known :=
  idtac;
  lazymatch goal with
  | |- respects _ (processTouchStart _ _ _) => apply processTouchStart_sameEvents
  | |- respects _ clearPendingFirstTouch => apply clearPendingFirstTouch_sameEvents
  | |- respects _ (processPendingFirstTouch _ _) =>
      apply processPendingFirstTouch_sameEvents
  end.

Lemma end_sameEvents (w : World) t : respects sameEvents (end_ w t).
Proof.
  unfold end_.
  respects_walk sameEvents_refl sameEvents_trans events_known events_leaf.
Qed.

Lemma move_sameEvents (w : World) t : respects sameEvents (move w t).
Proof.
  unfold move.
  respects_walk sameEvents_refl sameEvents_trans events_known events_leaf.
Qed.

Lemma start_sameEvents (w : World) t : respects sameEvents (start w t).
Proof.
  unfold start.
  respects_walk sameEvents_refl sameEvents_trans events_known events_leaf.
Qed.

Lemma process_sameEvents (w : World) event : respects sameEvents (process w event).
Proof.
  unfold process. destruct (type event);
    apply (respects_forEach _ sameEvents_refl sameEvents_trans); intro t.
  - apply start_sameEvents.
  - apply end_sameEvents.
  - apply move_sameEvents.
  - apply end_sameEvents.
Qed.

Lemma resetDeltas_sameEvents : respects sameEvents resetDeltas.
Proof.
  unfold resetDeltas.
  respects_walk sameEvents_refl sameEvents_trans fail events_leaf.
Qed.

Lemma events_afterPublish s : events (afterPublish s) = events s.
Proof.
  unfold afterPublish. destruct (findByJob MOVE_CURSOR_JOB (assignments s)); reflexivity.
Qed.

(** X1.  However [write] completes, the queue is left in one of two ways:
    a write that returns has emptied it, and a write that throws (from
    whichever event of the drain) has left every queued event in place, the
    ones already processed included, so that the next write processes them
    again. *)
Theorem write_empties_or_keeps_the_queue (w : World) (frame : Frame) (s : Device) :
  events (snd (write w frame s))
  = match fst (write w frame s) with
    | Normal _ => []
    | Throw _ => events s
    end.
Proof.
  pose proof (resetDeltas_sameEvents s) as E0.
  unfold write, drain. unfold bind, gets, modify.
  destruct (resetDeltas s) as [[u|e] s0]; cbn [fst snd] in *; [|exact E0].
  pose proof (respects_forEach _ sameEvents_refl sameEvents_trans
                (events s0) (process w) (process_sameEvents w) s0) as E1.
  destruct (forEach (events s0) (process w) s0) as [[u1|e1] s1]; cbn [fst snd] in *.
  - rewrite publish_eq. cbn [fst snd]. now rewrite events_afterPublish.
  - unfold sameEvents in *. congruence.
Qed.

(** * Which calls can throw *)

Lemma forEach_normal {A : Type} (P : Device -> Prop) (f : A -> M unit) (l : list A) :
  (forall x s, P s -> fst (f x s) = Normal tt /\ P (snd (f x s))) ->
  forall s, P s -> exists s1, forEach l f s = (Normal tt, s1) /\ P s1.
Proof.
  intro F. induction l as [|x l IH]; intros s Ps; simpl.
  - exists s. now split.
  - destruct (F x s Ps) as [N P1]. unfold bind.
    destruct (f x s) as [[[]|e] s0]; cbn [fst snd] in *; [|discriminate].
    apply IH, P1.
Qed.

Lemma move_ok (w : World) t s :
  deviceOk s -> fst (move w t s) = Normal tt /\ deviceOk (snd (move w t s)).
Proof. intro Ok. split; [now apply move_normal | now apply move_keepsOk]. Qed.

Lemma end_ok (w : World) t s :
  deviceOk s -> fst (end_ w t s) = Normal tt /\ deviceOk (snd (end_ w t s)).
Proof. intro Ok. split; [now apply end_normal | now apply end_keepsOk]. Qed.

(** [start] with nothing buffered, or with a buffered touch that can take
    the first pincher. *)
Definition canStart (s : Device) : bool :=
  match pendingFirstTouch s with
  | Some p =>
      negb (touchIsAssigned p (assignments s)
            || jobIsAssigned FIRST_PINCHER_JOB (assignments s))
  | None => true
  end.

Lemma start_normal (w : World) t s :
  deviceOk s -> canStart s = true -> fst (start w t s) = Normal tt.
Proof.
  intros [I F] C. unfold canStart in C.
  destruct (pendingFirstTouch s) as [p|] eqn:Ep.
  - apply negb_true_iff, orb_false_iff in C. destruct C as [Et Ef].
    rewrite (start_flush w t s p Ep Et Ef).
    apply processTouchStart_inv. unfold deviceInv.
    rewrite assignments_afterClearPendingFirstTouch. simpl.
    apply tableInv_push; simpl; try assumption. discriminate.
  - destruct (shouldDelayStartTouch w t) eqn:Ed.
    + now rewrite (start_delay w t s Ep Ed).
    + rewrite (start_immediate w t s Ep Ed). now apply processTouchStart_inv.
Qed.

(** X2.  In a reachable state, [move], [end] and [processTouchStart] return
    for every touch: the assignment they look up is there, and the fields
    they dereference (the cursor pose, the camera delta) are defined. *)
Theorem move_end_processTouchStart_never_throw (s : Device) :
  reachable s ->
  forall (w : World) (t : Touch),
    fst (move w t s) = Normal tt
    /\ fst (end_ w t s) = Normal tt
    /\ forall allow, fst (processTouchStart w t allow s) = Normal tt.
Proof.
  intros R w t. pose proof (reachable_deviceOk s R) as Ok.
  split; [now apply move_normal|].
  split; [now apply end_normal|].
  intro allow. apply processTouchStart_inv, Ok.
Qed.

(** X3.  In a reachable state, [start] throws exactly when a touch is
    buffered that [assign] cannot make the first pincher, because it has a
    job already or because the first pincher is taken; the device is then
    left as it was.  In every other case [start] returns. *)
Theorem start_throws_exactly_when_the_buffered_touch_cannot_pinch
  (w : World) (t : Touch) (s : Device) :
  reachable s ->
  (canStart s = true -> fst (start w t s) = Normal tt)
  /\ (canStart s = false -> start w t s = (Throw (TypeError "job"), s)).
Proof.
  intro R. pose proof (reachable_deviceOk s R) as Ok. split.
  - now apply start_normal.
  - unfold canStart. destruct (pendingFirstTouch s) as [p|] eqn:Ep; [|discriminate].
    intro C. apply negb_false_iff in C. now apply (start_flush_throws w t s p).
Qed.

Definition notTouchStart (e : TouchEvent) : bool :=
  match type e with touchstart => false | _ => true end.

Lemma process_ok (w : World) e s :
  notTouchStart e = true -> deviceOk s ->
  fst (process w e s) = Normal tt /\ deviceOk (snd (process w e s)).
Proof.
  intros N Ok. unfold process, notTouchStart in *.
  destruct (type e); try discriminate.
  - destruct (forEach_normal deviceOk (end_ w) (changedTouches e) (end_ok w) s Ok)
      as [s1 [E Ok1]]. now rewrite E.
  - destruct (forEach_normal deviceOk (move w) (touches e) (move_ok w) s Ok)
      as [s1 [E Ok1]]. now rewrite E.
  - destruct (forEach_normal deviceOk (end_ w) (changedTouches e) (end_ok w) s Ok)
      as [s1 [E Ok1]]. now rewrite E.
Qed.

Lemma drain_without_touchstart (w : World) evs s :
  forallb notTouchStart evs = true -> deviceOk s ->
  exists s1, forEach evs (process w) s = (Normal tt, s1) /\ deviceOk s1.
Proof.
  revert s. induction evs as [|e evs IH]; intros s N Ok; simpl in *.
  - exists s. now split.
  - apply andb_prop in N. destruct N as [N1 N2].
    destruct (process_ok w e s N1 Ok) as [E Ok1]. unfold bind.
    destruct (process w e s) as [[[]|x] s0]; cbn [fst snd] in *; [|discriminate].
    now apply IH.
Qed.

Lemma deviceOk_afterReset s : deviceOk s -> deviceOk (afterReset s).
Proof.
  intro Ok. pose proof (resetDeltas_keepsOk s Ok) as K.
  now rewrite (resetDeltas_eq s (proj2 Ok)) in K.
Qed.

(** X4.  A frame write on a reachable device whose queue holds no
    touch-start event returns, whatever moves, ends and cancels are queued
    and whatever touches they name. *)
Theorem write_without_touchstart_returns (w : World) (frame : Frame) (s : Device) :
  reachable s ->
  forallb notTouchStart (events s) = true ->
  exists frame' s', write w frame s = (Normal frame', s') /\ events s' = [].
Proof.
  intros R N. pose proof (reachable_deviceOk s R) as Ok.
  destruct (drain_without_touchstart w (events s) (afterReset s) N
              (deviceOk_afterReset s Ok)) as [s1 [D _]].
  exists (publishedFrame frame (set_events [] s1)), (afterPublish (set_events [] s1)).
  split; [exact (write_eq w frame s s1 (proj2 Ok) D)|].
  now rewrite events_afterPublish.
Qed.

(** * What a write publishes *)

Lemma write_returns_inv (w : World) frame s frame' s' :
  fieldsOk (assignments s) ->
  write w frame s = (Normal frame', s') ->
  exists s1,
    forEach (events s) (process w) (afterReset s) = (Normal tt, s1)
    /\ frame' = publishedFrame frame (set_events [] s1)
    /\ s' = afterPublish (set_events [] s1).
Proof.
  intros F E.
  destruct (forEach (events s) (process w) (afterReset s)) as [[[]|e] s1] eqn:D.
  - rewrite (write_eq w frame s s1 F D) in E. injection E as E1 E2. eauto.
  - rewrite (write_throws w frame s s1 e F D) in E. discriminate.
Qed.

Lemma forEach_process_keepsOk (w : World) evs : respects keepsOk (forEach evs (process w)).
Proof.
  apply (respects_forEach _ keepsOk_refl keepsOk_trans). intro e. apply process_keepsOk.
Qed.

Lemma publishedFrame_isTouching frame s :
  publishedFrame frame s path_isTouching
  = if jobIsAssigned MOVE_CURSOR_JOB (assignments s)
       || jobIsAssigned MOVE_CAMERA_JOB (assignments s)
    then Some (VBool true) else frame path_isTouching.
Proof.
  unfold publishedFrame.
  destruct (negb (tapIndexToWriteNextFrame s =? 0)
            && tapPathDefined (tapIndexToWriteNextFrame s));
    destruct (findByJob MOVE_CAMERA_JOB (assignments s));
    destruct (findByJob MOVE_CURSOR_JOB (assignments s));
    destruct (jobIsAssigned MOVE_CURSOR_JOB (assignments s)
              || jobIsAssigned MOVE_CAMERA_JOB (assignments s)); reflexivity.
Qed.

Lemma publishedFrame_cursorPose frame s :
  publishedFrame frame s path_cursorPose
  = match findByJob MOVE_CURSOR_JOB (assignments s) with
    | Some a => Some (ofOption VPose (cursorPose a))
    | None => frame path_cursorPose
    end.
Proof.
  unfold publishedFrame.
  destruct (negb (tapIndexToWriteNextFrame s =? 0)
            && tapPathDefined (tapIndexToWriteNextFrame s));
    destruct (findByJob MOVE_CAMERA_JOB (assignments s));
    destruct (findByJob MOVE_CURSOR_JOB (assignments s));
    destruct (jobIsAssigned MOVE_CURSOR_JOB (assignments s)
              || jobIsAssigned MOVE_CAMERA_JOB (assignments s)); reflexivity.
Qed.

Lemma publishedFrame_touchCameraDelta frame s :
  publishedFrame frame s path_touchCameraDelta
  = match findByJob MOVE_CAMERA_JOB (assignments s) with
    | Some a => Some (ofOption VArray2 (delta a))
    | None => frame path_touchCameraDelta
    end.
Proof.
  unfold publishedFrame.
  destruct (negb (tapIndexToWriteNextFrame s =? 0)
            && tapPathDefined (tapIndexToWriteNextFrame s));
    destruct (findByJob MOVE_CAMERA_JOB (assignments s));
    destruct (findByJob MOVE_CURSOR_JOB (assignments s));
    destruct (jobIsAssigned MOVE_CURSOR_JOB (assignments s)
              || jobIsAssigned MOVE_CAMERA_JOB (assignments s)); reflexivity.
Qed.

Lemma publishedFrame_pinch_distances frame s :
  publishedFrame frame s path_pinch_initialDistance
  = Some (VNumber (initialDistance (pinch s)))
  /\ publishedFrame frame s path_pinch_currentDistance
     = Some (VNumber (currentDistance (pinch s))).
Proof.
  unfold publishedFrame.
  destruct (negb (tapIndexToWriteNextFrame s =? 0)
            && tapPathDefined (tapIndexToWriteNextFrame s)); split; reflexivity.
Qed.

Lemma afterPublish_sameKeys s : sameKeys s (afterPublish s).
Proof.
  pose proof (publish_sameKeys (fun _ => None) s) as K.
  now rewrite publish_eq in K.
Qed.

(** The entry that holds job [j], if the device has its defined fields. *)
Lemma findByJob_entryOk j (s : Device) a :
  deviceOk s -> findByJob j (assignments s) = Some a -> job a = j /\ entryOk a.
Proof.
  intros [_ F] Fa. destruct (findByJob_Some _ _ _ Fa) as [Hin Hj].
  split; [exact Hj | exact (In_entryOk _ _ F Hin)].
Qed.

(** X5.  What a frame write that returns has put into the frame, by the jobs
    held once the queue is drained ([s'] holds the same jobs): [isTouching]
    is set to [true] when the cursor or the camera job is held and is left
    alone otherwise (it is never set to [false], and two pinchers alone do
    not set it); the cursor pose and [isTouchingGrabbable] are written
    exactly when the cursor job is held, the camera delta exactly when the
    camera job is held, and what is written is a pose, a boolean and a pair,
    never [undefined]; the three pinch values are written in every frame and
    are those of the device. *)
Theorem write_publishes_by_job (w : World) (frame frame' : Frame) (s s' : Device) :
  reachable s ->
  write w frame s = (Normal frame', s') ->
  let hasCursor := jobIsAssigned MOVE_CURSOR_JOB (assignments s') in
  let hasCamera := jobIsAssigned MOVE_CAMERA_JOB (assignments s') in
  frame' path_isTouching
  = (if hasCursor || hasCamera then Some (VBool true) else frame path_isTouching)
  /\ (if hasCursor
      then exists p b, frame' path_cursorPose = Some (VPose p)
                       /\ frame' path_isTouchingGrabbable = Some (VBool b)
      else frame' path_cursorPose = frame path_cursorPose
           /\ frame' path_isTouchingGrabbable = frame path_isTouchingGrabbable)
  /\ (if hasCamera
      then exists d, frame' path_touchCameraDelta = Some (VArray2 d)
      else frame' path_touchCameraDelta = frame path_touchCameraDelta)
  /\ frame' path_pinch_delta = Some (VNumber (pinchDelta (pinch s')))
  /\ frame' path_pinch_initialDistance = Some (VNumber (initialDistance (pinch s')))
  /\ frame' path_pinch_currentDistance = Some (VNumber (currentDistance (pinch s'))).
Proof.
  intros R E hasCursor hasCamera. subst hasCursor hasCamera.
  pose proof (reachable_deviceOk s R) as Ok.
  destruct (write_returns_inv w frame s frame' s' (proj2 Ok) E) as [s1 [D [Ef Es]]].
  assert (Ok1 : deviceOk (set_events [] s1)).
  { pose proof (forEach_process_keepsOk w (events s) (afterReset s)
                  (deviceOk_afterReset s Ok)) as K.
    rewrite D in K. exact K. }
  remember (set_events [] s1) as s2 eqn:S2.
  destruct (afterPublish_sameKeys s2) as [_ Kj].
  rewrite Es, !(jobIsAssigned_keys _ _ _ Kj), pinch_afterPublish, Ef.
  rewrite !(jobIsAssigned_findByJob _ (assignments s2)).
  split; [|split; [|split; [|split; [|apply publishedFrame_pinch_distances]]]].
  - rewrite publishedFrame_isTouching.
    now rewrite !(jobIsAssigned_findByJob _ (assignments s2)).
  - rewrite publishedFrame_cursorPose.
    destruct (findByJob MOVE_CURSOR_JOB (assignments s2)) as [a|] eqn:Fa.
    + destruct (findByJob_entryOk _ _ _ Ok1 Fa) as [Hj Oa].
      unfold entryOk in Oa. rewrite Hj in Oa.
      rewrite (publishedFrame_grabbable frame s2 a Fa).
      destruct (cursorPose a) as [p|]; [|congruence]. simpl. eauto.
    + split; [reflexivity | now apply publishedFrame_not_grabbable].
  - rewrite publishedFrame_touchCameraDelta.
    destruct (findByJob MOVE_CAMERA_JOB (assignments s2)) as [a|] eqn:Fa; [|reflexivity].
    destruct (findByJob_entryOk _ _ _ Ok1 Fa) as [Hj Oa].
    unfold entryOk in Oa. rewrite Hj in Oa.
    destruct (delta a) as [d|]; [|congruence]. simpl. eauto.
  - apply publishedFrame_pinch_delta.
Qed.

(** * The buffer and its timer, the pending tap, the idle pinch *)

Definition isResolve (tm : Timer) : bool :=
  match timerTask tm with
  | TaskResolvePendingFirstTouch => true
  | _ => false
  end.

(** Timer handles are fresh and distinct, and the 150 ms timer is registered
    exactly while a touch is buffered: it is then the one that
    [firstTouchTimeout] names. *)
Definition timerInv (s : Device) : Prop :=
  Forall (fun tm => (timerId tm < nextTimerId s)%nat) (timers s)
  /\ NoDup (map timerId (timers s))
  /\ (forall tm, In tm (timers s) -> isResolve tm = true ->
        firstTouchTimeout s = Some (timerId tm) /\ pendingFirstTouch s <> None)
  /\ (pendingFirstTouch s <> None ->
        exists tm, In tm (timers s) /\ isResolve tm = true
                   /\ firstTouchTimeout s = Some (timerId tm)).

(** The pending tap counts at most four touches and counts none while the
    table is empty, the scheduled tap index is at most four, and the pinch
    is zero while no second pincher is assigned. *)
Definition tapInv (s : Device) : Prop :=
  0 <= maxTouchCount (pendingTap s) <= 4
  /\ 0 <= tapIndexToWriteNextFrame s <= 4
  /\ (assignments s = [] -> maxTouchCount (pendingTap s) = 0)
  /\ (jobIsAssigned SECOND_PINCHER_JOB (assignments s) = false -> pinch s = zeroPinch).

Definition sound (s : Device) : Prop := deviceOk s /\ timerInv s /\ tapInv s.

(** ** The table holds at most four entries *)

Lemma wfTable_length (l : list Assignment) : wfTable l -> (length l <= 4)%nat.
Proof.
  intros [_ Nj]. unfold jobsOf in Nj. rewrite <- (length_map job l).
  apply (NoDup_incl_length (l' := [MOVE_CURSOR_JOB; MOVE_CAMERA_JOB;
                                    FIRST_PINCHER_JOB; SECOND_PINCHER_JOB]) Nj).
  intros j _. destruct j; simpl; auto.
Qed.

(** ** Fields that a step leaves alone *)

Lemma timerInv_ext (s s' : Device) :
  timers s' = timers s -> nextTimerId s' = nextTimerId s ->
  pendingFirstTouch s' = pendingFirstTouch s ->
  firstTouchTimeout s' = firstTouchTimeout s ->
  timerInv s -> timerInv s'.
Proof. unfold timerInv. intros -> -> -> ->. exact (fun X => X). Qed.

Lemma tapInv_ext (s s' : Device) :
  assignments s' = assignments s -> pinch s' = pinch s ->
  pendingTap s' = pendingTap s ->
  tapIndexToWriteNextFrame s' = tapIndexToWriteNextFrame s ->
  tapInv s -> tapInv s'.
Proof. unfold tapInv. intros -> -> -> ->. exact (fun X => X). Qed.

Lemma deviceOk_ext (s s' : Device) :
  assignments s' = assignments s -> deviceOk s -> deviceOk s'.
Proof. unfold deviceOk, deviceInv. intros ->. exact (fun X => X). Qed.

(** The schedule (the timers and the buffer) stays as it is. *)
Definition sameSchedule (s s' : Device) : Prop :=
  timers s' = timers s /\ nextTimerId s' = nextTimerId s
  /\ pendingFirstTouch s' = pendingFirstTouch s
  /\ firstTouchTimeout s' = firstTouchTimeout s.

Lemma sameSchedule_refl s : sameSchedule s s.
Proof. now repeat split. Qed.

Lemma sameSchedule_trans s1 s2 s3 :
  sameSchedule s1 s2 -> sameSchedule s2 s3 -> sameSchedule s1 s3.
Proof. intros [A [B [C D]]] [A' [B' [C' D']]]. repeat split; congruence. Qed.

Lemma sameSchedule_timerInv s s' : sameSchedule s s' -> timerInv s -> timerInv s'.
Proof. intros [A [B [C D]]]. now apply timerInv_ext. Qed.

Lemma sameSchedule_notePendingTap (w : World) s : sameSchedule s (notePendingTap w s).
Proof.
  unfold notePendingTap.
  destruct ((maxTouchCount (pendingTap s) =? 0) && (0 <? Z.of_nat (length (assignments s))));
    now repeat split.
Qed.

Lemma sameSchedule_settlePendingTap (w : World) s : sameSchedule s (settlePendingTap w s).
Proof.
  unfold settlePendingTap. destruct (assignments s); [|apply sameSchedule_refl].
  destruct (withinTapWindow w (pendingTap s)); now repeat split.
Qed.

Ltac schedule_leaf :=
  first [ apply sameSchedule_notePendingTap
        | apply sameSchedule_settlePendingTap
        | now repeat split ].

Lemma processTouchStart_sameSchedule (w : World) t allow :
  respects sameSchedule (processTouchStart w t allow).
Proof.
  unfold processTouchStart.
  respects_walk sameSchedule_refl sameSchedule_trans fail schedule_leaf.
Qed.

(** ** The pending tap and the pinch through [processTouchStart] *)

Lemma pendingTap_notePendingTap (w : World) s :
  maxTouchCount (pendingTap (notePendingTap w s))
  = Z.max (maxTouchCount (pendingTap s)) (Z.of_nat (length (assignments s))).
Proof.
  unfold notePendingTap.
  destruct ((maxTouchCount (pendingTap s) =? 0) && (0 <? Z.of_nat (length (assignments s))));
    reflexivity.
Qed.

Lemma tapInv_notePendingTap (w : World) s0 :
  wfTable (assignments s0) ->
  0 <= maxTouchCount (pendingTap s0) <= 4 ->
  0 <= tapIndexToWriteNextFrame s0 <= 4 ->
  assignments s0 <> [] ->
  (jobIsAssigned SECOND_PINCHER_JOB (assignments s0) = false -> pinch s0 = zeroPinch) ->
  tapInv (notePendingTap w s0).
Proof.
  intros W B1 B2 Ne Pz. unfold tapInv.
  rewrite pendingTap_notePendingTap, tapIndex_notePendingTap, assignments_notePendingTap,
    pinch_notePendingTap.
  pose proof (wfTable_length _ W) as L.
  split; [lia|]. split; [exact B2|]. split; [congruence | exact Pz].
Qed.

Lemma push_nonempty {A : Type} (l : list A) (a : A) : l ++ [a] <> [].
Proof. destruct l; discriminate. Qed.

Lemma assigned_nonempty j (l : list Assignment) : jobIsAssigned j l = true -> l <> [].
Proof. destruct l; [discriminate | discriminate]. Qed.

Lemma processTouchStart_tapInv (w : World) t allow (s : Device) :
  deviceInv s -> tapInv s -> tapInv (snd (processTouchStart w t allow s)).
Proof.
  intros Hinv T.
  pose proof (proj1 (processTouchStart_inv w t allow s Hinv)) as [W' _].
  pose proof Hinv as [W I]. destruct T as [B1 [B2 [Em Pz]]].
  revert W'.
  destruct (touchIsAssigned t (assignments s)) eqn:Et.
  { rewrite processTouchStart_assigned by assumption. intros _. now repeat split. }
  destruct (negb (jobIsAssigned FIRST_PINCHER_JOB (assignments s))
            && negb (jobIsAssigned MOVE_CURSOR_JOB (assignments s))
            && (allow || isCursorOverInteractable w t)) eqn:C1.
  { rewrite processTouchStart_cursor by assumption. cbn [snd].
    rewrite assignments_notePendingTap. intro W'.
    apply tapInv_notePendingTap; try assumption.
    - apply push_nonempty.
    - cbn [assignments set_assignments pinch]. rewrite jobIsAssigned_app. simpl.
      rewrite orb_false_r. exact Pz. }
  destruct (negb (jobIsAssigned FIRST_PINCHER_JOB (assignments s))
            && negb (jobIsAssigned MOVE_CAMERA_JOB (assignments s))) eqn:C2.
  { rewrite processTouchStart_camera by assumption. cbn [snd].
    rewrite assignments_notePendingTap. intro W'.
    apply tapInv_notePendingTap; try assumption.
    - apply push_nonempty.
    - cbn [assignments set_assignments pinch]. rewrite jobIsAssigned_app. simpl.
      rewrite orb_false_r. exact Pz. }
  destruct (jobIsAssigned SECOND_PINCHER_JOB (assignments s)) eqn:Es.
  { rewrite processTouchStart_dropped by assumption. cbn [snd].
    rewrite assignments_notePendingTap. intro W'.
    apply tapInv_notePendingTap; try assumption.
    - exact (assigned_nonempty _ _ Es).
    - cbn [assignments set_console]. congruence. }
  destruct (jobIsAssigned FIRST_PINCHER_JOB (assignments s)) eqn:Ef.
  { destruct (findByJob_assigned _ _ Ef) as [first Ff].
    rewrite (processTouchStart_second w t allow s first) by assumption. cbn [snd].
    rewrite assignments_notePendingTap. intro W'.
    apply tapInv_notePendingTap; try assumption.
    - apply push_nonempty.
    - cbn [assignments set_assignments set_pinch]. rewrite jobIsAssigned_app. simpl.
      rewrite orb_true_r. discriminate. }
  simpl in C1, C2. apply negb_false_iff in C2.
  destruct (findByJob_assigned _ _ C2) as [cm Fc].
  rewrite (processTouchStart_promote w t allow s cm) by assumption. cbn [snd].
  rewrite assignments_notePendingTap. intro W'.
  apply tapInv_notePendingTap; try assumption.
  - apply push_nonempty.
  - cbn [assignments set_assignments set_pinch]. rewrite jobIsAssigned_app. simpl.
    rewrite orb_true_r. discriminate.
Qed.

Lemma processTouchStart_sound (w : World) t allow (s : Device) :
  sound s -> sound (snd (processTouchStart w t allow s)).
Proof.
  intros [Ok [Ti Ta]]. split; [now apply processTouchStart_keepsOk|].
  split.
  - exact (sameSchedule_timerInv _ _ (processTouchStart_sameSchedule w t allow s) Ti).
  - apply processTouchStart_tapInv; [apply Ok | exact Ta].
Qed.

(** ** Timers *)

(** Unregistering timers keeps the handles distinct. *)
Lemma timerIds_filter (p : Timer -> bool) (l : list Timer) :
  NoDup (map timerId l) -> NoDup (map timerId (filter p l)).
Proof.
  intro N. induction l as [|tm l IH]; [constructor|].
  simpl in N. apply NoDup_cons_iff in N. destruct N as [Nin N].
  simpl. destruct (p tm); [|exact (IH N)].
  simpl. apply NoDup_cons; [|exact (IH N)].
  contradict Nin. apply in_map_iff in Nin. destruct Nin as [x [E Hx]].
  apply filter_In in Hx. apply in_map_iff. exists x. tauto.
Qed.

(** Two registered timers with the same handle are the same timer. *)
Lemma same_handle_same_timer (l : list Timer) (a b : Timer) :
  NoDup (map timerId l) -> In a l -> In b l -> timerId a = timerId b -> a = b.
Proof.
  induction l as [|x l IH]; simpl; intros N Ha Hb E; [contradiction|].
  apply NoDup_cons_iff in N. destruct N as [Nin N].
  destruct Ha as [Ha|Ha], Hb as [Hb|Hb]; subst.
  - reflexivity.
  - exfalso. apply Nin. rewrite E. now apply in_map.
  - exfalso. apply Nin. rewrite <- E. now apply in_map.
  - now apply IH.
Qed.

(** The device with the timers of handle [id] unregistered. *)
Definition withoutTimer (id : nat) (s : Device) : Device :=
  set_timers (filter (fun t => negb (Nat.eqb (timerId t) id)) (timers s)) (nextTimerId s) s.

Lemma In_withoutTimer id s tm :
  In tm (timers (withoutTimer id s)) <-> In tm (timers s) /\ timerId tm <> id.
Proof.
  unfold withoutTimer. cbn [timers set_timers]. rewrite filter_In.
  rewrite negb_true_iff, Nat.eqb_neq. reflexivity.
Qed.

Lemma timers_fresh_withoutTimer id s :
  Forall (fun tm => (timerId tm < nextTimerId s)%nat) (timers s) ->
  NoDup (map timerId (timers s)) ->
  Forall (fun tm => (timerId tm < nextTimerId (withoutTimer id s))%nat)
    (timers (withoutTimer id s))
  /\ NoDup (map timerId (timers (withoutTimer id s))).
Proof.
  intros F N. split.
  - apply Forall_forall. intros tm Hin. apply In_withoutTimer in Hin.
    rewrite Forall_forall in F. apply F, Hin.
  - unfold withoutTimer. cbn [timers set_timers]. now apply timerIds_filter.
Qed.

Lemma afterClearPendingFirstTouch_withoutTimer s :
  afterClearPendingFirstTouch s
  = set_firstTouchTimeout None
      (set_pendingFirstTouch None
         (match firstTouchTimeout s with
          | Some id => withoutTimer id s
          | None => s
          end)).
Proof. reflexivity. Qed.

Lemma timerInv_afterClearPendingFirstTouch s :
  timerInv s -> timerInv (afterClearPendingFirstTouch s).
Proof.
  intros [F [N [R P]]]. rewrite afterClearPendingFirstTouch_withoutTimer.
  destruct (firstTouchTimeout s) as [id|] eqn:Eh.
  - destruct (timers_fresh_withoutTimer id s F N) as [F' N'].
    split; [exact F'|]. split; [exact N'|]. split.
    + intros tm Hin Hr. exfalso.
      cbn [timers set_firstTouchTimeout set_pendingFirstTouch] in Hin.
      apply In_withoutTimer in Hin. destruct Hin as [Hin Hne].
      destruct (R tm Hin Hr) as [E _]. congruence.
    + intro X. exfalso. apply X. reflexivity.
  - split; [exact F|]. split; [exact N|]. split.
    + intros tm Hin Hr. exfalso. destruct (R tm Hin Hr) as [E _]. discriminate.
    + intro X. exfalso. apply X. reflexivity.
Qed.

Definition isResolveTask (task : Task) : bool :=
  match task with
  | TaskResolvePendingFirstTouch => true
  | _ => false
  end.

Lemma timers_fresh_setTimeout task d s :
  Forall (fun tm => (timerId tm < nextTimerId s)%nat) (timers s) ->
  NoDup (map timerId (timers s)) ->
  Forall (fun tm => (timerId tm < S (nextTimerId s))%nat)
    (timers s ++ [{| timerId := nextTimerId s; timerDelay := d; timerTask := task |}])
  /\ NoDup (map timerId
              (timers s ++ [{| timerId := nextTimerId s; timerDelay := d;
                               timerTask := task |}])).
Proof.
  intros F N. split.
  - apply Forall_app. split.
    + eapply Forall_impl; [|exact F]. simpl. intros a Ha. lia.
    + repeat constructor.
  - rewrite map_app. simpl. apply NoDup_app_remove_l with (l := []). simpl.
    apply NoDup_app; [exact N | repeat constructor; simpl; tauto |].
    intros x Hx [Hy|[]]. subst x. apply in_map_iff in Hx.
    destruct Hx as [tm [E Hin]]. rewrite Forall_forall in F.
    specialize (F tm Hin). lia.
Qed.

Lemma timerInv_setTimeout task d s :
  isResolveTask task = false -> timerInv s -> timerInv (snd (setTimeout task d s)).
Proof.
  intros Nr [F [N [R P]]]. unfold setTimeout. cbn [snd].
  destruct (timers_fresh_setTimeout task d s F N) as [F' N'].
  split; [exact F'|]. split; [exact N'|]. split.
  - intros tm Hin Hr. cbn [timers set_timers] in Hin. apply in_app_or in Hin.
    destruct Hin as [Hin|[Hin|[]]]; [exact (R tm Hin Hr)|].
    subst tm. unfold isResolve in Hr. simpl in Hr. unfold isResolveTask in Nr.
    destruct task; discriminate.
  - intro X. destruct (P X) as [tm [Hin [Hr E]]]. exists tm.
    split; [|now split]. cbn [timers set_timers]. apply in_or_app. now left.
Qed.

Lemma timerInv_afterDelay t s :
  pendingFirstTouch s = None -> timerInv s -> timerInv (afterDelay t s).
Proof.
  intros Ep [F [N [R P]]]. unfold afterDelay.
  destruct (timers_fresh_setTimeout TaskResolvePendingFirstTouch 150 s F N) as [F' N'].
  split; [exact F'|]. split; [exact N'|]. split.
  - intros tm Hin Hr.
    cbn [timers set_firstTouchTimeout set_timers set_pendingFirstTouch] in Hin.
    apply in_app_or in Hin. destruct Hin as [Hin|[Hin|[]]].
    + exfalso. destruct (R tm Hin Hr) as [_ X]. now apply X.
    + subst tm. split; [reflexivity | discriminate].
  - intros _. eexists. split; [|split].
    + cbn [timers set_firstTouchTimeout set_timers set_pendingFirstTouch].
      apply in_or_app. right. left. reflexivity.
    + reflexivity.
    + reflexivity.
Qed.

(** ** [end], [move] and [start] *)

Lemma tapInv_settlePendingTap (w : World) s0 :
  0 <= maxTouchCount (pendingTap s0) <= 4 ->
  0 <= tapIndexToWriteNextFrame s0 <= 4 ->
  (jobIsAssigned SECOND_PINCHER_JOB (assignments s0) = false -> pinch s0 = zeroPinch) ->
  tapInv (settlePendingTap w s0).
Proof.
  intros B1 B2 Pz. unfold settlePendingTap.
  destruct (assignments s0) as [|a l] eqn:Ea.
  - assert (Pz' : pinch s0 = zeroPinch) by (apply Pz; reflexivity).
    destruct (withinTapWindow w (pendingTap s0)); unfold tapInv; simpl;
      rewrite Ea; (split; [lia|]); (split; [lia|]); (split; [reflexivity|]);
      intros _; exact Pz'.
  - unfold tapInv. rewrite Ea.
    split; [exact B1|]. split; [exact B2|]. split; [discriminate | exact Pz].
Qed.

Lemma end_settled_sound (w : World) t s :
  isPendingFirstTouch t s = false -> sound s -> sound (snd (end_ w t s)).
Proof.
  intros Ep [Ok [Ti [B1 [B2 [Em Pz]]]]].
  split; [now apply end_keepsOk|].
  pose proof Ok as [[W I] F].
  destruct (touchIsAssigned t (assignments s)) eqn:Et.
  - destruct (findByTouch_assigned _ _ Et) as [a Ft].
    destruct (findByTouch_Some _ _ _ Ft) as [Hin _].
    assert (Single : job a = MOVE_CURSOR_JOB \/ job a = MOVE_CAMERA_JOB ->
                     timerInv (snd (end_ w t s)) /\ tapInv (snd (end_ w t s))).
    { intro Hj. rewrite (end_single w t s a Ep Ft Hj). cbn [snd]. split.
      - eapply sameSchedule_timerInv; [apply sameSchedule_settlePendingTap|].
        now apply (timerInv_ext s).
      - apply tapInv_settlePendingTap; try assumption.
        cbn [assignments set_assignments pinch].
        pose proof (unassign_removed a _ (proj1 W) Hin) as Rm.
        rewrite (removed_other_job _ _ _ SECOND_PINCHER_JOB Rm)
          by (destruct Hj; congruence).
        exact Pz. }
    destruct (job a) eqn:Hj.
    + apply Single. now left.
    + apply Single. now right.
    + rewrite (end_first w t s a W Ep Ft Hj). cbn [snd]. split.
      * eapply sameSchedule_timerInv; [apply sameSchedule_settlePendingTap|].
        now apply (timerInv_ext s).
      * apply tapInv_settlePendingTap; try assumption. reflexivity.
    + rewrite (end_second w t s a W Ep Ft Hj). cbn [snd]. split.
      * eapply sameSchedule_timerInv; [apply sameSchedule_settlePendingTap|].
        now apply (timerInv_ext s).
      * apply tapInv_settlePendingTap; try assumption. reflexivity.
  - rewrite (end_unassigned w t s Ep Et). cbn [snd]. split.
    + eapply sameSchedule_timerInv; [apply sameSchedule_settlePendingTap|].
      now apply (timerInv_ext s).
    + apply tapInv_settlePendingTap; assumption.
Qed.

(** What the re-dispatch of a buffered touch leaves: the buffered touch has
    been started, the buffer is cleared, and [task] is registered. *)
Lemma redispatch_sound (w : World) allow task s p :
  isResolveTask task = false ->
  sound s ->
  sound (snd (setTimeout task 0
                (afterClearPendingFirstTouch (snd (processTouchStart w p allow s))))).
Proof.
  intros Nr So. pose proof (processTouchStart_sound w p allow s So) as [Ok1 [Ti1 Ta1]].
  remember (snd (processTouchStart w p allow s)) as s1 eqn:S1.
  split; [|split].
  - apply (deviceOk_ext s1); [|exact Ok1].
    unfold setTimeout. cbn [snd assignments set_timers].
    apply assignments_afterClearPendingFirstTouch.
  - apply timerInv_setTimeout; [exact Nr|].
    now apply timerInv_afterClearPendingFirstTouch.
  - apply (tapInv_ext s1); [| | | |exact Ta1];
      unfold setTimeout, afterClearPendingFirstTouch; destruct (firstTouchTimeout s1);
      reflexivity.
Qed.

Lemma end_sound (w : World) t s : sound s -> sound (snd (end_ w t s)).
Proof.
  intro So. destruct (isPendingFirstTouch t s) eqn:Ep.
  - destruct (isPendingFirstTouch_true t s Ep) as [p [Hp _]].
    rewrite (end_pending w t s Ep).
    rewrite (redispatch_normal w true _ s p (proj1 (proj1 So)) Hp). cbn [snd].
    now apply redispatch_sound.
  - now apply end_settled_sound.
Qed.

Lemma move_steps (w : World) t s :
  isPendingFirstTouch t s = false ->
  sameSchedule s (snd (move w t s))
  /\ pendingTap (snd (move w t s)) = pendingTap s
  /\ (pinch (snd (move w t s)) = pinch s
      \/ jobIsAssigned SECOND_PINCHER_JOB (assignments (snd (move w t s))) = true).
Proof.
  intro Ep. unfold move, bind, gets. rewrite Ep. simpl.
  unfold mutateFirst, modify, log, defined, ret, throw.
  split_cases;
    (split; [now repeat split|]); (split; [reflexivity|]);
    first [ now left | right; simpl ].
  all: match goal with
       | E : _ && _ = true |- _ => apply andb_prop in E; destruct E as [_ E]; exact E
       end.
Qed.

Lemma sameKeys_nil (s s' : Device) :
  sameKeys s s' -> assignments s' = [] -> assignments s = [].
Proof.
  intros [_ Kj] E. rewrite E in Kj. unfold jobsOf in Kj. simpl in Kj.
  symmetry in Kj. now apply map_eq_nil in Kj.
Qed.

(** A step that keeps the keys of the table, the pending tap and the tap
    index, and changes the pinch only while a second pincher is assigned. *)
Lemma tapInv_sameKeys (s s' : Device) :
  sameKeys s s' ->
  pendingTap s' = pendingTap s ->
  0 <= tapIndexToWriteNextFrame s' <= 4 ->
  (jobIsAssigned SECOND_PINCHER_JOB (assignments s') = false ->
   pinch s = zeroPinch -> pinch s' = zeroPinch) ->
  tapInv s -> tapInv s'.
Proof.
  intros K Ep B2' Pp [B1 [B2 [Em Pz]]]. unfold tapInv. rewrite Ep.
  split; [exact B1|]. split; [exact B2'|]. split.
  - intro E. apply Em. exact (sameKeys_nil s s' K E).
  - intro Es. apply (Pp Es). apply Pz.
    now rewrite <- (jobIsAssigned_keys _ _ _ (proj2 K)).
Qed.

Lemma move_sound (w : World) t s : sound s -> sound (snd (move w t s)).
Proof.
  intro So. destruct (isPendingFirstTouch t s) eqn:Ep.
  - destruct (isPendingFirstTouch_true t s Ep) as [p [Hp _]].
    rewrite (move_pending w t s Ep).
    rewrite (redispatch_normal w false _ s p (proj1 (proj1 So)) Hp). cbn [snd].
    now apply redispatch_sound.
  - destruct So as [Ok [Ti Ta]].
    destruct (move_steps w t s Ep) as [Sc [Pt Pp]].
    split; [now apply move_keepsOk|].
    split; [exact (sameSchedule_timerInv _ _ Sc Ti)|].
    apply (tapInv_sameKeys s); try assumption.
    + now apply move_sameKeys.
    + rewrite (move_sameTapIndex w t s). apply Ta.
    + intros Es Z. destruct Pp as [Pp|Pp]; congruence.
Qed.

Lemma start_sound (w : World) t s : sound s -> sound (snd (start w t s)).
Proof.
  intro So. pose proof So as [Ok [Ti Ta]].
  destruct (pendingFirstTouch s) as [p|] eqn:Ep.
  - destruct (touchIsAssigned p (assignments s)
              || jobIsAssigned FIRST_PINCHER_JOB (assignments s)) eqn:E.
    + now rewrite (start_flush_throws w t s p Ep E).
    + apply orb_false_iff in E. destruct E as [Et Ef].
      pose proof (start_keepsOk w t s Ok) as Ok'.
      rewrite (start_flush w t s p Ep Et Ef) in *.
      set (first := pincherEntry FIRST_PINCHER_JOB p (Some (clientX p)) (Some (clientY p)))
        in *.
      remember (afterClearPendingFirstTouch (set_assignments (assignments s ++ [first]) s))
        as s1 eqn:S1.
      assert (A1 : assignments s1 = assignments s ++ [first]).
      { rewrite S1. now rewrite assignments_afterClearPendingFirstTouch. }
      assert (I1 : deviceInv s1).
      { unfold deviceInv. rewrite A1. apply tableInv_push; simpl; try assumption.
        - apply Ok.
        - discriminate. }
      split; [exact Ok'|]. split.
      * apply (sameSchedule_timerInv s1); [apply processTouchStart_sameSchedule|].
        rewrite S1. apply timerInv_afterClearPendingFirstTouch.
        now apply (timerInv_ext s).
      * apply processTouchStart_tapInv; [exact I1|].
        destruct Ta as [B1 [B2 [Em Pz]]]. unfold tapInv. rewrite A1.
        assert (X : pinch s1 = pinch s /\ pendingTap s1 = pendingTap s
                    /\ tapIndexToWriteNextFrame s1 = tapIndexToWriteNextFrame s).
        { rewrite S1. unfold afterClearPendingFirstTouch.
          destruct (firstTouchTimeout _); now repeat split. }
        destruct X as [X1 [X2 X3]]. rewrite X1, X2, X3.
        split; [exact B1|]. split; [exact B2|]. split.
        -- intro E. exfalso. exact (push_nonempty _ _ E).
        -- rewrite jobIsAssigned_app. simpl. rewrite orb_false_r. exact Pz.
  - destruct (shouldDelayStartTouch w t) eqn:Ed.
    + rewrite (start_delay w t s Ep Ed). cbn [snd].
      split; [now apply (deviceOk_ext s)|]. split.
      * now apply timerInv_afterDelay.
      * now apply (tapInv_ext s).
    + rewrite (start_immediate w t s Ep Ed). now apply processTouchStart_sound.
Qed.

(** ** The frame write and the timers *)

Lemma sound_afterReset s : sound s -> sound (afterReset s).
Proof.
  intros [Ok [Ti Ta]]. split; [now apply deviceOk_afterReset|]. split.
  - now apply (timerInv_ext s).
  - pose proof (resetDeltas_sameKeys s) as K.
    rewrite (resetDeltas_eq s (proj2 Ok)) in K. cbn [snd] in K.
    apply (tapInv_sameKeys s); try assumption; try reflexivity.
    + apply Ta.
    + intros _ Z. unfold afterReset. cbn [pinch set_assignments set_pinch].
      rewrite Z. reflexivity.
Qed.

Lemma sound_afterPublish s : sound s -> sound (afterPublish s).
Proof.
  intros [Ok [Ti Ta]]. split; [|split].
  - pose proof (publish_keepsOk (fun _ => None) s Ok) as K.
    now rewrite publish_eq in K.
  - apply (timerInv_ext s); try assumption;
      unfold afterPublish; destruct (findByJob MOVE_CURSOR_JOB (assignments s));
      reflexivity.
  - apply (tapInv_sameKeys s); try assumption.
    + apply afterPublish_sameKeys.
    + unfold afterPublish. destruct (findByJob MOVE_CURSOR_JOB (assignments s));
        reflexivity.
    + rewrite tapIndex_afterPublish. lia.
    + intros _ Z. now rewrite pinch_afterPublish.
Qed.

Lemma sound_set_events evs s : sound s -> sound (set_events evs s).
Proof.
  intros [Ok [Ti Ta]]. split; [|split].
  - now apply (deviceOk_ext s).
  - now apply (timerInv_ext s).
  - now apply (tapInv_ext s).
Qed.

Definition keepsSound (s s' : Device) : Prop := sound s -> sound s'.

Lemma keepsSound_refl s : keepsSound s s.
Proof. now intro. Qed.

Lemma keepsSound_trans s1 s2 s3 :
  keepsSound s1 s2 -> keepsSound s2 s3 -> keepsSound s1 s3.
Proof. unfold keepsSound. auto. Qed.

Lemma process_keepsSound (w : World) event : respects keepsSound (process w event).
Proof.
  unfold process. destruct (type event);
    apply (respects_forEach _ keepsSound_refl keepsSound_trans); intros t s.
  - exact (start_sound w t s).
  - exact (end_sound w t s).
  - exact (move_sound w t s).
  - exact (end_sound w t s).
Qed.

Lemma forEach_process_keepsSound (w : World) evs :
  respects keepsSound (forEach evs (process w)).
Proof.
  apply (respects_forEach _ keepsSound_refl keepsSound_trans). intro e.
  apply process_keepsSound.
Qed.

Lemma write_keepsSound (w : World) frame : respects keepsSound (write w frame).
Proof.
  intros s So. unfold write, drain. unfold bind, gets, modify.
  rewrite (resetDeltas_eq s (proj2 (proj1 So))).
  pose proof (forEach_process_keepsSound w (events (afterReset s)) (afterReset s)
                (sound_afterReset s So)) as K.
  destruct (forEach (events (afterReset s)) (process w) (afterReset s)) as [[u|e] s1];
    cbn [fst snd] in *; [|exact K].
  rewrite publish_eq. cbn [snd]. now apply sound_afterPublish, sound_set_events.
Qed.

(** The timer that fires is unregistered before its callback runs. *)
Lemma fire_eq (w : World) id s :
  step (Fire w id) s
  = match find (fun t => Nat.eqb (timerId t) id) (timers s) with
    | Some tm => snd (runTask w (timerTask tm) (withoutTimer id s))
    | None => s
    end.
Proof. reflexivity. Qed.

Lemma find_timer id (s : Device) tm :
  find (fun t => Nat.eqb (timerId t) id) (timers s) = Some tm ->
  In tm (timers s) /\ timerId tm = id.
Proof.
  intro E. apply find_some in E. destruct E as [Hin E].
  apply Nat.eqb_eq in E. now split.
Qed.

Lemma resolve_fired (w : World) id s tm :
  sound s ->
  find (fun t => Nat.eqb (timerId t) id) (timers s) = Some tm ->
  isResolve tm = true ->
  exists p,
    pendingFirstTouch s = Some p
    /\ firstTouchTimeout s = Some id
    /\ runTask w (timerTask tm) (withoutTimer id s)
       = (Normal tt,
          set_pendingFirstTouch None
            (snd (processTouchStart w p false (withoutTimer id s)))).
Proof.
  intros [Ok [[F [N [R P]]] Ta]] Ef Hr.
  destruct (find_timer id s tm Ef) as [Hin Eid].
  destruct (R tm Hin Hr) as [Eh Ep]. rewrite Eid in Eh.
  destruct (pendingFirstTouch s) as [p|] eqn:Hp; [|congruence].
  exists p. split; [reflexivity|]. split; [exact Eh|].
  unfold isResolve in Hr. destruct (timerTask tm); try discriminate.
  unfold runTask, bind.
  rewrite (processPendingFirstTouch_normal w false (withoutTimer id s) p);
    [reflexivity | apply Ok | exact Hp].
Qed.

Lemma sound_withoutTimer id s tm :
  sound s ->
  find (fun t => Nat.eqb (timerId t) id) (timers s) = Some tm ->
  isResolve tm = false ->
  sound (withoutTimer id s).
Proof.
  intros [Ok [[F [N [R P]]] Ta]] Ef Hr.
  destruct (find_timer id s tm Ef) as [Hin Eid].
  split; [now apply (deviceOk_ext s)|]. split; [|now apply (tapInv_ext s)].
  destruct (timers_fresh_withoutTimer id s F N) as [F' N'].
  split; [exact F'|]. split; [exact N'|]. split.
  - intros tm' Hin' Hr'. apply In_withoutTimer in Hin'. exact (R tm' (proj1 Hin') Hr').
  - intro X. destruct (P X) as [tm' [Hin' [Hr' E]]]. exists tm'.
    split; [|now split]. apply In_withoutTimer. split; [exact Hin'|].
    intro E'. rewrite <- Eid in E'.
    pose proof (same_handle_same_timer _ _ _ N Hin' Hin E') as X'. congruence.
Qed.

Lemma fire_sound (w : World) id s : sound s -> sound (step (Fire w id) s).
Proof.
  intro So. rewrite fire_eq.
  destruct (find (fun t => Nat.eqb (timerId t) id) (timers s)) as [tm|] eqn:Ef;
    [|exact So].
  destruct (isResolve tm) eqn:Hr.
  - destruct (resolve_fired w id s tm So Ef Hr) as [p [Hp [Eh E]]]. rewrite E. cbn [snd].
    pose proof So as [Ok [[F [N [R P]]] Ta]].
    remember (snd (processTouchStart w p false (withoutTimer id s))) as s1 eqn:S1.
    assert (Sc : sameSchedule (withoutTimer id s) s1)
      by (rewrite S1; apply processTouchStart_sameSchedule).
    assert (Ok1 : deviceOk s1).
    { rewrite S1. apply processTouchStart_keepsOk. now apply (deviceOk_ext s). }
    assert (Ta1 : tapInv s1).
    { rewrite S1. apply processTouchStart_tapInv; [|now apply (tapInv_ext s)].
      apply (deviceOk_ext s); [reflexivity | exact Ok]. }
    destruct Sc as [St [Sn [Sp Sh]]].
    split; [now apply (deviceOk_ext s1)|]. split; [|now apply (tapInv_ext s1)].
    destruct (timers_fresh_withoutTimer id s F N) as [F' N'].
    unfold timerInv. cbn [timers nextTimerId set_pendingFirstTouch pendingFirstTouch
                           firstTouchTimeout]. rewrite St, Sn.
    split; [exact F'|]. split; [exact N'|]. split.
    + intros tm' Hin' Hr'. exfalso. apply In_withoutTimer in Hin'.
      destruct Hin' as [Hin' Hne]. destruct (R tm' Hin' Hr') as [E' _]. congruence.
    + intro X. exfalso. now apply X.
  - pose proof (sound_withoutTimer id s tm So Ef Hr) as So'.
    unfold isResolve in Hr. destruct (timerTask tm); try discriminate; simpl.
    + now apply end_sound.
    + now apply move_sound.
Qed.

Lemma sound_constructor : sound constructor.
Proof.
  split; [split; [apply tableInv_nil | constructor]|]. split.
  - split; [constructor|]. split; [constructor|]. split.
    + intros tm [].
    + intro X. exfalso. now apply X.
  - unfold tapInv. simpl. repeat split; lia.
Qed.

Lemma step_sound op s : sound s -> sound (step op s).
Proof.
  intro So. destruct op as [event|w frame|w id].
  - now apply sound_set_events.
  - now apply write_keepsSound.
  - now apply fire_sound.
Qed.

(** Every reachable device is sound. *)
Lemma reachable_sound s : reachable s -> sound s.
Proof.
  induction 1 as [|op s R IH]; [apply sound_constructor | now apply step_sound].
Qed.

(** ** What the invariants give *)

Lemma isResolve_task (tm : Timer) :
  isResolve tm = true <-> timerTask tm = TaskResolvePendingFirstTouch.
Proof. unfold isResolve. destruct (timerTask tm); split; congruence. Qed.

(** X6.  In every reachable state the 150 ms timer is registered exactly
    while a touch is buffered: a buffered touch always has its timer
    pending, a pending timer always finds a buffered touch, the timer is the
    one [firstTouchTimeout] names, and no two registered timers share a
    handle (so there is one such timer at most). *)
Theorem buffered_touch_has_its_timer (s : Device) :
  reachable s ->
  (pendingFirstTouch s <> None <->
     exists tm, In tm (timers s) /\ timerTask tm = TaskResolvePendingFirstTouch)
  /\ (forall tm, In tm (timers s) -> timerTask tm = TaskResolvePendingFirstTouch ->
        firstTouchTimeout s = Some (timerId tm))
  /\ (forall tm tm', In tm (timers s) -> In tm' (timers s) ->
        timerId tm = timerId tm' -> tm = tm').
Proof.
  intro R. destruct (reachable_sound s R) as [_ [[F [N [Rs P]]] _]].
  split; [split|split].
  - intro X. destruct (P X) as [tm [Hin [Hr _]]]. exists tm.
    split; [exact Hin | now apply isResolve_task].
  - intros [tm [Hin Hr]]. apply isResolve_task in Hr. exact (proj2 (Rs tm Hin Hr)).
  - intros tm Hin Hr. apply isResolve_task in Hr. exact (proj1 (Rs tm Hin Hr)).
  - intros tm tm' Hin Hin' E. exact (same_handle_same_timer _ _ _ N Hin Hin' E).
Qed.

(** X7.  A timer that fires in a reachable state never throws.  The 150 ms
    timer finds the buffered touch, hands it to [processTouchStart] (which
    may not move the cursor to a non-interactable) and empties the buffer;
    the re-dispatched [end] and [move] run as the methods do. *)
Theorem fired_timer_never_throws (w : World) (id : nat) (tm : Timer) (s : Device) :
  reachable s ->
  find (fun t => Nat.eqb (timerId t) id) (timers s) = Some tm ->
  fst (runTask w (timerTask tm) (withoutTimer id s)) = Normal tt
  /\ (timerTask tm = TaskResolvePendingFirstTouch ->
      exists p,
        pendingFirstTouch s = Some p
        /\ step (Fire w id) s
           = set_pendingFirstTouch None
               (snd (processTouchStart w p false (withoutTimer id s)))).
Proof.
  intros R Ef. pose proof (reachable_sound s R) as So.
  split.
  - destruct (isResolve tm) eqn:Hr.
    + destruct (resolve_fired w id s tm So Ef Hr) as [p [_ [_ E]]]. now rewrite E.
    + pose proof (sound_withoutTimer id s tm So Ef Hr) as [Ok' _].
      unfold isResolve in Hr. destruct (timerTask tm); try discriminate; simpl.
      * now apply end_normal.
      * now apply move_normal.
  - intro Hr. apply isResolve_task in Hr.
    destruct (resolve_fired w id s tm So Ef Hr) as [p [Hp [_ E]]].
    exists p. split; [exact Hp|]. rewrite fire_eq, Ef, E. reflexivity.
Qed.

Lemma sound_drained (w : World) s s1 :
  sound s ->
  forEach (events s) (process w) (afterReset s) = (Normal tt, s1) ->
  sound (set_events [] s1).
Proof.
  intros So D. apply sound_set_events.
  pose proof (forEach_process_keepsSound w (events s) (afterReset s)
                (sound_afterReset s So)) as K.
  now rewrite D in K.
Qed.

(** X8.  The table never holds more than four assignments, so the pending
    tap never counts more than four touches and the scheduled tap index
    stays between 0 and 4: a frame write never sets the flag of a tap of
    five or more fingers (nor of a count below one), whatever tap paths the
    paths table defines. *)
Theorem no_tap_beyond_four_fingers (s : Device) :
  reachable s ->
  (length (assignments s) <= 4)%nat
  /\ 0 <= maxTouchCount (pendingTap s) <= 4
  /\ 0 <= tapIndexToWriteNextFrame s <= 4
  /\ forall (w : World) (frame frame' : Frame) (s' : Device) (k : Z),
       write w frame s = (Normal frame', s') ->
       k <= 0 \/ 4 < k ->
       frame' (path_tap k) = frame (path_tap k).
Proof.
  intro R. pose proof (reachable_sound s R) as So.
  pose proof So as [Ok [_ [B1 [B2 _]]]].
  split; [apply wfTable_length, Ok|]. split; [exact B1|]. split; [exact B2|].
  intros w frame frame' s' k E Hk.
  destruct (write_returns_inv w frame s frame' s' (proj2 Ok) E) as [s1 [D [Ef _]]].
  destruct (sound_drained w s s1 So D) as [_ [_ [_ [B2' _]]]].
  rewrite Ef. apply publishedFrame_other_tap.
  destruct (Z.eq_dec (tapIndexToWriteNextFrame (set_events [] s1)) 0) as [Z|Z].
  - right. now left.
  - left. lia.
Qed.

(** X9.  While no second pincher is assigned the pinch state of a reachable
    device is all zero, and a frame write that returns with no second
    pincher assigned publishes 0 for the pinch delta, the initial distance
    and the current distance. *)
Theorem pinch_is_zero_without_a_second_pincher (s : Device) :
  reachable s ->
  (jobIsAssigned SECOND_PINCHER_JOB (assignments s) = false -> pinch s = zeroPinch)
  /\ forall (w : World) (frame frame' : Frame) (s' : Device),
       write w frame s = (Normal frame', s') ->
       jobIsAssigned SECOND_PINCHER_JOB (assignments s') = false ->
       frame' path_pinch_delta = Some (VNumber (ofZ 0))
       /\ frame' path_pinch_initialDistance = Some (VNumber (ofZ 0))
       /\ frame' path_pinch_currentDistance = Some (VNumber (ofZ 0)).
Proof.
  intro R. pose proof (reachable_sound s R) as So.
  pose proof So as [Ok [_ [_ [_ [_ Pz]]]]].
  split; [exact Pz|].
  intros w frame frame' s' E Es.
  destruct (write_returns_inv w frame s frame' s' (proj2 Ok) E) as [s1 [D [Ef Es']]].
  pose proof (sound_afterPublish _ (sound_drained w s s1 So D)) as [_ [_ [_ [_ [_ Pz']]]]].
  rewrite <- Es' in Pz'. specialize (Pz' Es).
  rewrite Es', pinch_afterPublish in Pz'.
  rewrite Ef, publishedFrame_pinch_delta.
  destruct (publishedFrame_pinch_distances frame (set_events [] s1)) as [Ei Ec].
  rewrite Ei, Ec, Pz'. now repeat split.
Qed.

(** X10.  A stray touch, one that is neither buffered nor assigned, changes
    nothing but the console.  Its [move] warns unless the first class of the
    touch's target starts with "virtual-gamepad-controls", and leaves every
    other field alone.  Its [end] warns and, although it runs the tap
    settlement, schedules no tap: the table, the pinch, the scheduled tap
    index, the touch count of the pending tap, the timers and the buffer
    are as before. *)
Theorem stray_touch_changes_nothing (w : World) (t : Touch) (s : Device) :
  reachable s ->
  isPendingFirstTouch t s = false ->
  touchIsAssigned t (assignments s) = false ->
  move w t s
  = (Normal tt,
     if notVirtualGamepadControl t
     then set_console (console s ++ [console_warn "touch does not have job"]) s
     else s)
  /\ exists s',
       end_ w t s = (Normal tt, s')
       /\ console s' = console s ++ [console_warn "touch does not have a job"]
       /\ assignments s' = assignments s
       /\ pinch s' = pinch s
       /\ tapIndexToWriteNextFrame s' = tapIndexToWriteNextFrame s
       /\ maxTouchCount (pendingTap s') = maxTouchCount (pendingTap s)
       /\ sameSchedule s s'
       /\ events s' = events s.
Proof.
  intros R Ep Et. destruct (reachable_sound s R) as [_ [_ [_ [_ [Em _]]]]].
  split.
  - unfold move, bind, gets. rewrite Ep, Et. simpl.
    destruct (notVirtualGamepadControl t); reflexivity.
  - eexists. split; [exact (end_unassigned w t s Ep Et)|].
    unfold settlePendingTap. cbn [assignments set_console].
    destruct (assignments s) as [|a l] eqn:Ea.
    + assert (W : withinTapWindow w
                    (pendingTap
                       (set_console
                          (console s ++ [console_warn "touch does not have a job"]) s))
                  = false).
      { unfold withinTapWindow. cbn [pendingTap set_console].
        rewrite (Em eq_refl). reflexivity. }
      rewrite W. cbn. rewrite (Em eq_refl), Ea. now repeat split.
    + cbn. rewrite Ea. now repeat split.
Qed.

(** * The camera delta of a frame *)

Lemma findByJob_updateFirst_miss (p : Assignment -> bool) f j l a :
  keepsKeys f -> find p l = Some a -> job a <> j ->
  findByJob j (updateFirst p f l) = findByJob j l.
Proof.
  intros K. unfold findByJob. induction l as [|x l IH]; intros Fa Nj; [discriminate|].
  simpl in *. destruct (p x) eqn:Px.
  - injection Fa as ->. simpl. unfold hasJob. rewrite (proj1 (K a)).
    now rewrite (Job_eqb_neq _ _ Nj).
  - simpl. destruct (hasJob j x); [reflexivity | now apply IH].
Qed.

Lemma findByJob_updateFirst_hit (p : Assignment -> bool) f j l a :
  keepsKeys f -> find p l = Some a -> findByJob j l = Some a ->
  findByJob j (updateFirst p f l) = Some (f a).
Proof.
  intros K. unfold findByJob. induction l as [|x l IH]; intros Fa Fj; [discriminate|].
  simpl in *. destruct (p x) eqn:Px.
  - injection Fa as ->. simpl. unfold hasJob in *. rewrite (proj1 (K a)).
    destruct (Job_eqb (job a) j) eqn:Ej; [reflexivity|].
    apply find_some in Fj. destruct Fj as [_ Fj]. congruence.
  - simpl. destruct (hasJob j x) eqn:Hx.
    + injection Fj as ->. apply find_some in Fa. destruct Fa as [_ Fa]. congruence.
    + now apply IH.
Qed.

Lemma find_updateFirst_same t f l a :
  keepsKeys f -> find (sameTouch t) l = Some a ->
  find (sameTouch t) (updateFirst (sameTouch t) f l) = Some (f a).
Proof.
  intros K. induction l as [|x l IH]; intro Fa; [discriminate|].
  simpl in *. destruct (sameTouch t x) eqn:Px.
  - injection Fa as ->. simpl. unfold sameTouch in *. now rewrite (proj2 (K a)), Px.
  - simpl. rewrite Px. now apply IH.
Qed.

Lemma findByJob_of_member (l : list Assignment) a :
  NoDup (jobsOf l) -> In a l -> findByJob (job a) l = Some a.
Proof.
  unfold findByJob. induction l as [|x l IH]; intros N Hin; [destruct Hin|].
  simpl in N. inversion N as [|? ? Nx N']; subst. simpl.
  destruct Hin as [->|Hin].
  - unfold hasJob. now rewrite Job_eqb_refl.
  - destruct (hasJob (job a) x) eqn:Hx; [|now apply IH].
    exfalso. apply Nx. unfold hasJob in Hx. apply Job_eqb_eq in Hx. rewrite Hx.
    unfold jobsOf. now apply in_map.
Qed.

(** What the camera mover holds: its touch, the coordinates it has stored,
    and its delta. *)
Definition cameraView (s : Device) : option (Touch * (num * num) * (num * num)) :=
  match findByJob MOVE_CAMERA_JOB (assignments s) with
  | Some c =>
      match delta c with
      | Some d => Some (touch c, (toNumber (a_clientX c), toNumber (a_clientY c)), d)
      | None => None
      end
  | None => None
  end.

(** From [s] to [s'] the same touch moves the camera, and its delta grew by
    the change of its stored coordinates. *)
Definition cameraAccumulates (s s' : Device) : Prop :=
  exists t x y d x' y' d',
    cameraView s = Some (t, (x, y), d)
    /\ cameraView s' = Some (t, (x', y'), d')
    /\ fst d' = jadd (fst d) (jsub x' x)
    /\ snd d' = jadd (snd d) (jsub y' y).

(** The camera job is held, the device has its defined fields, and no touch
    is buffered. *)
Definition panning (s : Device) : Prop :=
  deviceOk s
  /\ pendingFirstTouch s = None
  /\ jobIsAssigned MOVE_CAMERA_JOB (assignments s) = true.

Lemma panning_cameraView s :
  panning s -> exists t x y d, cameraView s = Some (t, (x, y), d).
Proof.
  intros [Ok [_ Ec]]. destruct (findByJob_assigned _ _ Ec) as [c Fc].
  destruct (findByJob_entryOk _ _ _ Ok Fc) as [Hj Oc].
  unfold entryOk in Oc. rewrite Hj in Oc. unfold cameraView. rewrite Fc.
  destruct (delta c) as [d|]; [|congruence]. eauto.
Qed.

Lemma move_camera (w : World) t s a d :
  isPendingFirstTouch t s = false ->
  findByTouch t (assignments s) = Some a ->
  job a = MOVE_CAMERA_JOB ->
  delta a = Some d ->
  move w t s
  = (Normal tt,
     set_assignments
       (updateFirst (sameTouch t) (with_client (Some (clientX t)) (Some (clientY t)))
          (updateFirst (sameTouch t)
             (with_delta
                (Some (jadd (fst d) (jsub (clientX t) (toNumber (a_clientX a))),
                       jadd (snd d) (jsub (clientY t) (toNumber (a_clientY a))))))
             (assignments s)))
       s).
Proof.
  intros Ep Ft Hj Hd. unfold move, bind, gets. rewrite Ep. simpl.
  rewrite (findByTouch_touchIsAssigned _ _ _ Ft). simpl. rewrite Ft. simpl.
  rewrite Hj, Hd. reflexivity.
Qed.

(** A move of a touch that holds another job than the camera writes fields
    of that touch's entry only. *)
Lemma move_other_table (w : World) t s a :
  deviceOk s ->
  isPendingFirstTouch t s = false ->
  findByTouch t (assignments s) = Some a ->
  job a <> MOVE_CAMERA_JOB ->
  exists f, keepsKeys f
            /\ (forall x, isFirstFrame (f x) = isFirstFrame x)
            /\ assignments (snd (move w t s)) = updateFirst (sameTouch t) f (assignments s).
Proof.
  intros Ok Ep Ft Nj. unfold move, bind, gets. rewrite Ep. simpl.
  rewrite (findByTouch_touchIsAssigned _ _ _ Ft). simpl. rewrite Ft. simpl.
  destruct (findByTouch_Some _ _ _ Ft) as [Hin _].
  pose proof (In_entryOk _ _ (proj2 Ok) Hin) as Oa. unfold entryOk in Oa.
  destruct (job a) eqn:Hj; try congruence.
  - destruct (cursorPose a); [|congruence].
    eexists. split; [apply keepsKeys_with_cursorPose|]. split; [|reflexivity].
    reflexivity.
  - exists (with_client (Some (clientX t)) (Some (clientY t))).
    split; [apply keepsKeys_with_client|]. split; [reflexivity|].
    unfold mutateFirst, modify, defined, ret, throw. simpl. split_cases; reflexivity.
  - exists (with_client (Some (clientX t)) (Some (clientY t))).
    split; [apply keepsKeys_with_client|]. split; [reflexivity|].
    unfold mutateFirst, modify, defined, ret, throw. simpl. split_cases; reflexivity.
Qed.

Section ExactCamera.

Context {exactCamera : ExactNumber num}.

Lemma cameraAccumulates_same s s' :
  panning s -> cameraView s' = cameraView s -> cameraAccumulates s s'.
Proof.
  intros P E. destruct (panning_cameraView s P) as [t [x [y [d V]]]].
  exists t, x, y, d, x, y, d. rewrite E.
  split; [exact V|]. split; [exact V|].
  now rewrite !jsub_diag, !jadd_0_r.
Qed.

Lemma cameraAccumulates_trans s1 s2 s3 :
  cameraAccumulates s1 s2 -> cameraAccumulates s2 s3 -> cameraAccumulates s1 s3.
Proof.
  intros [t [x [y [d [x' [y' [d' [V1 [V2 [Dx Dy]]]]]]]]]]
         [t2 [x2 [y2 [d2 [x3 [y3 [d3 [V2' [V3 [Dx' Dy']]]]]]]]]].
  rewrite V2 in V2'. injection V2' as <- <- <- <-.
  exists t, x, y, d, x3, y3, d3.
  split; [exact V1|]. split; [exact V3|].
  split; [rewrite Dx', Dx | rewrite Dy', Dy]; apply jadd_jsub_chain.
Qed.

Lemma move_panning (w : World) t s :
  panning s ->
  fst (move w t s) = Normal tt
  /\ panning (snd (move w t s))
  /\ cameraAccumulates s (snd (move w t s)).
Proof.
  intros P. pose proof P as [Ok [Hp Ec]].
  assert (Ep : isPendingFirstTouch t s = false)
    by (unfold isPendingFirstTouch; now rewrite Hp).
  split; [now apply move_normal|].
  destruct (move_steps w t s Ep) as [[_ [_ [Sp _]]] _].
  pose proof (move_sameKeys w t s Ep) as [_ Kj].
  split.
  { split; [now apply move_keepsOk|]. split; [congruence|].
    now rewrite (jobIsAssigned_keys _ _ _ Kj). }
  destruct (findByJob_assigned _ _ Ec) as [c Fc].
  destruct (touchIsAssigned t (assignments s)) eqn:Et.
  - destruct (findByTouch_assigned _ _ Et) as [a Ft].
    destruct (findByTouch_Some _ _ _ Ft) as [Hin _].
    destruct (Job_eqb (job a) MOVE_CAMERA_JOB) eqn:Ej.
    + apply Job_eqb_eq in Ej.
      pose proof (findByJob_of_member _ a (proj2 (proj1 (proj1 Ok))) Hin) as Fa.
      rewrite Ej, Fc in Fa. injection Fa as ->.
      pose proof (In_entryOk _ _ (proj2 Ok) Hin) as Oa. unfold entryOk in Oa.
      rewrite Ej in Oa. destruct (delta a) as [d|] eqn:Hd; [|congruence].
      rewrite (move_camera w t s a d Ep Ft Ej Hd). cbn [snd].
      exists (touch a), (toNumber (a_clientX a)), (toNumber (a_clientY a)), d,
             (clientX t), (clientY t),
             (jadd (fst d) (jsub (clientX t) (toNumber (a_clientX a))),
              jadd (snd d) (jsub (clientY t) (toNumber (a_clientY a)))).
      split; [unfold cameraView; now rewrite Fc, Hd|].
      split; [|now split].
      unfold cameraView. cbn [assignments set_assignments].
      rewrite (findByJob_updateFirst_hit _ _ _ _
                 (with_delta
                    (Some (jadd (fst d) (jsub (clientX t) (toNumber (a_clientX a))),
                           jadd (snd d) (jsub (clientY t) (toNumber (a_clientY a)))))
                    a)).
      * reflexivity.
      * apply keepsKeys_with_client.
      * apply find_updateFirst_same; [apply keepsKeys_with_delta | exact Ft].
      * apply findByJob_updateFirst_hit; [apply keepsKeys_with_delta | exact Ft | exact Fc].
    + assert (Nj : job a <> MOVE_CAMERA_JOB).
      { intro X. rewrite X in Ej. discriminate. }
      destruct (move_other_table w t s a Ok Ep Ft Nj) as [f [K [_ Ea]]].
      apply cameraAccumulates_same; [exact P|].
      unfold cameraView. rewrite Ea.
      now rewrite (findByJob_updateFirst_miss _ f _ _ a K Ft Nj).
  - apply cameraAccumulates_same; [exact P|].
    unfold move, bind, gets. rewrite Ep. simpl. rewrite Et. simpl.
    destruct (notVirtualGamepadControl t); reflexivity.
Qed.

Lemma forEach_move_panning (w : World) ts s :
  panning s ->
  fst (forEach ts (move w) s) = Normal tt
  /\ panning (snd (forEach ts (move w) s))
  /\ cameraAccumulates s (snd (forEach ts (move w) s)).
Proof.
  revert s. induction ts as [|t ts IH]; intros s P; simpl.
  - split; [reflexivity | split; [exact P | now apply cameraAccumulates_same]].
  - destruct (move_panning w t s P) as [N [P1 A1]].
    unfold bind. destruct (move w t s) as [c s1]. simpl in *. subst c.
    destruct (IH s1 P1) as [N2 [P2 A2]].
    split; [exact N2 | split; [exact P2|]].
    eapply cameraAccumulates_trans; eassumption.
Qed.

Lemma drain_moves_panning (w : World) evs s :
  Forall (fun e => type e = touchmove) evs ->
  panning s ->
  fst (forEach evs (process w) s) = Normal tt
  /\ panning (snd (forEach evs (process w) s))
  /\ cameraAccumulates s (snd (forEach evs (process w) s)).
Proof.
  intro A. revert s. induction A as [|e evs He A IH]; intros s P; simpl.
  - split; [reflexivity | split; [exact P | now apply cameraAccumulates_same]].
  - assert (X : fst (process w e s) = Normal tt
                /\ panning (snd (process w e s))
                /\ cameraAccumulates s (snd (process w e s))).
    { unfold process. rewrite He. now apply forEach_move_panning. }
    destruct X as [N [P1 A1]].
    unfold bind. destruct (process w e s) as [c s1]. simpl in *. subst c.
    destruct (IH s1 P1) as [N2 [P2 A2]].
    split; [exact N2 | split; [exact P2|]].
    eapply cameraAccumulates_trans; eassumption.
Qed.

Lemma cameraView_afterReset s t x y d :
  cameraView s = Some (t, (x, y), d) ->
  cameraView (afterReset s) = Some (t, (x, y), (ofZ 0, ofZ 0)).
Proof.
  unfold cameraView, afterReset. cbn [assignments set_assignments set_pinch].
  destruct (findByJob MOVE_CAMERA_JOB (assignments s)) as [c|] eqn:Fc; [|discriminate].
  destruct (delta c) as [d0|] eqn:Hd; [|discriminate].
  intro E. injection E as <- <- <- <-.
  assert (H0 : findByJob MOVE_CAMERA_JOB
                 (updateFirst (hasJob MOVE_CAMERA_JOB)
                    (with_delta (Some (ofZ 0, ofZ 0))) (assignments s))
               = Some (with_delta (Some (ofZ 0, ofZ 0)) c)).
  { apply findByJob_updateFirst_hit; [apply keepsKeys_with_delta | exact Fc | exact Fc]. }
  rewrite H0. reflexivity.
Qed.

Lemma cameraView_afterPublish s : cameraView (afterPublish s) = cameraView s.
Proof.
  unfold cameraView, afterPublish.
  destruct (findByJob MOVE_CURSOR_JOB (assignments s)); [|reflexivity].
  cbn [assignments set_tapIndexToWriteNextFrame set_assignments].
  rewrite findByJob_updateFirst_other;
    [reflexivity | apply keepsKeys_with_isFirstFrame | discriminate].
Qed.

(** X11.  A frame write that finds the camera job held and no touch
    buffered, and drains touch-move events only, returns, and the camera
    delta it publishes is the displacement of the camera touch over the
    events of this very call: after the write the same touch still moves the
    camera, and the published pair is (x' - x, y' - y) for the coordinates
    the entry stored before and after, whatever delta was left from the
    frame before and however many moves were queued (with exact arithmetic;
    the delta is cleared first and every move adds its step). *)
Theorem camera_delta_published_is_displacement_within_the_write
  (w : World) (frame : Frame) (s : Device) (c : Assignment) :
  reachable s ->
  pendingFirstTouch s = None ->
  findByJob MOVE_CAMERA_JOB (assignments s) = Some c ->
  Forall (fun e => type e = touchmove) (events s) ->
  exists frame' s' c',
    write w frame s = (Normal frame', s')
    /\ findByJob MOVE_CAMERA_JOB (assignments s') = Some c'
    /\ touch c' = touch c
    /\ delta c'
       = Some (jsub (toNumber (a_clientX c')) (toNumber (a_clientX c)),
               jsub (toNumber (a_clientY c')) (toNumber (a_clientY c)))
    /\ frame' path_touchCameraDelta
       = Some (VArray2 (jsub (toNumber (a_clientX c')) (toNumber (a_clientX c)),
                        jsub (toNumber (a_clientY c')) (toNumber (a_clientY c)))).
Proof.
  intros R Hp Fc A. pose proof (reachable_deviceOk s R) as Ok.
  assert (P : panning s).
  { split; [exact Ok|]. split; [exact Hp|].
    rewrite jobIsAssigned_findByJob, Fc. reflexivity. }
  destruct (panning_cameraView s P) as [t [x [y [d V]]]].
  pose proof (cameraView_afterReset s t x y d V) as V0.
  assert (P0 : panning (afterReset s)).
  { split; [now apply deviceOk_afterReset|]. split; [exact Hp|].
    pose proof (resetDeltas_sameKeys s) as [_ Kj].
    rewrite (resetDeltas_eq s (proj2 Ok)) in Kj. cbn [snd] in Kj.
    rewrite (jobIsAssigned_keys _ _ _ Kj). apply P. }
  destruct (drain_moves_panning w (events s) (afterReset s) A P0) as [N [P1 A1]].
  destruct (forEach (events s) (process w) (afterReset s)) as [r s1] eqn:D.
  cbn [fst snd] in N, P1, A1. subst r.
  destruct A1 as [t0 [x0 [y0 [d0 [x1 [y1 [d1 [V0' [V1 [Dx Dy]]]]]]]]]].
  rewrite V0 in V0'. injection V0' as <- <- <- <-.
  cbn [fst snd] in Dx, Dy. rewrite jadd_0_l in Dx, Dy.
  assert (V2 : cameraView (afterPublish (set_events [] s1)) = Some (t, (x1, y1), d1)).
  { rewrite cameraView_afterPublish. exact V1. }
  unfold cameraView in V, V1, V2. rewrite Fc in V.
  destruct (delta c) as [dc|]; [|discriminate]. injection V as <- <- <- <-.
  destruct (findByJob MOVE_CAMERA_JOB (assignments (afterPublish (set_events [] s1))))
    as [c'|] eqn:Fc'; [|discriminate].
  destruct (delta c') as [dc'|] eqn:Hd'; [|discriminate]. injection V2 as E1 E2 E3 E4.
  cbn [assignments set_events] in V1.
  destruct (findByJob MOVE_CAMERA_JOB (assignments s1)) as [c1|] eqn:Fc1; [|discriminate].
  destruct (delta c1) as [dc1|] eqn:Hd1; [|discriminate]. injection V1 as F1 F2 F3 F4.
  exists (publishedFrame frame (set_events [] s1)), (afterPublish (set_events [] s1)), c'.
  split; [exact (write_eq w frame s s1 (proj2 Ok) D)|].
  split; [exact Fc'|]. split; [exact E1|].
  assert (Ed : dc' = (jsub (toNumber (a_clientX c')) (toNumber (a_clientX c)),
                      jsub (toNumber (a_clientY c')) (toNumber (a_clientY c)))).
  { rewrite E2, E3, E4. destruct d1 as [dx dy]. cbn [fst snd] in Dx, Dy. congruence. }
  split; [now rewrite Hd', Ed|].
  rewrite publishedFrame_touchCameraDelta. cbn [assignments set_events].
  rewrite Fc1, Hd1. cbn [ofOption]. rewrite F4, <- E4, Ed. reflexivity.
Qed.

End ExactCamera.

(** * The end of a cursor or camera touch *)

(** X12.  The end of a touch that moves the cursor or the camera (and is not
    the buffered one) removes that assignment and nothing else: the touch
    and its job are free again, every other job keeps its entry, and the
    pinch state is not touched; while other assignments remain, the pending
    tap and the scheduled tap index stay as they are. *)
Theorem end_of_a_cursor_or_camera_touch
  (w : World) (t : Touch) (s : Device) (a : Assignment) :
  reachable s ->
  isPendingFirstTouch t s = false ->
  findByTouch t (assignments s) = Some a ->
  job a = MOVE_CURSOR_JOB \/ job a = MOVE_CAMERA_JOB ->
  exists s',
    end_ w t s = (Normal tt, s')
    /\ removed a (assignments s) (assignments s')
    /\ touchIsAssigned t (assignments s') = false
    /\ jobIsAssigned (job a) (assignments s') = false
    /\ (forall j, j <> job a ->
          findByJob j (assignments s') = findByJob j (assignments s))
    /\ pinch s' = pinch s
    /\ (assignments s' <> [] ->
        pendingTap s' = pendingTap s
        /\ tapIndexToWriteNextFrame s' = tapIndexToWriteNextFrame s).
Proof.
  intros R Ep Ft Hj. destruct (reachable_deviceInv s R) as [W _].
  destruct (findByTouch_Some _ _ _ Ft) as [Hin Hs].
  pose proof (unassign_removed a _ (proj1 W) Hin) as Rm.
  eexists. split; [exact (end_single w t s a Ep Ft Hj)|].
  rewrite assignments_settlePendingTap. cbn [assignments set_assignments].
  split; [exact Rm|]. split.
  { rewrite (touchIsAssigned_same_id t (touch a)).
    - exact (removed_touch _ _ _ W Rm).
    - now symmetry. }
  split; [exact (removed_job _ _ _ W Rm)|].
  split; [intros j Nj; exact (findByJob_removed_other _ _ _ j Rm Nj)|].
  unfold settlePendingTap. cbn [assignments set_assignments].
  destruct (unassign (touch a) (job a) (assignments s)) as [|x l].
  - split; [|congruence].
    destruct (withinTapWindow w _); reflexivity.
  - split; [reflexivity|]. intros _. now split.
Qed.

(** * A quick tap *)

Lemma filter_fresh_timers (l : list Timer) (n : nat) :
  Forall (fun tm => (timerId tm < n)%nat) l ->
  filter (fun t => negb (Nat.eqb (timerId t) n)) l = l.
Proof.
  induction 1 as [|x l Hx F IH]; [reflexivity|]. simpl.
  assert (E : Nat.eqb (timerId x) n = false) by (apply Nat.eqb_neq; lia).
  rewrite E. simpl. now rewrite IH.
Qed.

Lemma find_fresh_timers (l : list Timer) (n m : nat) :
  Forall (fun tm => (timerId tm < n)%nat) l -> (n <= m)%nat ->
  find (fun t => Nat.eqb (timerId t) m) l = None.
Proof.
  induction 1 as [|x l Hx F IH]; intro L; [reflexivity|]. simpl.
  assert (E : Nat.eqb (timerId x) m = false) by (apply Nat.eqb_neq; lia).
  rewrite E. now apply IH.
Qed.

Lemma find_app_none {A : Type} (p : A -> bool) (l1 l2 : list A) :
  find p l1 = None -> find p (l1 ++ l2) = find p l2.
Proof.
  induction l1 as [|x l1 IH]; [reflexivity|]. simpl.
  destruct (p x); [discriminate | exact IH].
Qed.

(** The pending tap that the first assignment opens. *)
Lemma notePendingTap_first (w : World) (s : Device) (a : Assignment) :
  maxTouchCount (pendingTap s) = 0 -> assignments s = [a] ->
  notePendingTap w s
  = set_pendingTap {| maxTouchCount := 1; startedAt := Some (performance_now w) |} s.
Proof.
  intros Em Ea. unfold notePendingTap. rewrite Em, Ea. simpl.
  unfold set_pendingTap. simpl. rewrite ?Em, ?Ea. reflexivity.
Qed.

(** The device once a buffered first touch [t] has ended in the drain that
    buffered it: it moves the cursor, the pending tap counts one touch, the
    150 ms timer is unregistered and the [end] is registered to run again. *)
Definition afterQuickTap (w : World) (t : Touch) (s : Device) : Device :=
  set_timers
    (timers s ++ [{| timerId := S (nextTimerId s); timerDelay := 0;
                     timerTask := TaskEnd t |}])
    (S (S (nextTimerId s)))
    (set_firstTouchTimeout None
       (set_pendingFirstTouch None
          (set_pendingTap {| maxTouchCount := 1; startedAt := Some (performance_now w) |}
             (set_assignments [cursorEntry w t] s)))).

Lemma drain_quick_tap (w : World) (t : Touch) (ts ts' : list Touch) (s0 : Device) :
  sound s0 ->
  assignments s0 = [] ->
  pendingFirstTouch s0 = None ->
  events s0 = [{| type := touchstart; changedTouches := [t]; touches := ts |};
               {| type := touchend; changedTouches := [t]; touches := ts' |}] ->
  shouldDelayStartTouch w t = true ->
  forEach (events s0) (process w) s0 = (Normal tt, afterQuickTap w t s0).
Proof.
  intros So Ea Ep Ee Hd. rewrite Ee.
  change (forEach
            [{| type := touchstart; changedTouches := [t]; touches := ts |};
             {| type := touchend; changedTouches := [t]; touches := ts' |}]
            (process w) s0)
    with (bind (bind (start w t) (fun _ => ret tt))
            (fun _ => bind (bind (end_ w t) (fun _ => ret tt)) (fun _ => ret tt)) s0).
  unfold bind at 1. unfold bind at 1. rewrite (start_delay w t s0 Ep Hd).
  unfold ret at 1. unfold bind at 1. unfold bind at 1.
  pose proof (start_sound w t s0 So) as So1.
  rewrite (start_delay w t s0 Ep Hd) in So1. cbn [snd] in So1.
  remember (afterDelay t s0) as s1 eqn:S1.
  assert (Ep1 : pendingFirstTouch s1 = Some t) by (rewrite S1; reflexivity).
  assert (Ea1 : assignments s1 = []) by (rewrite S1; exact Ea).
  assert (Ip1 : isPendingFirstTouch t s1 = true).
  { unfold isPendingFirstTouch. rewrite Ep1. apply Z.eqb_refl. }
  rewrite (end_pending w t s1 Ip1).
  rewrite (redispatch_normal w true _ s1 t (proj1 (proj1 So1)) Ep1).
  unfold ret. f_equal.
  rewrite processTouchStart_cursor; [|now rewrite Ea1|now rewrite Ea1].
  cbn [snd]. rewrite Ea1. cbn [app].
  destruct So as [_ [[F _] [_ [_ [Em _]]]]].
  rewrite (notePendingTap_first w _ (cursorEntry w t)).
  2:{ rewrite S1. exact (Em Ea). }
  2:{ reflexivity. }
  rewrite S1. unfold setTimeout, afterClearPendingFirstTouch, afterDelay, afterQuickTap.
  cbn [snd firstTouchTimeout timers nextTimerId set_pendingTap set_assignments
       set_firstTouchTimeout set_timers set_pendingFirstTouch].
  rewrite filter_app, (filter_fresh_timers _ _ F). cbn [filter timerId].
  rewrite Nat.eqb_refl. cbn [negb]. rewrite app_nil_r. reflexivity.
Qed.

(** X13.  A quick tap: the touch-start and the touch-end of one finger that
    is not on a UI surface arrive in the same frame, on a device with no
    assignment and nothing buffered.  The write buffers the touch and then,
    at its end, resolves it at once with the cursor allowed on a
    non-interactable: the frame carries [isTouching], the cursor pose under
    the finger and [isTouchingGrabbable = false]; the 150 ms timer is
    unregistered and the end is registered to run again.  When that timer
    fires the cursor assignment is removed, and a one-finger tap is
    scheduled if at most 125 ms passed since the write. *)
Theorem quick_tap_moves_the_cursor_and_schedules_tap1
  (w w2 : World) (t : Touch) (ts ts' : list Touch) (frame : Frame) (s : Device) :
  reachable s ->
  assignments s = [] ->
  pendingFirstTouch s = None ->
  events s = [{| type := touchstart; changedTouches := [t]; touches := ts |};
              {| type := touchend; changedTouches := [t]; touches := ts' |}] ->
  shouldDelayStartTouch w t = true ->
  exists frame1 s1,
    write w frame s = (Normal frame1, s1)
    /\ frame1 path_isTouching = Some (VBool true)
    /\ frame1 path_cursorPose = Some (VPose (poseOfTouch w t))
    /\ frame1 path_isTouchingGrabbable = Some (VBool false)
    /\ map (fun a => (job a, touch a)) (assignments s1) = [(MOVE_CURSOR_JOB, t)]
    /\ pendingFirstTouch s1 = None
    /\ (forall tm, In tm (timers s1) -> timerTask tm <> TaskResolvePendingFirstTouch)
    /\ find (fun x => Nat.eqb (timerId x) (S (nextTimerId s))) (timers s1)
       = Some {| timerId := S (nextTimerId s); timerDelay := 0; timerTask := TaskEnd t |}
    /\ assignments (step (Fire w2 (S (nextTimerId s))) s1) = []
    /\ tapIndexToWriteNextFrame (step (Fire w2 (S (nextTimerId s))) s1)
       = if jleb (jsub (performance_now w2) (performance_now w)) (ofZ 125)
         then 1 else 0.
Proof.
  intros R Ea Ep Ee Hd. pose proof (reachable_sound s R) as So.
  pose proof (sound_afterReset s So) as So0.
  pose proof (assignments_afterReset_nil s Ea) as A0.
  assert (D : forEach (events s) (process w) (afterReset s)
              = (Normal tt, afterQuickTap w t (afterReset s))).
  { exact (drain_quick_tap w t ts ts' (afterReset s) So0 A0 Ep Ee Hd). }
  pose proof (write_eq w frame s _ (proj2 (proj1 So)) D) as Ew.
  pose proof (write_keepsSound w frame s So) as So1. rewrite Ew in So1. cbn [snd] in So1.
  remember (set_events [] (afterQuickTap w t (afterReset s))) as s0 eqn:S0.
  assert (As0 : assignments s0 = [cursorEntry w t]) by (rewrite S0; reflexivity).
  assert (Fc : findByJob MOVE_CURSOR_JOB (assignments s0) = Some (cursorEntry w t))
    by (rewrite As0; reflexivity).
  remember (afterPublish s0) as s1 eqn:S1.
  assert (As1 : assignments s1 = [with_isFirstFrame (Some false) (cursorEntry w t)]).
  { rewrite S1. unfold afterPublish. now rewrite Fc, As0. }
  assert (X : pendingFirstTouch s1 = None
              /\ timers s1 = timers s ++ [{| timerId := S (nextTimerId s); timerDelay := 0;
                                             timerTask := TaskEnd t |}]
              /\ pendingTap s1
                 = {| maxTouchCount := 1; startedAt := Some (performance_now w) |}
              /\ tapIndexToWriteNextFrame s1 = 0).
  { rewrite S1. unfold afterPublish. rewrite Fc, S0. now repeat split. }
  destruct X as [Ep1 [Et1 [Pt1 Ti1]]].
  exists (publishedFrame frame s0), s1.
  split; [exact Ew|].
  split; [rewrite publishedFrame_isTouching, As0; reflexivity|].
  split; [rewrite publishedFrame_cursorPose, Fc; reflexivity|].
  split; [rewrite (publishedFrame_grabbable frame s0 _ Fc); reflexivity|].
  split; [rewrite As1; reflexivity|].
  split; [exact Ep1|].
  destruct So1 as [_ [[F1 [N1 [R1 P1]]] _]].
  split.
  { intros tm Hin Hr. apply isResolve_task in Hr.
    destruct (R1 tm Hin Hr) as [_ X]. now apply X. }
  assert (Ef : find (fun x => Nat.eqb (timerId x) (S (nextTimerId s))) (timers s1)
               = Some {| timerId := S (nextTimerId s); timerDelay := 0;
                         timerTask := TaskEnd t |}).
  { rewrite Et1. rewrite find_app_none.
    - cbn [find timerId]. now rewrite Nat.eqb_refl.
    - destruct So as [_ [[F _] _]].
      apply (find_fresh_timers _ (nextTimerId s)); [exact F | lia]. }
  split; [exact Ef|].
  rewrite fire_eq, Ef. cbn [timerTask runTask].
  remember (withoutTimer (S (nextTimerId s)) s1) as s2 eqn:S2.
  assert (As2 : assignments s2 = [with_isFirstFrame (Some false) (cursorEntry w t)])
    by (rewrite S2; exact As1).
  assert (Ep2 : isPendingFirstTouch t s2 = false).
  { unfold isPendingFirstTouch. rewrite S2.
    cbn [pendingFirstTouch withoutTimer set_timers]. now rewrite Ep1. }
  assert (Ft2 : findByTouch t (assignments s2)
                = Some (with_isFirstFrame (Some false) (cursorEntry w t))).
  { rewrite As2. unfold findByTouch. cbn [find]. unfold sameTouch.
    cbn [touch with_isFirstFrame cursorEntry with_cursorPose newAssignment].
    now rewrite Z.eqb_refl. }
  rewrite (end_single w2 t s2 _ Ep2 Ft2 (or_introl eq_refl)). cbn [snd].
  rewrite assignments_settlePendingTap. cbn [assignments set_assignments].
  assert (U : unassign (touch (with_isFirstFrame (Some false) (cursorEntry w t)))
                (job (with_isFirstFrame (Some false) (cursorEntry w t))) (assignments s2)
              = []).
  { rewrite As2. cbn [unassign]. unfold sameTouch, hasJob.
    cbn [touch job with_isFirstFrame cursorEntry with_cursorPose newAssignment].
    rewrite Z.eqb_refl. reflexivity. }
  rewrite U. split; [reflexivity|].
  unfold settlePendingTap. cbn [assignments set_assignments pendingTap].
  assert (Pt2 : pendingTap s2
                = {| maxTouchCount := 1; startedAt := Some (performance_now w) |})
    by (rewrite S2; exact Pt1).
  assert (Ti2 : tapIndexToWriteNextFrame s2 = 0) by (rewrite S2; exact Ti1).
  rewrite Pt2. unfold withinTapWindow. cbn [maxTouchCount startedAt]. cbn [Z.ltb Z.compare andb].
  destruct (jleb (jsub (performance_now w2) (performance_now w)) (ofZ 125));
    [reflexivity | exact Ti2].
Qed.

(** * The current distance of the pinch *)

(** While both pinchers are assigned, the current distance of the pinch is
    the distance between the coordinates the two entries have stored. *)
Definition pinchSync (s : Device) : Prop :=
  forall f g,
    findByJob FIRST_PINCHER_JOB (assignments s) = Some f ->
    findByJob SECOND_PINCHER_JOB (assignments s) = Some g ->
    currentDistance (pinch s)
    = distance (toNumber (a_clientX f)) (toNumber (a_clientY f))
               (toNumber (a_clientX g)) (toNumber (a_clientY g)).

Lemma pinchSync_ext (s s' : Device) :
  assignments s' = assignments s -> pinch s' = pinch s -> pinchSync s -> pinchSync s'.
Proof. unfold pinchSync. intros -> ->. exact (fun X => X). Qed.

(** A step that leaves both pincher entries and the current distance alone. *)
Lemma pinchSync_same_pinchers (s s' : Device) :
  findByJob FIRST_PINCHER_JOB (assignments s')
  = findByJob FIRST_PINCHER_JOB (assignments s) ->
  findByJob SECOND_PINCHER_JOB (assignments s')
  = findByJob SECOND_PINCHER_JOB (assignments s) ->
  currentDistance (pinch s') = currentDistance (pinch s) ->
  pinchSync s -> pinchSync s'.
Proof. unfold pinchSync. intros -> -> ->. exact (fun X => X). Qed.

Lemma pinchSync_no_second (s : Device) :
  jobIsAssigned SECOND_PINCHER_JOB (assignments s) = false -> pinchSync s.
Proof.
  intros N f g _ Fg. rewrite jobIsAssigned_findByJob, Fg in N. discriminate.
Qed.

Lemma findByJob_push_other (j : Job) (l : list Assignment) (a : Assignment) :
  job a <> j -> findByJob j (l ++ [a]) = findByJob j l.
Proof.
  intro N. unfold findByJob. induction l as [|x l IH]; simpl.
  - unfold hasJob. now rewrite (Job_eqb_neq _ _ N).
  - destruct (hasJob j x); [reflexivity | exact IH].
Qed.

Lemma pinch_settlePendingTap (w : World) s : pinch (settlePendingTap w s) = pinch s.
Proof.
  unfold settlePendingTap. destruct (assignments s); [|reflexivity].
  destruct (withinTapWindow w (pendingTap s)); reflexivity.
Qed.

Lemma processTouchStart_pinchSync (w : World) t allow (s : Device) :
  deviceInv s -> pinchSync s -> pinchSync (snd (processTouchStart w t allow s)).
Proof.
  intros Hinv Sy. pose proof Hinv as [W I].
  destruct (touchIsAssigned t (assignments s)) eqn:Et.
  { rewrite processTouchStart_assigned by assumption. now apply (pinchSync_ext s). }
  destruct (negb (jobIsAssigned FIRST_PINCHER_JOB (assignments s))
            && negb (jobIsAssigned MOVE_CURSOR_JOB (assignments s))
            && (allow || isCursorOverInteractable w t)) eqn:C1.
  { rewrite processTouchStart_cursor by assumption. cbn [snd].
    apply (pinchSync_same_pinchers s); try assumption;
      rewrite ?assignments_notePendingTap, ?pinch_notePendingTap;
      cbn [assignments set_assignments pinch];
      try reflexivity; apply findByJob_push_other; discriminate. }
  destruct (negb (jobIsAssigned FIRST_PINCHER_JOB (assignments s))
            && negb (jobIsAssigned MOVE_CAMERA_JOB (assignments s))) eqn:C2.
  { rewrite processTouchStart_camera by assumption. cbn [snd].
    apply (pinchSync_same_pinchers s); try assumption;
      rewrite ?assignments_notePendingTap, ?pinch_notePendingTap;
      cbn [assignments set_assignments pinch];
      try reflexivity; apply findByJob_push_other; discriminate. }
  destruct (jobIsAssigned SECOND_PINCHER_JOB (assignments s)) eqn:Es.
  { rewrite processTouchStart_dropped by assumption. cbn [snd].
    apply (pinchSync_same_pinchers s); try assumption;
      rewrite ?assignments_notePendingTap, ?pinch_notePendingTap; reflexivity. }
  destruct (jobIsAssigned FIRST_PINCHER_JOB (assignments s)) eqn:Ef.
  { destruct (findByJob_assigned _ _ Ef) as [first Ff].
    rewrite (processTouchStart_second w t allow s first) by assumption. cbn [snd].
    intros f g. rewrite assignments_notePendingTap, pinch_notePendingTap.
    cbn [assignments set_assignments set_pinch pinch].
    rewrite findByJob_push_other by discriminate.
    rewrite (findByJob_push_fresh SECOND_PINCHER_JOB _
               (pincherEntry SECOND_PINCHER_JOB t (Some (clientX t)) (Some (clientY t)))
               Es eq_refl).
    rewrite Ff. intros Hf Hg. injection Hf as <-. injection Hg as <-. reflexivity. }
  simpl in C1, C2. apply negb_false_iff in C2.
  destruct (findByJob_assigned _ _ C2) as [cm Fc].
  rewrite (processTouchStart_promote w t allow s cm) by assumption. cbn [snd].
  destruct (findByJob_Some _ _ _ Fc) as [Hin Hj].
  pose proof (unassign_removed cm _ (proj1 W) Hin) as Rm. rewrite Hj in Rm.
  assert (F1 : jobIsAssigned FIRST_PINCHER_JOB
                 (unassign (touch cm) MOVE_CAMERA_JOB (assignments s)) = false).
  { rewrite (removed_other_job _ _ _ FIRST_PINCHER_JOB Rm); [assumption|congruence]. }
  assert (S1 : jobIsAssigned SECOND_PINCHER_JOB
                 (unassign (touch cm) MOVE_CAMERA_JOB (assignments s)
                    ++ [pincherEntry FIRST_PINCHER_JOB (touch cm)
                          (a_clientX cm) (a_clientY cm)]) = false).
  { rewrite jobIsAssigned_app.
    rewrite (removed_other_job _ _ _ SECOND_PINCHER_JOB Rm); [|congruence].
    now rewrite Es. }
  intros f g. rewrite assignments_notePendingTap, pinch_notePendingTap.
  cbn [assignments set_assignments set_pinch pinch].
  rewrite findByJob_push_other by discriminate.
  rewrite (findByJob_push_fresh FIRST_PINCHER_JOB _
             (pincherEntry FIRST_PINCHER_JOB (touch cm) (a_clientX cm) (a_clientY cm))
             F1 eq_refl).
  rewrite (findByJob_push_fresh SECOND_PINCHER_JOB _
             (pincherEntry SECOND_PINCHER_JOB t (Some (clientX t)) (Some (clientY t)))
             S1 eq_refl).
  intros Hf Hg. injection Hf as <-. injection Hg as <-. reflexivity.
Qed.

Lemma second_gone_endFirstTable (a : Assignment) l :
  wfTable l -> In a l -> job a = FIRST_PINCHER_JOB ->
  jobIsAssigned SECOND_PINCHER_JOB (endFirstTable a l) = false.
Proof.
  intros W Hin Hj. unfold endFirstTable.
  pose proof (unassign_removed a _ (proj1 W) Hin) as Rm. rewrite Hj in Rm.
  pose proof (removed_wfTable _ _ _ W Rm) as W1.
  destruct (findByJob SECOND_PINCHER_JOB l) as [second|] eqn:Fs.
  - assert (Fs1 : findByJob SECOND_PINCHER_JOB
                    (unassign (touch a) FIRST_PINCHER_JOB l) = Some second).
    { rewrite (findByJob_removed_other _ _ _ SECOND_PINCHER_JOB Rm) by congruence.
      exact Fs. }
    destruct (findByJob_Some _ _ _ Fs1) as [Hs1 Hjs].
    pose proof (unassign_removed second _ (proj1 W1) Hs1) as Rm2. rewrite Hjs in Rm2.
    rewrite jobIsAssigned_app.
    pose proof (removed_job _ _ _ W1 Rm2) as S2. rewrite Hjs in S2. rewrite S2.
    destruct (jobIsAssigned MOVE_CAMERA_JOB l); reflexivity.
  - rewrite (removed_other_job _ _ _ SECOND_PINCHER_JOB Rm) by congruence.
    now apply findByJob_None.
Qed.

Lemma second_gone_endSecondTable (a : Assignment) l :
  wfTable l -> In a l -> job a = SECOND_PINCHER_JOB ->
  jobIsAssigned SECOND_PINCHER_JOB (endSecondTable a l) = false.
Proof.
  intros W Hin Hj. unfold endSecondTable.
  pose proof (unassign_removed a _ (proj1 W) Hin) as Rm. rewrite Hj in Rm.
  pose proof (removed_wfTable _ _ _ W Rm) as W1.
  assert (S1 : jobIsAssigned SECOND_PINCHER_JOB
                 (unassign (touch a) SECOND_PINCHER_JOB l) = false).
  { pose proof (removed_job _ _ _ W Rm) as X. now rewrite Hj in X. }
  destruct (findByJob FIRST_PINCHER_JOB l) as [first|] eqn:Ff; [|exact S1].
  destruct (jobIsAssigned MOVE_CAMERA_JOB l); [exact S1|].
  assert (Ff1 : findByJob FIRST_PINCHER_JOB
                  (unassign (touch a) SECOND_PINCHER_JOB l) = Some first).
  { rewrite (findByJob_removed_other _ _ _ FIRST_PINCHER_JOB Rm) by congruence.
    exact Ff. }
  destruct (findByJob_Some _ _ _ Ff1) as [Hf1 Hjf].
  pose proof (unassign_removed first _ (proj1 W1) Hf1) as Rm2. rewrite Hjf in Rm2.
  rewrite jobIsAssigned_app.
  rewrite (removed_other_job _ _ _ SECOND_PINCHER_JOB Rm2) by congruence.
  now rewrite S1.
Qed.

Lemma end_settled_pinchSync (w : World) t s :
  isPendingFirstTouch t s = false -> deviceOk s -> pinchSync s ->
  pinchSync (snd (end_ w t s)).
Proof.
  intros Ep Ok Sy. pose proof Ok as [[W I] F].
  destruct (touchIsAssigned t (assignments s)) eqn:Et.
  - destruct (findByTouch_assigned _ _ Et) as [a Ft].
    destruct (findByTouch_Some _ _ _ Ft) as [Hin _].
    assert (Single : job a = MOVE_CURSOR_JOB \/ job a = MOVE_CAMERA_JOB ->
                     pinchSync (snd (end_ w t s))).
    { intro Hj. rewrite (end_single w t s a Ep Ft Hj). cbn [snd].
      pose proof (unassign_removed a _ (proj1 W) Hin) as Rm.
      apply (pinchSync_same_pinchers s); try assumption;
        rewrite ?assignments_settlePendingTap, ?pinch_settlePendingTap;
        cbn [assignments set_assignments pinch]; try reflexivity;
        apply (findByJob_removed_other _ _ _ _ Rm); destruct Hj; congruence. }
    destruct (job a) eqn:Hj.
    + apply Single. now left.
    + apply Single. now right.
    + rewrite (end_first w t s a W Ep Ft Hj). cbn [snd].
      apply pinchSync_no_second. rewrite assignments_settlePendingTap.
      cbn [assignments set_assignments]. now apply second_gone_endFirstTable.
    + rewrite (end_second w t s a W Ep Ft Hj). cbn [snd].
      apply pinchSync_no_second. rewrite assignments_settlePendingTap.
      cbn [assignments set_assignments]. now apply second_gone_endSecondTable.
  - rewrite (end_unassigned w t s Ep Et). cbn [snd].
    apply (pinchSync_ext s); [| |exact Sy].
    + now rewrite assignments_settlePendingTap.
    + now rewrite pinch_settlePendingTap.
Qed.

Lemma redispatch_pinchSync (w : World) allow task s p :
  deviceInv s -> pinchSync s ->
  pinchSync (snd (setTimeout task 0
                    (afterClearPendingFirstTouch (snd (processTouchStart w p allow s))))).
Proof.
  intros I Sy. pose proof (processTouchStart_pinchSync w p allow s I Sy) as Sy1.
  remember (snd (processTouchStart w p allow s)) as s1 eqn:S1.
  apply (pinchSync_ext s1); [| |exact Sy1].
  - now rewrite assignments_setTimeout, assignments_afterClearPendingFirstTouch.
  - now rewrite pinch_setTimeout, pinch_afterClearPendingFirstTouch.
Qed.

Lemma end_pinchSync (w : World) t s :
  deviceOk s -> pinchSync s -> pinchSync (snd (end_ w t s)).
Proof.
  intros Ok Sy. destruct (isPendingFirstTouch t s) eqn:Ep.
  - destruct (isPendingFirstTouch_true t s Ep) as [p [Hp _]].
    rewrite (end_pending w t s Ep).
    rewrite (redispatch_normal w true _ s p (proj1 Ok) Hp). cbn [snd].
    apply redispatch_pinchSync; [apply Ok | exact Sy].
  - now apply end_settled_pinchSync.
Qed.

Lemma move_nonpincher_pinch (w : World) t s a :
  isPendingFirstTouch t s = false ->
  findByTouch t (assignments s) = Some a ->
  job a = MOVE_CURSOR_JOB \/ job a = MOVE_CAMERA_JOB ->
  pinch (snd (move w t s)) = pinch s.
Proof.
  intros Ep Ft Hj. unfold move, bind, gets. rewrite Ep. simpl.
  rewrite (findByTouch_touchIsAssigned _ _ _ Ft). simpl. rewrite Ft. simpl.
  destruct Hj as [Hj|Hj]; rewrite Hj.
  - destruct (cursorPose a); reflexivity.
  - destruct (delta a); reflexivity.
Qed.

Lemma move_settled_pinchSync (w : World) t s :
  isPendingFirstTouch t s = false -> deviceOk s -> pinchSync s ->
  pinchSync (snd (move w t s)).
Proof.
  intros Ep Ok Sy.
  destruct (touchIsAssigned t (assignments s)) eqn:Et.
  2:{ apply (pinchSync_ext s); [| |exact Sy];
        unfold move, bind, gets; rewrite Ep; simpl; rewrite Et; simpl;
        destruct (notVirtualGamepadControl t); reflexivity. }
  destruct (findByTouch_assigned _ _ Et) as [a Ft].
  destruct (findByTouch_Some _ _ _ Ft) as [Hin _].
  assert (Pincher : job a = FIRST_PINCHER_JOB \/ job a = SECOND_PINCHER_JOB ->
                    pinchSync (snd (move w t s))).
  { intro Hj.
    destruct (findByJob FIRST_PINCHER_JOB
                (updateFirst (sameTouch t)
                   (with_client (Some (clientX t)) (Some (clientY t))) (assignments s)))
      as [first|] eqn:Ff;
      [destruct (findByJob SECOND_PINCHER_JOB
                   (updateFirst (sameTouch t)
                      (with_client (Some (clientX t)) (Some (clientY t))) (assignments s)))
         as [second|] eqn:Fs|].
    - rewrite (move_pincher w t s a first second Ep Ft Hj Ff Fs). cbn [snd].
      intros f g. cbn [assignments set_assignments set_pinch pinch].
      rewrite Ff, Fs. intros Hf Hg. injection Hf as <-. injection Hg as <-. reflexivity.
    - apply pinchSync_no_second.
      pose proof (move_sameKeys w t s Ep) as [_ Kj].
      rewrite (jobIsAssigned_keys _ _ _ Kj).
      rewrite <- (jobIsAssigned_keys SECOND_PINCHER_JOB _ _
                    (jobsOf_updateFirst (sameTouch t) _ (assignments s)
                       (keepsKeys_with_client (Some (clientX t)) (Some (clientY t))))).
      now rewrite jobIsAssigned_findByJob, Fs.
    - intros f g Hf _. exfalso.
      pose proof (move_sameKeys w t s Ep) as [_ Kj].
      assert (X : jobIsAssigned FIRST_PINCHER_JOB (assignments (snd (move w t s))) = false).
      { rewrite (jobIsAssigned_keys _ _ _ Kj).
        rewrite <- (jobIsAssigned_keys FIRST_PINCHER_JOB _ _
                      (jobsOf_updateFirst (sameTouch t) _ (assignments s)
                         (keepsKeys_with_client (Some (clientX t)) (Some (clientY t))))).
        now rewrite jobIsAssigned_findByJob, Ff. }
      rewrite jobIsAssigned_findByJob, Hf in X. discriminate. }
  destruct (job a) eqn:Hj.
  - assert (Nj : job a <> MOVE_CAMERA_JOB) by congruence.
    destruct (move_other_table w t s a Ok Ep Ft Nj) as [f [K [_ Ea]]].
    apply (pinchSync_same_pinchers s); try assumption.
    + rewrite Ea. apply (findByJob_updateFirst_miss _ f _ _ a K Ft). congruence.
    + rewrite Ea. apply (findByJob_updateFirst_miss _ f _ _ a K Ft). congruence.
    + now rewrite (move_nonpincher_pinch w t s a Ep Ft (or_introl Hj)).
  - pose proof (In_entryOk _ _ (proj2 Ok) Hin) as Oa. unfold entryOk in Oa.
    rewrite Hj in Oa. destruct (delta a) as [d|] eqn:Hd; [|congruence].
    pose proof (move_nonpincher_pinch w t s a Ep Ft (or_intror Hj)) as Pp.
    rewrite (move_camera w t s a d Ep Ft Hj Hd) in *. cbn [snd] in *.
    assert (Ft' : find (sameTouch t)
                    (updateFirst (sameTouch t)
                       (with_delta
                          (Some (jadd (fst d) (jsub (clientX t) (toNumber (a_clientX a))),
                                 jadd (snd d) (jsub (clientY t) (toNumber (a_clientY a))))))
                       (assignments s))
                  = Some (with_delta
                            (Some (jadd (fst d) (jsub (clientX t) (toNumber (a_clientX a))),
                                   jadd (snd d) (jsub (clientY t) (toNumber (a_clientY a)))))
                            a)).
    { apply find_updateFirst_same; [apply keepsKeys_with_delta | exact Ft]. }
    apply (pinchSync_same_pinchers s); try assumption;
      cbn [assignments set_assignments pinch]; try reflexivity.
    + rewrite (findByJob_updateFirst_miss _ _ _ _ _
                 (keepsKeys_with_client (Some (clientX t)) (Some (clientY t))) Ft')
        by (cbn [job with_delta]; congruence).
      apply (findByJob_updateFirst_miss _ _ _ _ a (keepsKeys_with_delta _) Ft). congruence.
    + rewrite (findByJob_updateFirst_miss _ _ _ _ _
                 (keepsKeys_with_client (Some (clientX t)) (Some (clientY t))) Ft')
        by (cbn [job with_delta]; congruence).
      apply (findByJob_updateFirst_miss _ _ _ _ a (keepsKeys_with_delta _) Ft). congruence.
  - apply Pincher. now left.
  - apply Pincher. now right.
Qed.

Lemma move_pinchSync (w : World) t s :
  deviceOk s -> pinchSync s -> pinchSync (snd (move w t s)).
Proof.
  intros Ok Sy. destruct (isPendingFirstTouch t s) eqn:Ep.
  - destruct (isPendingFirstTouch_true t s Ep) as [p [Hp _]].
    rewrite (move_pending w t s Ep).
    rewrite (redispatch_normal w false _ s p (proj1 Ok) Hp). cbn [snd].
    apply redispatch_pinchSync; [apply Ok | exact Sy].
  - now apply move_settled_pinchSync.
Qed.

Lemma start_pinchSync (w : World) t s :
  deviceOk s -> pinchSync s -> pinchSync (snd (start w t s)).
Proof.
  intros Ok Sy. pose proof Ok as [[W I] F].
  destruct (pendingFirstTouch s) as [p|] eqn:Ep.
  - destruct (touchIsAssigned p (assignments s)
              || jobIsAssigned FIRST_PINCHER_JOB (assignments s)) eqn:E.
    + now rewrite (start_flush_throws w t s p Ep E).
    + apply orb_false_iff in E. destruct E as [Et Ef].
      rewrite (start_flush w t s p Ep Et Ef).
      assert (Es : jobIsAssigned SECOND_PINCHER_JOB (assignments s) = false).
      { destruct (jobIsAssigned SECOND_PINCHER_JOB (assignments s)) eqn:X;
          [|reflexivity]. rewrite (I eq_refl) in Ef. discriminate. }
      apply processTouchStart_pinchSync.
      * unfold deviceInv. rewrite assignments_afterClearPendingFirstTouch.
        cbn [assignments set_assignments].
        apply tableInv_push; simpl; try assumption; [now split | discriminate].
      * apply pinchSync_no_second. rewrite assignments_afterClearPendingFirstTouch.
        cbn [assignments set_assignments]. rewrite jobIsAssigned_app, Es. reflexivity.
  - destruct (shouldDelayStartTouch w t) eqn:Ed.
    + rewrite (start_delay w t s Ep Ed). cbn [snd]. now apply (pinchSync_ext s).
    + rewrite (start_immediate w t s Ep Ed).
      apply processTouchStart_pinchSync; [apply Ok | exact Sy].
Qed.

(** The device satisfies its invariants and its pinch is in sync. *)
Definition synced (s : Device) : Prop := sound s /\ pinchSync s.

Definition keepsSynced (s s' : Device) : Prop := synced s -> synced s'.

Lemma keepsSynced_refl s : keepsSynced s s.
Proof. now intro. Qed.

Lemma keepsSynced_trans s1 s2 s3 :
  keepsSynced s1 s2 -> keepsSynced s2 s3 -> keepsSynced s1 s3.
Proof. unfold keepsSynced. auto. Qed.

Lemma process_keepsSynced (w : World) event : respects keepsSynced (process w event).
Proof.
  unfold process. destruct (type event);
    apply (respects_forEach _ keepsSynced_refl keepsSynced_trans); intros t s [So Sy];
    (split; [|]).
  - exact (start_sound w t s So).
  - exact (start_pinchSync w t s (proj1 So) Sy).
  - exact (end_sound w t s So).
  - exact (end_pinchSync w t s (proj1 So) Sy).
  - exact (move_sound w t s So).
  - exact (move_pinchSync w t s (proj1 So) Sy).
  - exact (end_sound w t s So).
  - exact (end_pinchSync w t s (proj1 So) Sy).
Qed.

Lemma pinchSync_afterReset s : pinchSync s -> pinchSync (afterReset s).
Proof.
  intro Sy. apply (pinchSync_same_pinchers s); try assumption; try reflexivity;
    unfold afterReset; cbn [assignments set_assignments set_pinch];
    destruct (findByJob MOVE_CAMERA_JOB (assignments s)); try reflexivity;
    apply findByJob_updateFirst_other; try apply keepsKeys_with_delta; discriminate.
Qed.

Lemma pinchSync_afterPublish s : pinchSync s -> pinchSync (afterPublish s).
Proof.
  intro Sy. apply (pinchSync_same_pinchers s); try assumption;
    rewrite ?pinch_afterPublish; try reflexivity;
    unfold afterPublish; destruct (findByJob MOVE_CURSOR_JOB (assignments s));
    try reflexivity; cbn [assignments set_assignments set_tapIndexToWriteNextFrame];
    apply findByJob_updateFirst_other; try apply keepsKeys_with_isFirstFrame;
    discriminate.
Qed.

Lemma synced_drained (w : World) s s1 :
  synced s ->
  forEach (events s) (process w) (afterReset s) = (Normal tt, s1) ->
  synced (set_events [] s1).
Proof.
  intros [So Sy] D.
  assert (S0 : synced (afterReset s))
    by (split; [now apply sound_afterReset | now apply pinchSync_afterReset]).
  pose proof (respects_forEach _ keepsSynced_refl keepsSynced_trans (events s) (process w)
                (process_keepsSynced w) (afterReset s) S0) as K.
  rewrite D in K. destruct K as [So1 Sy1].
  split; [now apply sound_set_events | now apply (pinchSync_ext s1)].
Qed.

Lemma write_keepsSynced (w : World) frame : respects keepsSynced (write w frame).
Proof.
  intros s Sd. pose proof Sd as [So Sy]. unfold write, drain. unfold bind, gets, modify.
  rewrite (resetDeltas_eq s (proj2 (proj1 So))).
  assert (S0 : synced (afterReset s))
    by (split; [now apply sound_afterReset | now apply pinchSync_afterReset]).
  pose proof (respects_forEach _ keepsSynced_refl keepsSynced_trans
                (events (afterReset s)) (process w)
                (process_keepsSynced w) (afterReset s) S0) as K.
  destruct (forEach (events (afterReset s)) (process w) (afterReset s)) as [[u|e] s1];
    cbn [fst snd] in *; [|exact K].
  rewrite publish_eq. cbn [snd]. destruct K as [So1 Sy1]. split.
  - now apply sound_afterPublish, sound_set_events.
  - apply pinchSync_afterPublish. now apply (pinchSync_ext s1).
Qed.

Lemma fire_pinchSync (w : World) id s : synced s -> pinchSync (step (Fire w id) s).
Proof.
  intros [So Sy]. rewrite fire_eq.
  destruct (find (fun t => Nat.eqb (timerId t) id) (timers s)) as [tm|] eqn:Ef;
    [|exact Sy].
  assert (Ok' : deviceOk (withoutTimer id s))
    by (apply (deviceOk_ext s); [reflexivity | apply So]).
  assert (Sy' : pinchSync (withoutTimer id s)) by now apply (pinchSync_ext s).
  destruct (isResolve tm) eqn:Hr.
  - destruct (resolve_fired w id s tm So Ef Hr) as [p [Hp [Eh E]]]. rewrite E. cbn [snd].
    pose proof (processTouchStart_pinchSync w p false _ (proj1 Ok') Sy') as Sy1.
    now apply (pinchSync_ext (snd (processTouchStart w p false (withoutTimer id s)))).
  - unfold isResolve in Hr. destruct (timerTask tm); try discriminate; simpl.
    + now apply end_pinchSync.
    + now apply move_pinchSync.
Qed.

Lemma step_synced op s : synced s -> synced (step op s).
Proof.
  intro Sd. pose proof Sd as [So Sy]. destruct op as [event|w frame|w id].
  - split; [now apply sound_set_events | now apply (pinchSync_ext s)].
  - now apply write_keepsSynced.
  - split; [now apply fire_sound | now apply fire_pinchSync].
Qed.

Lemma reachable_synced s : reachable s -> synced s.
Proof.
  induction 1 as [|op s R IH]; [|now apply step_synced].
  split; [apply sound_constructor|]. intros f g Hf. discriminate.
Qed.

(** X15.  In every reachable state in which both pinchers are assigned, the
    current distance of the pinch is the distance between the coordinates
    the two pincher entries have stored (those of their touch-start or of
    their last move); so the current distance that a frame write publishes
    while both pinchers are assigned is that of the fingers' last positions,
    however the pinch came about (two new touches, a promoted camera touch,
    a flushed first touch) and whatever moved since. *)
Theorem pinch_current_distance_is_the_distance_of_the_pinchers (s : Device) :
  reachable s ->
  (forall f g,
      findByJob FIRST_PINCHER_JOB (assignments s) = Some f ->
      findByJob SECOND_PINCHER_JOB (assignments s) = Some g ->
      currentDistance (pinch s)
      = distance (toNumber (a_clientX f)) (toNumber (a_clientY f))
                 (toNumber (a_clientX g)) (toNumber (a_clientY g)))
  /\ forall (w : World) (frame frame' : Frame) (s' : Device) f g,
       write w frame s = (Normal frame', s') ->
       findByJob FIRST_PINCHER_JOB (assignments s') = Some f ->
       findByJob SECOND_PINCHER_JOB (assignments s') = Some g ->
       frame' path_pinch_currentDistance
       = Some (VNumber (distance (toNumber (a_clientX f)) (toNumber (a_clientY f))
                                 (toNumber (a_clientX g)) (toNumber (a_clientY g)))).
Proof.
  intro R. pose proof (reachable_synced s R) as [So Sy].
  split; [exact Sy|].
  intros w frame frame' s' f g E Hf Hg.
  destruct (write_returns_inv w frame s frame' s' (proj2 (proj1 So)) E)
    as [s1 [D [Ef Es]]].
  pose proof (synced_drained w s s1 (conj So Sy) D) as [_ Sy1].
  pose proof (pinchSync_afterPublish _ Sy1) as Sy2. rewrite <- Es in Sy2.
  rewrite Ef. rewrite (proj2 (publishedFrame_pinch_distances frame (set_events [] s1))).
  rewrite <- (Sy2 f g Hf Hg). rewrite Es, pinch_afterPublish. reflexivity.
Qed.

(** * A touch keeps a job until it ends *)

(** The identifiers of the touches that an event ends. *)
Definition endedIds (e : TouchEvent) : list Z :=
  match type e with
  | touchend | touchcancel => map identifier (changedTouches e)
  | _ => []
  end.

(** From [s] to [s'] the invariants are kept, and so is the assignment of
    every touch whose identifier is not in [ids]. *)
Definition keepsTouchesBut (ids : list Z) (s s' : Device) : Prop :=
  deviceOk s ->
  deviceOk s'
  /\ forall t', ~ In (identifier t') ids ->
                touchIsAssigned t' (assignments s) = true ->
                touchIsAssigned t' (assignments s') = true.

Lemma keepsTouchesBut_refl ids s : keepsTouchesBut ids s s.
Proof. intro Ok. now split. Qed.

Lemma keepsTouchesBut_trans ids s1 s2 s3 :
  keepsTouchesBut ids s1 s2 -> keepsTouchesBut ids s2 s3 -> keepsTouchesBut ids s1 s3.
Proof.
  intros A B Ok1. destruct (A Ok1) as [Ok2 K1]. destruct (B Ok2) as [Ok3 K2].
  split; [exact Ok3|]. intros t' N E. apply K2; [exact N|]. now apply K1.
Qed.

Lemma keepsTouchesBut_more ids ids' s s' :
  (forall i, In i ids -> In i ids') ->
  keepsTouchesBut ids s s' -> keepsTouchesBut ids' s s'.
Proof.
  intros Sub A Ok. destruct (A Ok) as [Ok' K]. split; [exact Ok'|].
  intros t' N. apply K. intro X. apply N, Sub, X.
Qed.

Lemma keepsTouchesBut_sameTable ids s s' :
  assignments s' = assignments s -> keepsTouchesBut ids s s'.
Proof.
  intros E Ok. split; [now apply (deviceOk_ext s)|]. intros t' _. now rewrite E.
Qed.

Lemma removed_touch_kept a l l' t' :
  removed a l l' -> touchIsAssigned t' l = true ->
  touchIsAssigned t' l' = true \/ sameTouch t' a = true.
Proof.
  intros [l1 [l2 [-> ->]]]. rewrite !touchIsAssigned_app.
  change (touchIsAssigned t' (a :: l2)) with (sameTouch t' a || touchIsAssigned t' l2).
  destruct (touchIsAssigned t' l1), (sameTouch t' a), (touchIsAssigned t' l2);
    simpl; auto.
Qed.

(** An entry is taken out and one for the same touch is put at the end. *)
Lemma reassigned_touch_kept a x l l' t' :
  removed a l l' -> touch x = touch a ->
  touchIsAssigned t' l = true -> touchIsAssigned t' (l' ++ [x]) = true.
Proof.
  intros Rm Et E. rewrite touchIsAssigned_app.
  destruct (removed_touch_kept a l l' t' Rm E) as [K|K]; [now rewrite K|].
  simpl. unfold sameTouch in *. rewrite Et, K. now rewrite orb_true_r.
Qed.

Lemma processTouchStart_keepsTouches (w : World) t allow (s : Device) :
  deviceInv s ->
  forall t', touchIsAssigned t' (assignments s) = true ->
             touchIsAssigned t' (assignments (snd (processTouchStart w t allow s))) = true.
Proof.
  intros Hinv t' E. pose proof Hinv as [W I].
  destruct (touchIsAssigned t (assignments s)) eqn:Et.
  { now rewrite processTouchStart_assigned by assumption. }
  destruct (negb (jobIsAssigned FIRST_PINCHER_JOB (assignments s))
            && negb (jobIsAssigned MOVE_CURSOR_JOB (assignments s))
            && (allow || isCursorOverInteractable w t)) eqn:C1.
  { rewrite processTouchStart_cursor by assumption. cbn [snd].
    rewrite assignments_notePendingTap. cbn [assignments set_assignments].
    now rewrite touchIsAssigned_app, E. }
  destruct (negb (jobIsAssigned FIRST_PINCHER_JOB (assignments s))
            && negb (jobIsAssigned MOVE_CAMERA_JOB (assignments s))) eqn:C2.
  { rewrite processTouchStart_camera by assumption. cbn [snd].
    rewrite assignments_notePendingTap. cbn [assignments set_assignments].
    now rewrite touchIsAssigned_app, E. }
  destruct (jobIsAssigned SECOND_PINCHER_JOB (assignments s)) eqn:Es.
  { rewrite processTouchStart_dropped by assumption. cbn [snd].
    now rewrite assignments_notePendingTap. }
  destruct (jobIsAssigned FIRST_PINCHER_JOB (assignments s)) eqn:Ef.
  { destruct (findByJob_assigned _ _ Ef) as [first Ff].
    rewrite (processTouchStart_second w t allow s first) by assumption. cbn [snd].
    rewrite assignments_notePendingTap. cbn [assignments set_assignments set_pinch].
    now rewrite touchIsAssigned_app, E. }
  simpl in C1, C2. apply negb_false_iff in C2.
  destruct (findByJob_assigned _ _ C2) as [cm Fc].
  rewrite (processTouchStart_promote w t allow s cm) by assumption. cbn [snd].
  rewrite assignments_notePendingTap. cbn [assignments set_assignments set_pinch].
  destruct (findByJob_Some _ _ _ Fc) as [Hin Hj].
  pose proof (unassign_removed cm _ (proj1 W) Hin) as Rm. rewrite Hj in Rm.
  rewrite touchIsAssigned_app.
  rewrite (reassigned_touch_kept cm
             (pincherEntry FIRST_PINCHER_JOB (touch cm) (a_clientX cm) (a_clientY cm))
             _ _ t' Rm eq_refl E).
  reflexivity.
Qed.

Lemma processTouchStart_keepsTouchesBut (w : World) t allow ids (s : Device) :
  keepsTouchesBut ids s (snd (processTouchStart w t allow s)).
Proof.
  intro Ok. split; [now apply processTouchStart_keepsOk|].
  intros t' _. apply processTouchStart_keepsTouches, Ok.
Qed.

Lemma redispatch_keepsTouchesBut (w : World) allow task ids s p :
  keepsTouchesBut ids s
    (snd (setTimeout task 0
            (afterClearPendingFirstTouch (snd (processTouchStart w p allow s))))).
Proof.
  eapply keepsTouchesBut_trans; [apply (processTouchStart_keepsTouchesBut w p allow)|].
  apply keepsTouchesBut_sameTable.
  now rewrite assignments_setTimeout, assignments_afterClearPendingFirstTouch.
Qed.

Lemma endFirstTable_keepsTouches (a : Assignment) l t' :
  wfTable l -> In a l -> job a = FIRST_PINCHER_JOB ->
  sameTouch t' a = false ->
  touchIsAssigned t' l = true -> touchIsAssigned t' (endFirstTable a l) = true.
Proof.
  intros W Hin Hj Ne E. unfold endFirstTable.
  pose proof (unassign_removed a _ (proj1 W) Hin) as Rm. rewrite Hj in Rm.
  pose proof (removed_wfTable _ _ _ W Rm) as W1.
  assert (E1 : touchIsAssigned t' (unassign (touch a) FIRST_PINCHER_JOB l) = true).
  { destruct (removed_touch_kept a _ _ t' Rm E) as [K|K]; [exact K | congruence]. }
  destruct (findByJob SECOND_PINCHER_JOB l) as [second|] eqn:Fs; [|exact E1].
  assert (Fs1 : findByJob SECOND_PINCHER_JOB
                  (unassign (touch a) FIRST_PINCHER_JOB l) = Some second).
  { rewrite (findByJob_removed_other _ _ _ SECOND_PINCHER_JOB Rm) by congruence.
    exact Fs. }
  destruct (findByJob_Some _ _ _ Fs1) as [Hs1 Hjs].
  pose proof (unassign_removed second _ (proj1 W1) Hs1) as Rm2. rewrite Hjs in Rm2.
  apply (reassigned_touch_kept second _ _ _ t' Rm2); [|exact E1].
  destruct (jobIsAssigned MOVE_CAMERA_JOB l); reflexivity.
Qed.

Lemma endSecondTable_keepsTouches (a : Assignment) l t' :
  wfTable l -> In a l -> job a = SECOND_PINCHER_JOB ->
  sameTouch t' a = false ->
  touchIsAssigned t' l = true -> touchIsAssigned t' (endSecondTable a l) = true.
Proof.
  intros W Hin Hj Ne E. unfold endSecondTable.
  pose proof (unassign_removed a _ (proj1 W) Hin) as Rm. rewrite Hj in Rm.
  pose proof (removed_wfTable _ _ _ W Rm) as W1.
  assert (E1 : touchIsAssigned t' (unassign (touch a) SECOND_PINCHER_JOB l) = true).
  { destruct (removed_touch_kept a _ _ t' Rm E) as [K|K]; [exact K | congruence]. }
  destruct (findByJob FIRST_PINCHER_JOB l) as [first|] eqn:Ff; [|exact E1].
  destruct (jobIsAssigned MOVE_CAMERA_JOB l); [exact E1|].
  assert (Ff1 : findByJob FIRST_PINCHER_JOB
                  (unassign (touch a) SECOND_PINCHER_JOB l) = Some first).
  { rewrite (findByJob_removed_other _ _ _ FIRST_PINCHER_JOB Rm) by congruence.
    exact Ff. }
  destruct (findByJob_Some _ _ _ Ff1) as [Hf1 Hjf].
  pose proof (unassign_removed first _ (proj1 W1) Hf1) as Rm2. rewrite Hjf in Rm2.
  exact (reassigned_touch_kept first
           (cameraEntry (touch first) (a_clientX first) (a_clientY first))
           _ _ t' Rm2 eq_refl E1).
Qed.

Lemma end_keepsTouchesBut (w : World) t s :
  keepsTouchesBut [identifier t] s (snd (end_ w t s)).
Proof.
  destruct (isPendingFirstTouch t s) eqn:Ep.
  - intro Ok. destruct (isPendingFirstTouch_true t s Ep) as [p [Hp _]].
    rewrite (end_pending w t s Ep).
    rewrite (redispatch_normal w true _ s p (proj1 Ok) Hp). cbn [snd].
    now apply redispatch_keepsTouchesBut.
  - intro Ok. split; [now apply end_keepsOk|].
    intros t' N E. pose proof Ok as [[W I] F].
    destruct (touchIsAssigned t (assignments s)) eqn:Et.
    + destruct (findByTouch_assigned _ _ Et) as [a Ft].
      destruct (findByTouch_Some _ _ _ Ft) as [Hin Hid].
      assert (Ne : sameTouch t' a = false).
      { unfold sameTouch. apply Z.eqb_neq. rewrite Hid. intro X. apply N. now left. }
      destruct (job a) eqn:Hj.
      * rewrite (end_single w t s a) by auto. cbn [snd].
        rewrite assignments_settlePendingTap. cbn [assignments set_assignments].
        pose proof (unassign_removed a _ (proj1 W) Hin) as Rm.
        destruct (removed_touch_kept a _ _ t' Rm E) as [K|K]; [exact K | congruence].
      * rewrite (end_single w t s a) by auto. cbn [snd].
        rewrite assignments_settlePendingTap. cbn [assignments set_assignments].
        pose proof (unassign_removed a _ (proj1 W) Hin) as Rm.
        destruct (removed_touch_kept a _ _ t' Rm E) as [K|K]; [exact K | congruence].
      * rewrite (end_first w t s a W Ep Ft Hj). cbn [snd].
        rewrite assignments_settlePendingTap. cbn [assignments set_assignments].
        now apply endFirstTable_keepsTouches.
      * rewrite (end_second w t s a W Ep Ft Hj). cbn [snd].
        rewrite assignments_settlePendingTap. cbn [assignments set_assignments].
        now apply endSecondTable_keepsTouches.
    + rewrite (end_unassigned w t s Ep Et). cbn [snd].
      now rewrite assignments_settlePendingTap.
Qed.

Lemma move_keepsTouchesBut (w : World) t ids s :
  keepsTouchesBut ids s (snd (move w t s)).
Proof.
  destruct (isPendingFirstTouch t s) eqn:Ep.
  - intro Ok. destruct (isPendingFirstTouch_true t s Ep) as [p [Hp _]].
    rewrite (move_pending w t s Ep).
    rewrite (redispatch_normal w false _ s p (proj1 Ok) Hp). cbn [snd].
    now apply redispatch_keepsTouchesBut.
  - intro Ok. split; [now apply move_keepsOk|].
    intros t' _ E. destruct (move_sameKeys w t s Ep) as [Kt _].
    now rewrite (touchIsAssigned_keys _ _ _ Kt).
Qed.

Lemma start_keepsTouchesBut (w : World) t ids s :
  keepsTouchesBut ids s (snd (start w t s)).
Proof.
  intro Ok. split; [now apply start_keepsOk|]. intros t' _ E.
  pose proof Ok as [[W I] F].
  destruct (pendingFirstTouch s) as [p|] eqn:Ep.
  - destruct (touchIsAssigned p (assignments s)
              || jobIsAssigned FIRST_PINCHER_JOB (assignments s)) eqn:X.
    + now rewrite (start_flush_throws w t s p Ep X).
    + apply orb_false_iff in X. destruct X as [Et Ef].
      rewrite (start_flush w t s p Ep Et Ef).
      apply processTouchStart_keepsTouches.
      * unfold deviceInv. rewrite assignments_afterClearPendingFirstTouch.
        cbn [assignments set_assignments].
        apply tableInv_push; simpl; try assumption; [now split | discriminate].
      * rewrite assignments_afterClearPendingFirstTouch.
        cbn [assignments set_assignments]. now rewrite touchIsAssigned_app, E.
  - destruct (shouldDelayStartTouch w t) eqn:Ed.
    + now rewrite (start_delay w t s Ep Ed).
    + rewrite (start_immediate w t s Ep Ed).
      apply processTouchStart_keepsTouches; [apply Ok | exact E].
Qed.

Lemma forEach_end_keepsTouchesBut (w : World) ts ids :
  (forall t, In t ts -> In (identifier t) ids) ->
  respects (keepsTouchesBut ids) (forEach ts (end_ w)).
Proof.
  induction ts as [|t ts IH]; intro Sub; simpl.
  - apply respects_ret, keepsTouchesBut_refl.
  - apply (respects_bind _ (keepsTouchesBut_trans ids)).
    + intro s. apply (keepsTouchesBut_more [identifier t]); [|apply end_keepsTouchesBut].
      intros i [<-|[]]. apply Sub. now left.
    + intros _. apply IH. intros x Hx. apply Sub. now right.
Qed.

Lemma process_keepsTouchesBut (w : World) e :
  respects (keepsTouchesBut (endedIds e)) (process w e).
Proof.
  unfold process, endedIds. destruct (type e).
  - apply (respects_forEach _ (keepsTouchesBut_refl _) (keepsTouchesBut_trans _)).
    intros t s. apply start_keepsTouchesBut.
  - apply forEach_end_keepsTouchesBut. intros t Ht. now apply in_map.
  - apply (respects_forEach _ (keepsTouchesBut_refl _) (keepsTouchesBut_trans _)).
    intros t s. apply move_keepsTouchesBut.
  - apply forEach_end_keepsTouchesBut. intros t Ht. now apply in_map.
Qed.

Lemma drain_keepsTouchesBut (w : World) evs ids :
  (forall i, In i (flat_map endedIds evs) -> In i ids) ->
  respects (keepsTouchesBut ids) (forEach evs (process w)).
Proof.
  induction evs as [|e evs IH]; intro Sub; simpl.
  - apply respects_ret, keepsTouchesBut_refl.
  - apply (respects_bind _ (keepsTouchesBut_trans ids)).
    + intro s. apply (keepsTouchesBut_more (endedIds e)); [|apply process_keepsTouchesBut].
      intros i Hi. apply Sub. simpl. apply in_or_app. now left.
    + intros _. apply IH. intros i Hi. apply Sub. simpl. apply in_or_app. now right.
Qed.

(** X16.  A touch that has a job keeps a job until its own end: in a
    reachable state, the start or the move of any touch and the end of
    another touch leave it assigned (when a pincher ends, the remaining
    pincher is given the first pincher or the camera, not dropped), and so a
    frame write, however it completes, leaves assigned every touch that no
    queued touch-end or touch-cancel names. *)
Theorem a_touch_keeps_a_job_until_it_ends (s : Device) (t' : Touch) :
  reachable s ->
  touchIsAssigned t' (assignments s) = true ->
  (forall (w : World) (t : Touch),
      touchIsAssigned t' (assignments (snd (start w t s))) = true
      /\ touchIsAssigned t' (assignments (snd (move w t s))) = true
      /\ (identifier t' <> identifier t ->
          touchIsAssigned t' (assignments (snd (end_ w t s))) = true))
  /\ forall (w : World) (frame : Frame),
       ~ In (identifier t') (flat_map endedIds (events s)) ->
       touchIsAssigned t' (assignments (snd (write w frame s))) = true.
Proof.
  intros R E. pose proof (reachable_deviceOk s R) as Ok. split.
  - intros w t.
    split; [exact (proj2 (start_keepsTouchesBut w t [] s Ok) t' (fun X => X) E)|].
    split; [exact (proj2 (move_keepsTouchesBut w t [] s Ok) t' (fun X => X) E)|].
    intro N. apply (proj2 (end_keepsTouchesBut w t s Ok) t'); [|exact E].
    intros [X|[]]. congruence.
  - intros w frame N.
    unfold write, drain. unfold bind, gets, modify.
    rewrite (resetDeltas_eq s (proj2 Ok)).
    assert (K0 : keepsTouchesBut (flat_map endedIds (events s)) s (afterReset s)).
    { intro Ok0. split; [now apply deviceOk_afterReset|]. intros x _ Ex.
      pose proof (resetDeltas_sameKeys s) as [Kt _].
      rewrite (resetDeltas_eq s (proj2 Ok)) in Kt. cbn [snd] in Kt.
      now rewrite (touchIsAssigned_keys _ _ _ Kt). }
    pose proof (drain_keepsTouchesBut w (events (afterReset s))
                  (flat_map endedIds (events s)) (fun i X => X) (afterReset s)) as K1.
    pose proof (keepsTouchesBut_trans _ _ _ _ K0 K1 Ok) as [Ok1 K].
    destruct (forEach (events (afterReset s)) (process w) (afterReset s)) as [[u|e] s1];
      cbn [fst snd] in *; [|now apply K].
    rewrite publish_eq. cbn [snd].
    destruct (afterPublish_sameKeys (set_events [] s1)) as [Kt _].
    rewrite (touchIsAssigned_keys _ _ _ Kt). cbn [assignments set_events]. now apply K.
Qed.

(** * Hover first, grab on the next frame *)

(** The cursor entry, if there is one, has been published once already. *)
Definition hovered (s : Device) : Prop :=
  forall a, findByJob MOVE_CURSOR_JOB (assignments s) = Some a ->
            isFirstFrame a = Some false.

(** No touch is buffered and the cursor entry has been published. *)
Definition quiet (s : Device) : Prop :=
  deviceOk s /\ pendingFirstTouch s = None /\ hovered s.

Lemma hovered_same_cursor (s s' : Device) :
  findByJob MOVE_CURSOR_JOB (assignments s') = findByJob MOVE_CURSOR_JOB (assignments s) ->
  hovered s -> hovered s'.
Proof. unfold hovered. intros ->. exact (fun X => X). Qed.

Lemma hovered_no_cursor (s : Device) :
  jobIsAssigned MOVE_CURSOR_JOB (assignments s) = false -> hovered s.
Proof. intros N a Fa. rewrite jobIsAssigned_findByJob, Fa in N. discriminate. Qed.

Lemma hovered_afterPublish s : hovered (afterPublish s).
Proof.
  intros a. unfold afterPublish.
  destruct (findByJob MOVE_CURSOR_JOB (assignments s)) as [c|] eqn:Fc.
  - cbn [assignments set_tapIndexToWriteNextFrame set_assignments].
    rewrite (findByJob_updateFirst_hit (hasJob MOVE_CURSOR_JOB) _ _ _ c
               (keepsKeys_with_isFirstFrame (Some false)) Fc Fc).
    intro E. injection E as <-. reflexivity.
  - cbn [assignments set_tapIndexToWriteNextFrame]. rewrite Fc. discriminate.
Qed.

Lemma hovered_afterReset s : hovered s -> hovered (afterReset s).
Proof.
  apply hovered_same_cursor. unfold afterReset. cbn [assignments set_assignments set_pinch].
  destruct (findByJob MOVE_CAMERA_JOB (assignments s)); [|reflexivity].
  apply findByJob_updateFirst_other; [apply keepsKeys_with_delta | discriminate].
Qed.

Lemma move_quiet (w : World) t s :
  quiet s -> fst (move w t s) = Normal tt /\ quiet (snd (move w t s)).
Proof.
  intros [Ok [Hp Hv]]. split; [now apply move_normal|].
  assert (Ep : isPendingFirstTouch t s = false)
    by (unfold isPendingFirstTouch; now rewrite Hp).
  destruct (move_steps w t s Ep) as [[_ [_ [Sp _]]] _].
  split; [now apply move_keepsOk|]. split; [congruence|].
  destruct (touchIsAssigned t (assignments s)) eqn:Et.
  2:{ apply (hovered_same_cursor s); [|exact Hv].
      unfold move, bind, gets. rewrite Ep. simpl. rewrite Et. simpl.
      destruct (notVirtualGamepadControl t); reflexivity. }
  destruct (findByTouch_assigned _ _ Et) as [a Ft].
  destruct (findByTouch_Some _ _ _ Ft) as [Hin _].
  destruct (Job_eqb (job a) MOVE_CAMERA_JOB) eqn:Ec.
  - apply Job_eqb_eq in Ec.
    pose proof (In_entryOk _ _ (proj2 Ok) Hin) as Oa. unfold entryOk in Oa.
    rewrite Ec in Oa. destruct (delta a) as [d|] eqn:Hd; [|congruence].
    rewrite (move_camera w t s a d Ep Ft Ec Hd). cbn [snd].
    apply (hovered_same_cursor s); [|exact Hv]. cbn [assignments set_assignments].
    rewrite (findByJob_updateFirst_miss _ _ _ _
               (with_delta
                  (Some (jadd (fst d) (jsub (clientX t) (toNumber (a_clientX a))),
                         jadd (snd d) (jsub (clientY t) (toNumber (a_clientY a)))))
                  a)
               (keepsKeys_with_client (Some (clientX t)) (Some (clientY t)))).
    + apply (findByJob_updateFirst_miss _ _ _ _ a (keepsKeys_with_delta _) Ft). congruence.
    + apply find_updateFirst_same; [apply keepsKeys_with_delta | exact Ft].
    + cbn [job with_delta]. congruence.
  - assert (Nj : job a <> MOVE_CAMERA_JOB).
    { intro X. rewrite X in Ec. discriminate. }
    destruct (move_other_table w t s a Ok Ep Ft Nj) as [f [K [Kf Ea]]].
    destruct (Job_eqb (job a) MOVE_CURSOR_JOB) eqn:Eu.
    + apply Job_eqb_eq in Eu.
      pose proof (findByJob_of_member _ a (proj2 (proj1 (proj1 Ok))) Hin) as Fa.
      rewrite Eu in Fa. intros c. rewrite Ea.
      rewrite (findByJob_updateFirst_hit _ f _ _ a K Ft Fa).
      intro E. injection E as <-. rewrite Kf. exact (Hv a Fa).
    + apply (hovered_same_cursor s); [|exact Hv]. rewrite Ea.
      apply (findByJob_updateFirst_miss _ f _ _ a K Ft).
      intro X. rewrite X in Eu. discriminate.
Qed.

Lemma cursor_endFirstTable (a : Assignment) l :
  wfTable l -> In a l -> job a = FIRST_PINCHER_JOB ->
  findByJob MOVE_CURSOR_JOB (endFirstTable a l) = findByJob MOVE_CURSOR_JOB l.
Proof.
  intros W Hin Hj. unfold endFirstTable.
  pose proof (unassign_removed a _ (proj1 W) Hin) as Rm. rewrite Hj in Rm.
  pose proof (removed_wfTable _ _ _ W Rm) as W1.
  pose proof (findByJob_removed_other _ _ _ MOVE_CURSOR_JOB Rm) as E1.
  destruct (findByJob SECOND_PINCHER_JOB l) as [second|] eqn:Fs;
    [|apply E1; congruence].
  assert (Fs1 : findByJob SECOND_PINCHER_JOB
                  (unassign (touch a) FIRST_PINCHER_JOB l) = Some second).
  { rewrite (findByJob_removed_other _ _ _ SECOND_PINCHER_JOB Rm) by congruence.
    exact Fs. }
  destruct (findByJob_Some _ _ _ Fs1) as [Hs1 Hjs].
  pose proof (unassign_removed second _ (proj1 W1) Hs1) as Rm2. rewrite Hjs in Rm2.
  rewrite findByJob_push_other by (destruct (jobIsAssigned MOVE_CAMERA_JOB l); discriminate).
  rewrite (findByJob_removed_other _ _ _ MOVE_CURSOR_JOB Rm2) by congruence.
  apply E1. congruence.
Qed.

Lemma cursor_endSecondTable (a : Assignment) l :
  wfTable l -> In a l -> job a = SECOND_PINCHER_JOB ->
  findByJob MOVE_CURSOR_JOB (endSecondTable a l) = findByJob MOVE_CURSOR_JOB l.
Proof.
  intros W Hin Hj. unfold endSecondTable.
  pose proof (unassign_removed a _ (proj1 W) Hin) as Rm. rewrite Hj in Rm.
  pose proof (removed_wfTable _ _ _ W Rm) as W1.
  pose proof (findByJob_removed_other _ _ _ MOVE_CURSOR_JOB Rm) as E1.
  destruct (findByJob FIRST_PINCHER_JOB l) as [first|] eqn:Ff; [|apply E1; congruence].
  destruct (jobIsAssigned MOVE_CAMERA_JOB l); [apply E1; congruence|].
  assert (Ff1 : findByJob FIRST_PINCHER_JOB
                  (unassign (touch a) SECOND_PINCHER_JOB l) = Some first).
  { rewrite (findByJob_removed_other _ _ _ FIRST_PINCHER_JOB Rm) by congruence.
    exact Ff. }
  destruct (findByJob_Some _ _ _ Ff1) as [Hf1 Hjf].
  pose proof (unassign_removed first _ (proj1 W1) Hf1) as Rm2. rewrite Hjf in Rm2.
  rewrite findByJob_push_other by discriminate.
  rewrite (findByJob_removed_other _ _ _ MOVE_CURSOR_JOB Rm2) by congruence.
  apply E1. congruence.
Qed.

Lemma end_quiet (w : World) t s :
  quiet s -> fst (end_ w t s) = Normal tt /\ quiet (snd (end_ w t s)).
Proof.
  intros [Ok [Hp Hv]]. split; [now apply end_normal|].
  assert (Ep : isPendingFirstTouch t s = false)
    by (unfold isPendingFirstTouch; now rewrite Hp).
  split; [now apply end_keepsOk|].
  pose proof Ok as [[W I] F].
  destruct (touchIsAssigned t (assignments s)) eqn:Et.
  - destruct (findByTouch_assigned _ _ Et) as [a Ft].
    destruct (findByTouch_Some _ _ _ Ft) as [Hin _].
    pose proof (unassign_removed a _ (proj1 W) Hin) as Rm.
    destruct (job a) eqn:Hj.
    + rewrite (end_single w t s a) by auto. cbn [snd].
      split; [now rewrite (proj1 (proj2 (proj2 (sameSchedule_settlePendingTap w _))))|].
      apply hovered_no_cursor. rewrite assignments_settlePendingTap.
      cbn [assignments set_assignments]. rewrite Hj.
      pose proof (removed_job _ _ _ W Rm) as X. now rewrite Hj in X.
    + rewrite (end_single w t s a) by auto. cbn [snd].
      split; [now rewrite (proj1 (proj2 (proj2 (sameSchedule_settlePendingTap w _))))|].
      apply (hovered_same_cursor s); [|exact Hv]. rewrite assignments_settlePendingTap.
      cbn [assignments set_assignments]. rewrite Hj.
      apply (findByJob_removed_other _ _ _ _ Rm). congruence.
    + rewrite (end_first w t s a W Ep Ft Hj). cbn [snd].
      split; [now rewrite (proj1 (proj2 (proj2 (sameSchedule_settlePendingTap w _))))|].
      apply (hovered_same_cursor s); [|exact Hv]. rewrite assignments_settlePendingTap.
      cbn [assignments set_assignments]. now apply cursor_endFirstTable.
    + rewrite (end_second w t s a W Ep Ft Hj). cbn [snd].
      split; [now rewrite (proj1 (proj2 (proj2 (sameSchedule_settlePendingTap w _))))|].
      apply (hovered_same_cursor s); [|exact Hv]. rewrite assignments_settlePendingTap.
      cbn [assignments set_assignments]. now apply cursor_endSecondTable.
  - rewrite (end_unassigned w t s Ep Et). cbn [snd].
    split; [now rewrite (proj1 (proj2 (proj2 (sameSchedule_settlePendingTap w _))))|].
    apply (hovered_same_cursor s); [|exact Hv]. now rewrite assignments_settlePendingTap.
Qed.

Lemma process_quiet (w : World) e s :
  notTouchStart e = true -> quiet s ->
  fst (process w e s) = Normal tt /\ quiet (snd (process w e s)).
Proof.
  intros N Q. unfold process, notTouchStart in *.
  destruct (type e); try discriminate.
  - destruct (forEach_normal quiet (end_ w) (changedTouches e) (end_quiet w) s Q)
      as [s1 [E Q1]]. now rewrite E.
  - destruct (forEach_normal quiet (move w) (touches e) (move_quiet w) s Q)
      as [s1 [E Q1]]. now rewrite E.
  - destruct (forEach_normal quiet (end_ w) (changedTouches e) (end_quiet w) s Q)
      as [s1 [E Q1]]. now rewrite E.
Qed.

Lemma drain_quiet (w : World) evs s :
  forallb notTouchStart evs = true -> quiet s ->
  exists s1, forEach evs (process w) s = (Normal tt, s1) /\ quiet s1.
Proof.
  revert s. induction evs as [|e evs IH]; intros s N Q; simpl in *.
  - exists s. now split.
  - apply andb_prop in N. destruct N as [N1 N2].
    destruct (process_quiet w e s N1 Q) as [E Q1]. unfold bind.
    destruct (process w e s) as [[[]|x] s0]; cbn [fst snd] in *; [|discriminate].
    now apply IH.
Qed.

Lemma run_dispatch evs (s : Device) :
  run (map Dispatch evs) s = set_events (events s ++ evs) s.
Proof.
  unfold run. revert s. induction evs as [|e evs IH]; intro s; simpl.
  - rewrite app_nil_r. now destruct s.
  - rewrite IH. cbn [events set_events]. rewrite <- app_assoc. reflexivity.
Qed.

(** X17.  The cursor hovers for one frame only.  After any frame write that
    returned, take the next frame: if no touch is buffered and the events
    dispatched in between hold no touch-start (moves, ends and cancels of
    whatever touches), the next write returns, and if the cursor job is
    still held it publishes [isTouchingGrabbable = true].  So [false] is
    published for a cursor assignment in the frame that follows its
    creation only. *)
Theorem touching_grabbable_from_the_second_frame
  (w1 w2 : World) (frame1 frame1' frame2 : Frame) (s s1 : Device)
  (evs : list TouchEvent) :
  reachable s ->
  write w1 frame1 s = (Normal frame1', s1) ->
  pendingFirstTouch s1 = None ->
  forallb notTouchStart evs = true ->
  exists frame2' s2,
    write w2 frame2 (run (map Dispatch evs) s1) = (Normal frame2', s2)
    /\ (jobIsAssigned MOVE_CURSOR_JOB (assignments s2) = true ->
        frame2' path_isTouchingGrabbable = Some (VBool true)).
Proof.
  intros R E1 Hp N. pose proof (reachable_deviceOk s R) as Ok.
  assert (R1 : reachable s1).
  { replace s1 with (step (Tick w1 frame1) s); [now apply reachable_step|].
    simpl. now rewrite E1. }
  pose proof (reachable_deviceOk s1 R1) as Ok1.
  destruct (write_returns_inv w1 frame1 s frame1' s1 (proj2 Ok) E1) as [s0 [_ [_ Es1]]].
  assert (Hv1 : hovered s1) by (rewrite Es1; apply hovered_afterPublish).
  assert (Ee1 : events s1 = []) by (rewrite Es1; now rewrite events_afterPublish).
  rewrite run_dispatch, Ee1. cbn [app].
  remember (set_events evs s1) as s1' eqn:S1'.
  assert (Q : quiet (afterReset s1')).
  { split; [|split].
    - apply deviceOk_afterReset. rewrite S1'. now apply (deviceOk_ext s1).
    - rewrite S1'. exact Hp.
    - apply hovered_afterReset. rewrite S1'. exact Hv1. }
  assert (Ee : events s1' = evs) by (rewrite S1'; reflexivity).
  destruct (drain_quiet w2 evs (afterReset s1') N Q) as [s2' [D [Ok2 [_ Hv2]]]].
  rewrite <- Ee in D.
  assert (F1' : fieldsOk (assignments s1')) by (rewrite S1'; apply Ok1).
  exists (publishedFrame frame2 (set_events [] s2')), (afterPublish (set_events [] s2')).
  split; [exact (write_eq w2 frame2 s1' s2' F1' D)|].
  intro Hc. destruct (afterPublish_sameKeys (set_events [] s2')) as [_ Kj].
  rewrite (jobIsAssigned_keys _ _ _ Kj) in Hc. cbn [assignments set_events] in Hc.
  destruct (findByJob_assigned _ _ Hc) as [a Fa].
  rewrite (publishedFrame_grabbable frame2 (set_events [] s2') a Fa).
  now rewrite (Hv2 a Fa).
Qed.

(** * The start time of the pending tap *)

(** The pending tap counts no negative number of touches, and while it
    counts some it has its start time. *)
Definition stamped (s : Device) : Prop :=
  0 <= maxTouchCount (pendingTap s)
  /\ (0 < maxTouchCount (pendingTap s) -> startedAt (pendingTap s) <> None).

Definition keepsStamped (s s' : Device) : Prop := stamped s -> stamped s'.

Lemma keepsStamped_refl s : keepsStamped s s.
Proof. now intro. Qed.

Lemma keepsStamped_trans s1 s2 s3 :
  keepsStamped s1 s2 -> keepsStamped s2 s3 -> keepsStamped s1 s3.
Proof. unfold keepsStamped. auto. Qed.

Lemma stamped_notePendingTap (w : World) s : stamped s -> stamped (notePendingTap w s).
Proof.
  intros [B St]. unfold stamped. rewrite pendingTap_notePendingTap.
  split; [lia|]. unfold notePendingTap.
  destruct ((maxTouchCount (pendingTap s) =? 0)
            && (0 <? Z.of_nat (length (assignments s)))) eqn:C; simpl.
  - discriminate.
  - intro P. apply St. apply andb_false_iff in C. destruct C as [C|C].
    + apply Z.eqb_neq in C. lia.
    + apply Z.ltb_ge in C. lia.
Qed.

Lemma stamped_settlePendingTap (w : World) s : stamped s -> stamped (settlePendingTap w s).
Proof.
  intro St. unfold settlePendingTap. destruct (assignments s); [|exact St].
  destruct (withinTapWindow w (pendingTap s)); split; simpl; lia.
Qed.

Ltac stamped_leaf :=
  unfold keepsStamped, log, this_assign, this_unassign, mutateLast, mutateFirst,
    setTimeout, modify;
  cbn [snd];
  first [ apply stamped_notePendingTap
        | apply stamped_settlePendingTap
        | exact (fun X => X) ].

Lemma processTouchStart_keepsStamped (w : World) t allow :
  respects keepsStamped (processTouchStart w t allow).
Proof.
  unfold processTouchStart.
  respects_walk keepsStamped_refl keepsStamped_trans fail stamped_leaf.
Qed.

Lemma clearPendingFirstTouch_keepsStamped : respects keepsStamped clearPendingFirstTouch.
Proof.
  unfold clearPendingFirstTouch.
  respects_walk keepsStamped_refl keepsStamped_trans fail stamped_leaf.
Qed.

Lemma processPendingFirstTouch_keepsStamped (w : World) allow :
  respects keepsStamped (processPendingFirstTouch w allow).
Proof.
  unfold processPendingFirstTouch.
  respects_walk keepsStamped_refl keepsStamped_trans
    ltac:(apply processTouchStart_keepsStamped) stamped_leaf.
Qed.

Ltac stamped_known :=
  idtac;
  lazymatch goal with
  | |- respects _ (processTouchStart _ _ _) => apply processTouchStart_keepsStamped
  | |- respects _ clearPendingFirstTouch => apply clearPendingFirstTouch_keepsStamped
  | |- respects _ (processPendingFirstTouch _ _) =>
      apply processPendingFirstTouch_keepsStamped
  end.

Lemma end_keepsStamped (w : World) t : respects keepsStamped (end_ w t).
Proof.
  unfold end_.
  respects_walk keepsStamped_refl keepsStamped_trans stamped_known stamped_leaf.
Qed.

Lemma move_keepsStamped (w : World) t : respects keepsStamped (move w t).
Proof.
  unfold move.
  respects_walk keepsStamped_refl keepsStamped_trans stamped_known stamped_leaf.
Qed.

Lemma start_keepsStamped (w : World) t : respects keepsStamped (start w t).
Proof.
  unfold start.
  respects_walk keepsStamped_refl keepsStamped_trans stamped_known stamped_leaf.
Qed.

Lemma process_keepsStamped (w : World) event : respects keepsStamped (process w event).
Proof.
  unfold process. destruct (type event);
    apply (respects_forEach _ keepsStamped_refl keepsStamped_trans); intro t.
  - apply start_keepsStamped.
  - apply end_keepsStamped.
  - apply move_keepsStamped.
  - apply end_keepsStamped.
Qed.

Lemma resetDeltas_keepsStamped : respects keepsStamped resetDeltas.
Proof.
  unfold resetDeltas.
  respects_walk keepsStamped_refl keepsStamped_trans fail stamped_leaf.
Qed.

Lemma publish_keepsStamped frame : respects keepsStamped (publish frame).
Proof.
  unfold publish.
  respects_walk keepsStamped_refl keepsStamped_trans fail stamped_leaf.
Qed.

Lemma drain_keepsStamped (w : World) : respects keepsStamped (drain w).
Proof.
  unfold drain.
  respects_walk keepsStamped_refl keepsStamped_trans
    ltac:(apply (respects_forEach _ keepsStamped_refl keepsStamped_trans
                   _ _ (process_keepsStamped w)))
    stamped_leaf.
Qed.

Lemma write_keepsStamped (w : World) frame : respects keepsStamped (write w frame).
Proof.
  unfold write.
  respects_walk keepsStamped_refl keepsStamped_trans
    ltac:(first [ apply resetDeltas_keepsStamped
                | apply drain_keepsStamped
                | apply publish_keepsStamped ])
    stamped_leaf.
Qed.

Lemma runTask_keepsStamped (w : World) task : respects keepsStamped (runTask w task).
Proof.
  destruct task; cbn [runTask].
  - apply (respects_bind _ keepsStamped_trans);
      [apply processPendingFirstTouch_keepsStamped|].
    intros _ s. exact (fun X => X).
  - apply end_keepsStamped.
  - apply move_keepsStamped.
Qed.

Lemma reachable_stamped s : reachable s -> stamped s.
Proof.
  induction 1 as [|op s R IH].
  - split; simpl; [lia | discriminate].
  - destruct op as [event|w frame|w id].
    + exact IH.
    + now apply write_keepsStamped.
    + rewrite fire_eq.
      destruct (find (fun t => Nat.eqb (timerId t) id) (timers s)) as [tm|]; [|exact IH].
      now apply runTask_keepsStamped.
Qed.

(** X18.  While the pending tap of a reachable device counts touches, it
    carries the time its first touch got a job: the check of the 125 ms
    window is then a comparison of two times, never one against a missing
    start (which would silently refuse the tap). *)
Theorem pending_tap_has_its_start_time (s : Device) :
  reachable s ->
  0 < maxTouchCount (pendingTap s) ->
  exists t0,
    startedAt (pendingTap s) = Some t0
    /\ forall w : World,
         withinTapWindow w (pendingTap s)
         = jleb (jsub (performance_now w) t0) (ofZ 125).
Proof.
  intros R P. destruct (reachable_stamped s R) as [_ St].
  destruct (startedAt (pendingTap s)) as [t0|] eqn:E; [|now destruct (St P)].
  exists t0. split; [reflexivity|]. intro w. unfold withinTapWindow. rewrite E.
  apply Z.ltb_lt in P. now rewrite P.
Qed.

(** * Stored coordinates *)

(** An entry that moves the camera or pinches has stored the coordinates of
    its touch. *)
Definition hasCoords (a : Assignment) : Prop :=
  match job a with
  | MOVE_CURSOR_JOB => True
  | _ => a_clientX a <> None /\ a_clientY a <> None
  end.

Definition coordsOk (l : list Assignment) : Prop := Forall hasCoords l.

Lemma hasCoords_with_client x y a : hasCoords (with_client (Some x) (Some y) a).
Proof. unfold hasCoords. simpl. destruct (job a); trivial; split; discriminate. Qed.

Lemma hasCoords_with_delta d a : hasCoords a -> hasCoords (with_delta d a).
Proof. unfold hasCoords. simpl. trivial. Qed.

Lemma hasCoords_with_cursorPose p a : hasCoords a -> hasCoords (with_cursorPose p a).
Proof. unfold hasCoords. simpl. trivial. Qed.

Lemma hasCoords_with_isFirstFrame b a : hasCoords a -> hasCoords (with_isFirstFrame b a).
Proof. unfold hasCoords. simpl. trivial. Qed.

Lemma hasCoords_cursorEntry w t : hasCoords (cursorEntry w t).
Proof. exact I. Qed.

Lemma hasCoords_cameraEntry t x y :
  x <> None -> y <> None -> hasCoords (cameraEntry t x y).
Proof. intros X Y. unfold hasCoords. simpl. now split. Qed.

Lemma hasCoords_pincherEntry j t x y :
  x <> None -> y <> None -> hasCoords (pincherEntry j t x y).
Proof. intros X Y. unfold hasCoords. simpl. destruct j; trivial; now split. Qed.

(** The coordinates of an entry that is no cursor entry. *)
Lemma hasCoords_stored a :
  hasCoords a -> job a <> MOVE_CURSOR_JOB -> a_clientX a <> None /\ a_clientY a <> None.
Proof. unfold hasCoords. destruct (job a); [congruence | trivial..]. Qed.

Lemma coordsOk_push l a : coordsOk l -> hasCoords a -> coordsOk (l ++ [a]).
Proof. intros Hl Ha. apply Forall_app. split; [assumption | now constructor]. Qed.

Lemma coordsOk_unassign t j l : coordsOk l -> coordsOk (unassign t j l).
Proof.
  induction 1 as [|a l Ha Hl IH]; simpl; [constructor|].
  destruct (sameTouch t a && hasJob j a); [assumption | now constructor].
Qed.

Lemma coordsOk_updateFirst p f l :
  (forall a, hasCoords a -> hasCoords (f a)) -> coordsOk l -> coordsOk (updateFirst p f l).
Proof.
  intro F. induction 1 as [|a l Ha Hl IH]; simpl; [constructor|].
  destruct (p a); constructor; auto.
Qed.

Lemma coordsOk_found j l a :
  coordsOk l -> findByJob j l = Some a -> j <> MOVE_CURSOR_JOB ->
  a_clientX a <> None /\ a_clientY a <> None.
Proof.
  intros C Fa N. destruct (findByJob_Some _ _ _ Fa) as [Hin Hj].
  unfold coordsOk in C. rewrite Forall_forall in C.
  apply hasCoords_stored; [now apply C | congruence].
Qed.

Lemma coordsOk_endFirstTable a l : coordsOk l -> coordsOk (endFirstTable a l).
Proof.
  intro C. unfold endFirstTable.
  destruct (findByJob SECOND_PINCHER_JOB l) as [second|] eqn:Fs.
  - destruct (coordsOk_found _ _ _ C Fs) as [X Y]; [discriminate|].
    apply coordsOk_push; [now repeat apply coordsOk_unassign|].
    destruct (jobIsAssigned MOVE_CAMERA_JOB l);
      [now apply hasCoords_pincherEntry | now apply hasCoords_cameraEntry].
  - now apply coordsOk_unassign.
Qed.

Lemma coordsOk_endSecondTable a l : coordsOk l -> coordsOk (endSecondTable a l).
Proof.
  intro C. unfold endSecondTable.
  destruct (findByJob FIRST_PINCHER_JOB l) as [first|] eqn:Ff;
    [|now apply coordsOk_unassign].
  destruct (jobIsAssigned MOVE_CAMERA_JOB l); [now apply coordsOk_unassign|].
  destruct (coordsOk_found _ _ _ C Ff) as [X Y]; [discriminate|].
  apply coordsOk_push; [now repeat apply coordsOk_unassign|].
  now apply hasCoords_cameraEntry.
Qed.

Lemma processTouchStart_coords (w : World) t allow (s : Device) :
  wfTable (assignments s) -> coordsOk (assignments s) ->
  coordsOk (assignments (snd (processTouchStart w t allow s))).
Proof.
  intros W C.
  destruct (touchIsAssigned t (assignments s)) eqn:Et.
  { now rewrite processTouchStart_assigned by assumption. }
  destruct (negb (jobIsAssigned FIRST_PINCHER_JOB (assignments s))
            && negb (jobIsAssigned MOVE_CURSOR_JOB (assignments s))
            && (allow || isCursorOverInteractable w t)) eqn:C1.
  { rewrite processTouchStart_cursor by assumption. cbn [snd].
    rewrite assignments_notePendingTap. cbn [assignments set_assignments].
    apply coordsOk_push; [assumption | apply hasCoords_cursorEntry]. }
  destruct (negb (jobIsAssigned FIRST_PINCHER_JOB (assignments s))
            && negb (jobIsAssigned MOVE_CAMERA_JOB (assignments s))) eqn:C2.
  { rewrite processTouchStart_camera by assumption. cbn [snd].
    rewrite assignments_notePendingTap. cbn [assignments set_assignments].
    apply coordsOk_push; [assumption | apply hasCoords_cameraEntry; discriminate]. }
  destruct (jobIsAssigned SECOND_PINCHER_JOB (assignments s)) eqn:Es.
  { rewrite processTouchStart_dropped by assumption. cbn [snd].
    now rewrite assignments_notePendingTap. }
  destruct (jobIsAssigned FIRST_PINCHER_JOB (assignments s)) eqn:Ef.
  { destruct (findByJob_assigned _ _ Ef) as [first Ff].
    rewrite (processTouchStart_second w t allow s first) by assumption. cbn [snd].
    rewrite assignments_notePendingTap. cbn [assignments set_assignments set_pinch].
    apply coordsOk_push; [assumption | apply hasCoords_pincherEntry; discriminate]. }
  simpl in C1, C2. apply negb_false_iff in C2.
  destruct (findByJob_assigned _ _ C2) as [cm Fc].
  rewrite (processTouchStart_promote w t allow s cm) by assumption. cbn [snd].
  rewrite assignments_notePendingTap. cbn [assignments set_assignments set_pinch].
  destruct (coordsOk_found _ _ _ C Fc) as [X Y]; [discriminate|].
  apply coordsOk_push; [|apply hasCoords_pincherEntry; discriminate].
  apply coordsOk_push; [|now apply hasCoords_pincherEntry].
  now apply coordsOk_unassign.
Qed.

(** The device satisfies its invariants and its entries have their
    coordinates. *)
Definition located (s : Device) : Prop := deviceOk s /\ coordsOk (assignments s).

Definition keepsLocated (s s' : Device) : Prop := located s -> located s'.

Lemma keepsLocated_refl s : keepsLocated s s.
Proof. now intro. Qed.

Lemma keepsLocated_trans s1 s2 s3 :
  keepsLocated s1 s2 -> keepsLocated s2 s3 -> keepsLocated s1 s3.
Proof. unfold keepsLocated. auto. Qed.

Lemma located_ext (s s' : Device) :
  assignments s' = assignments s -> located s -> located s'.
Proof.
  intros E [Ok C]. split; [now apply (deviceOk_ext s)|]. now rewrite E.
Qed.

Lemma processTouchStart_located (w : World) t allow s :
  located s -> located (snd (processTouchStart w t allow s)).
Proof.
  intros [Ok C]. split; [now apply processTouchStart_keepsOk|].
  apply processTouchStart_coords; [apply Ok | exact C].
Qed.

Lemma redispatch_located (w : World) allow task s p :
  located s ->
  located (snd (setTimeout task 0
                  (afterClearPendingFirstTouch (snd (processTouchStart w p allow s))))).
Proof.
  intro L. apply (located_ext (snd (processTouchStart w p allow s)));
    [|now apply processTouchStart_located].
  now rewrite assignments_setTimeout, assignments_afterClearPendingFirstTouch.
Qed.

Lemma end_located (w : World) t s : located s -> located (snd (end_ w t s)).
Proof.
  intro L. pose proof L as [Ok C]. destruct (isPendingFirstTouch t s) eqn:Ep.
  - destruct (isPendingFirstTouch_true t s Ep) as [p [Hp _]].
    rewrite (end_pending w t s Ep).
    rewrite (redispatch_normal w true _ s p (proj1 Ok) Hp). cbn [snd].
    now apply redispatch_located.
  - split; [now apply end_keepsOk|]. pose proof Ok as [[W I] F].
    destruct (touchIsAssigned t (assignments s)) eqn:Et.
    + destruct (findByTouch_assigned _ _ Et) as [a Ft].
      destruct (job a) eqn:Hj.
      * rewrite (end_single w t s a) by auto. cbn [snd].
        rewrite assignments_settlePendingTap. cbn [assignments set_assignments].
        now apply coordsOk_unassign.
      * rewrite (end_single w t s a) by auto. cbn [snd].
        rewrite assignments_settlePendingTap. cbn [assignments set_assignments].
        now apply coordsOk_unassign.
      * rewrite (end_first w t s a W Ep Ft Hj). cbn [snd].
        rewrite assignments_settlePendingTap. cbn [assignments set_assignments].
        now apply coordsOk_endFirstTable.
      * rewrite (end_second w t s a W Ep Ft Hj). cbn [snd].
        rewrite assignments_settlePendingTap. cbn [assignments set_assignments].
        now apply coordsOk_endSecondTable.
    + rewrite (end_unassigned w t s Ep Et). cbn [snd].
      now rewrite assignments_settlePendingTap.
Qed.

Ltac coords_leaf :=
  simpl; repeat (apply coordsOk_updateFirst;
                 [intros; auto using hasCoords_with_client, hasCoords_with_delta,
                            hasCoords_with_cursorPose, hasCoords_with_isFirstFrame|]);
  try assumption.

Lemma move_coords (w : World) t s :
  isPendingFirstTouch t s = false -> coordsOk (assignments s) ->
  coordsOk (assignments (snd (move w t s))).
Proof.
  intros Ep C. unfold move, bind, gets. rewrite Ep. simpl.
  unfold mutateFirst, modify, log, defined, ret, throw.
  split_cases; coords_leaf.
Qed.

Lemma move_located (w : World) t s : located s -> located (snd (move w t s)).
Proof.
  intro L. pose proof L as [Ok C]. destruct (isPendingFirstTouch t s) eqn:Ep.
  - destruct (isPendingFirstTouch_true t s Ep) as [p [Hp _]].
    rewrite (move_pending w t s Ep).
    rewrite (redispatch_normal w false _ s p (proj1 Ok) Hp). cbn [snd].
    now apply redispatch_located.
  - split; [now apply move_keepsOk | now apply move_coords].
Qed.

Lemma start_located (w : World) t s : located s -> located (snd (start w t s)).
Proof.
  intro L. pose proof L as [Ok C]. pose proof Ok as [[W I] F].
  destruct (pendingFirstTouch s) as [p|] eqn:Ep.
  - destruct (touchIsAssigned p (assignments s)
              || jobIsAssigned FIRST_PINCHER_JOB (assignments s)) eqn:E.
    + now rewrite (start_flush_throws w t s p Ep E).
    + apply orb_false_iff in E. destruct E as [Et Ef].
      split; [now apply start_keepsOk|].
      rewrite (start_flush w t s p Ep Et Ef).
      apply processTouchStart_coords.
      * rewrite assignments_afterClearPendingFirstTouch. cbn [assignments set_assignments].
        apply wfTable_push; simpl; assumption.
      * rewrite assignments_afterClearPendingFirstTouch. cbn [assignments set_assignments].
        apply coordsOk_push; [assumption | apply hasCoords_pincherEntry; discriminate].
  - destruct (shouldDelayStartTouch w t) eqn:Ed.
    + now rewrite (start_delay w t s Ep Ed).
    + rewrite (start_immediate w t s Ep Ed). now apply processTouchStart_located.
Qed.

Lemma process_keepsLocated (w : World) event : respects keepsLocated (process w event).
Proof.
  unfold process. destruct (type event);
    apply (respects_forEach _ keepsLocated_refl keepsLocated_trans); intros t s.
  - exact (start_located w t s).
  - exact (end_located w t s).
  - exact (move_located w t s).
  - exact (end_located w t s).
Qed.

Lemma located_afterReset s : located s -> located (afterReset s).
Proof.
  intros [Ok C]. split; [now apply deviceOk_afterReset|].
  unfold afterReset. cbn [assignments set_assignments set_pinch].
  destruct (findByJob MOVE_CAMERA_JOB (assignments s)); [|exact C].
  apply coordsOk_updateFirst; [|exact C]. intro x. apply hasCoords_with_delta.
Qed.

Lemma located_afterPublish s : located s -> located (afterPublish s).
Proof.
  intros [Ok C]. split.
  - pose proof (publish_keepsOk (fun _ => None) s Ok) as K. now rewrite publish_eq in K.
  - unfold afterPublish. destruct (findByJob MOVE_CURSOR_JOB (assignments s));
      cbn [assignments set_tapIndexToWriteNextFrame set_assignments]; [|exact C].
    apply coordsOk_updateFirst; [|exact C]. intro x. apply hasCoords_with_isFirstFrame.
Qed.

Lemma write_keepsLocated (w : World) frame : respects keepsLocated (write w frame).
Proof.
  intros s L. unfold write, drain. unfold bind, gets, modify.
  rewrite (resetDeltas_eq s (proj2 (proj1 L))).
  pose proof (respects_forEach _ keepsLocated_refl keepsLocated_trans
                (events (afterReset s)) (process w)
                (process_keepsLocated w) (afterReset s) (located_afterReset s L)) as K.
  destruct (forEach (events (afterReset s)) (process w) (afterReset s)) as [[u|e] s1];
    cbn [fst snd] in *; [|exact K].
  rewrite publish_eq. cbn [snd]. apply located_afterPublish.
  now apply (located_ext s1).
Qed.

Lemma fire_located (w : World) id s : sound s -> located s -> located (step (Fire w id) s).
Proof.
  intros So L. rewrite fire_eq.
  destruct (find (fun t => Nat.eqb (timerId t) id) (timers s)) as [tm|] eqn:Ef;
    [|exact L].
  assert (L' : located (withoutTimer id s)) by now apply (located_ext s).
  destruct (isResolve tm) eqn:Hr.
  - destruct (resolve_fired w id s tm So Ef Hr) as [p [Hp [Eh E]]]. rewrite E. cbn [snd].
    apply (located_ext (snd (processTouchStart w p false (withoutTimer id s))));
      [reflexivity | now apply processTouchStart_located].
  - unfold isResolve in Hr. destruct (timerTask tm); try discriminate; simpl.
    + now apply end_located.
    + now apply move_located.
Qed.

Lemma reachable_located s : reachable s -> located s.
Proof.
  induction 1 as [|op s R IH].
  - split; [apply reachable_deviceOk, reachable_constructor | constructor].
  - destruct op as [event|w frame|w id].
    + now apply (located_ext s).
    + now apply write_keepsLocated.
    + apply fire_located; [now apply reachable_sound | exact IH].
Qed.

(** X19.  In every reachable state each entry that moves the camera or
    pinches has stored coordinates: they are set when the entry is created
    (from the touch, or from the entry it replaces) and only ever
    overwritten with a touch's coordinates.  So the camera delta and the
    pinch distances are never computed from an undefined coordinate. *)
Theorem camera_and_pinchers_have_stored_coordinates (s : Device) (a : Assignment) :
  reachable s ->
  In a (assignments s) ->
  job a <> MOVE_CURSOR_JOB ->
  exists x y,
    a_clientX a = Some x /\ a_clientY a = Some y
    /\ toNumber (a_clientX a) = x /\ toNumber (a_clientY a) = y.
Proof.
  intros R Hin Nj. destruct (reachable_located s R) as [_ C].
  unfold coordsOk in C. rewrite Forall_forall in C.
  destruct (hasCoords_stored a (C a Hin) Nj) as [X Y].
  destruct (a_clientX a) as [x|]; [|congruence].
  destruct (a_clientY a) as [y|]; [|congruence].
  exists x, y. now repeat split.
Qed.

End Device.

(** * Concrete runs

    The device over integer coordinates and milliseconds, with a paths table
    that defines [tap1] to [tap5]. *)

#[export] Instance ZNumber : JSNumber Z :=
  {| ofZ := fun z => z;
     NaN := 0;
     jadd := Z.add;
     jsub := Z.sub;
     jmul := Z.mul;
     jdiv := Z.div;
     jneg := Z.opp;
     jsqrt := Z.sqrt;
     jleb := Z.leb |}.

#[export] Instance ZExact : ExactNumber Z.
Proof. constructor; intros; simpl; lia. Qed.

Definition tapPaths (n : Z) : bool := (1 <=? n) && (n <=? 5).

Definition finger (id x y : Z) : @Touch Z :=
  {| identifier := id; clientX := x; clientY := y; targetClassList := [] |}.

(** A scene at time [now]: touches with an identifier of 100 or more land on
    a UI surface, touches with an odd x coordinate are over an interactable,
    the others hit nothing. *)
Definition scene (now : Z) : @World Z unit :=
  {| performance_now := now;
     innerWidth := 100;
     innerHeight := 100;
     isCursorGrabbing := false;
     getTouchIntersection := fun t =>
       if (100 <=? identifier t) || Z.odd (clientX t)
       then Some {| matches_interactable := Z.odd (clientX t);
                    matches_ui := 100 <=? identifier t |}
       else None;
     fromCameraProjection := fun _ _ => tt |}.

Definition touchEvent (ty : EventType) (ts : list (@Touch Z)) : @TouchEvent Z :=
  {| type := ty; changedTouches := ts; touches := ts |}.

Definition emptyFrame : @Frame Z unit := fun _ => None.

Definition device0 : @Device Z unit := constructor.

(** Two fingers land on the world in one event. *)
Definition pinching : @Device Z unit :=
  run tapPaths
    [Dispatch (touchEvent touchstart [finger 1 0 0; finger 2 30 40]);
     Tick (scene 10) emptyFrame]
    device0.

Example pinching_table :
  map (fun a => (job a, identifier (touch a))) (assignments pinching)
  = [(FIRST_PINCHER_JOB, 1); (SECOND_PINCHER_JOB, 2)]
  /\ pinch pinching = {| initialDistance := 50; currentDistance := 50; pinchDelta := 0 |}.
Proof. split; reflexivity. Qed.

(** What a call of [write] left in the frame at [p], when it completed. *)
Definition publishedAt (r : Completion (@Frame Z unit) * @Device Z unit) (p : Path)
  : option (option (@Value Z unit)) :=
  match fst r with
  | Normal frame => Some (frame p)
  | Throw _ => None
  end.

Definition jobsAndTouches (s : @Device Z unit) : list (Job * Z) :=
  map (fun a => (job a, identifier (touch a))) (assignments s).

Lemma reachable_pinching : reachable tapPaths pinching.
Proof. unfold pinching. apply reachable_run, reachable_constructor. Qed.

(** ** Cursor and camera *)

(** A finger lands on an interactable and, once its timer has fired, moves
    the cursor; a second finger lands on empty space and, once its timer has
    fired, moves the camera. *)
Definition cursorAndCamera : @Device Z unit :=
  run tapPaths
    [Dispatch (touchEvent touchstart [finger 1 1 0]);
     Tick (scene 10) emptyFrame;
     Fire (scene 160) 0%nat;
     Dispatch (touchEvent touchstart [finger 2 30 40]);
     Tick (scene 170) emptyFrame;
     Fire (scene 330) 1%nat]
    device0.

(** C1 fails as stated: a reachable state holds CursorMove and CameraMove at
    once. *)
Lemma cursor_and_camera_coexist :
  reachable tapPaths cursorAndCamera
  /\ jobsAndTouches cursorAndCamera = [(MOVE_CURSOR_JOB, 1); (MOVE_CAMERA_JOB, 2)]
  /\ jobIsAssigned MOVE_CURSOR_JOB (assignments cursorAndCamera) = true
  /\ jobIsAssigned MOVE_CAMERA_JOB (assignments cursorAndCamera) = true.
Proof.
  split; [unfold cursorAndCamera; apply reachable_run, reachable_constructor|].
  repeat split; vm_compute; reflexivity.
Qed.

(** The cursor is held by touch 1 alone: a third touch gets the camera. *)
Definition cursorOnly : @Device Z unit :=
  run tapPaths
    [Dispatch (touchEvent touchstart [finger 1 1 0]);
     Tick (scene 10) emptyFrame;
     Fire (scene 160) 0%nat]
    device0.

Lemma cursor_and_camera_each_once_and_together_witness :
  (length (filter (hasJob MOVE_CAMERA_JOB) (assignments cursorOnly)) <= 1)%nat
  /\ jobsAndTouches
       (snd (processTouchStart (scene 200) (finger 2 30 40) false cursorOnly))
     = [(MOVE_CURSOR_JOB, 1); (MOVE_CAMERA_JOB, 2)].
Proof.
  assert (R : reachable tapPaths cursorOnly)
    by (unfold cursorOnly; apply reachable_run, reachable_constructor).
  destruct (cursor_and_camera_each_once_and_together tapPaths cursorOnly R)
    as [_ [M [_ T]]].
  split; [exact M|].
  destruct (T (scene 200) (finger 2 30 40) false eq_refl eq_refl eq_refl eq_refl)
    as [_ [A _]].
  unfold jobsAndTouches. rewrite A. reflexivity.
Defined.

(** ** The table invariants *)

Lemma second_pincher_only_with_first_witness :
  jobIsAssigned SECOND_PINCHER_JOB (assignments pinching) = true
  /\ jobIsAssigned FIRST_PINCHER_JOB (assignments pinching) = true.
Proof.
  split; [reflexivity|].
  apply (second_pincher_only_with_first tapPaths pinching reachable_pinching).
  reflexivity.
Defined.

Lemma one_job_per_touch_one_touch_per_job_witness :
  NoDup (touchIds (assignments pinching)) /\ NoDup (jobsOf (assignments pinching)).
Proof.
  exact (one_job_per_touch_one_touch_per_job tapPaths pinching reachable_pinching).
Defined.

(** ** A touch-start for an assigned touch *)

Lemma processTouchStart_already_assigned_witness :
  touchIsAssigned (finger 1 5 5) (assignments pinching) = true
  /\ assignments (snd (processTouchStart (scene 20) (finger 1 5 5) false pinching))
     = assignments pinching
  /\ pinch (snd (processTouchStart (scene 20) (finger 1 5 5) false pinching))
     = pinch pinching
  /\ pendingTap (snd (processTouchStart (scene 20) (finger 1 5 5) false pinching))
     = pendingTap pinching.
Proof.
  split; [reflexivity|].
  destruct (processTouchStart_already_assigned (scene 20) (finger 1 5 5) false pinching
              eq_refl) as [_ [A [P [T _]]]].
  auto.
Defined.

(** ** The second-pincher branch *)

(** One finger on empty space whose timer has fired: it moves the camera. *)
Definition cameraOnly : @Device Z unit :=
  run tapPaths
    [Dispatch (touchEvent touchstart [finger 1 0 0]);
     Tick (scene 10) emptyFrame;
     Fire (scene 160) 0%nat]
    device0.

Lemma promotion_lookup_finds_an_assignment_witness :
  jobsAndTouches cameraOnly = [(MOVE_CAMERA_JOB, 1)]
  /\ exists first,
       findByJob MOVE_CAMERA_JOB (assignments cameraOnly) = Some first
       /\ In first (assignments cameraOnly)
       /\ job first = MOVE_CAMERA_JOB.
Proof.
  split; [reflexivity|].
  destruct (promotion_lookup_finds_an_assignment (scene 200) (finger 2 30 40) false
              cameraOnly eq_refl eq_refl eq_refl) as [_ [X _]].
  exact X.
Defined.

(** ** The end of a pincher *)

Lemma end_of_a_pincher_witness :
  jobsAndTouches (snd (end_ (scene 50) (finger 1 0 0) pinching)) = [(MOVE_CAMERA_JOB, 2)]
  /\ pinch (snd (end_ (scene 50) (finger 1 0 0) pinching)) = zeroPinch.
Proof.
  destruct (end_of_a_pincher (scene 50) (finger 1 0 0) pinching
              (pincherEntry FIRST_PINCHER_JOB (finger 1 0 0) (Some 0) (Some 0))
              (proj1 (reachable_deviceInv tapPaths pinching reachable_pinching))
              eq_refl eq_refl) as [HF _].
  destruct (HF eq_refl) as [_ [P [A _]]].
  split; [|exact P].
  unfold jobsAndTouches. rewrite A. reflexivity.
Defined.

(** ** The pinch delta of a frame *)

(** The pinch of [pinching], with one touch-move queued that takes the
    second finger from (30, 40) to (60, 80). *)
Definition pinchMoving : @Device Z unit :=
  step tapPaths
    (Dispatch (touchEvent touchmove [finger 1 0 0; finger 2 60 80]))
    pinching.


Example pinch_delta_of_the_frame :
  publishedAt (write tapPaths (scene 30) emptyFrame pinchMoving) path_pinch_delta
  = Some (Some (VNumber 50))
  /\ publishedAt (write tapPaths (scene 30) emptyFrame pinchMoving)
       path_pinch_initialDistance
     = Some (Some (VNumber 50))
  /\ publishedAt (write tapPaths (scene 30) emptyFrame pinchMoving)
       path_pinch_currentDistance
     = Some (Some (VNumber 100))
  /\ publishedAt
       (write tapPaths (scene 46) emptyFrame
          (snd (write tapPaths (scene 30) emptyFrame pinchMoving)))
       path_pinch_delta
     = Some (Some (VNumber 0)).
Proof. repeat split; vm_compute; reflexivity. Qed.

(** ** Taps *)

(** One finger on a UI surface, over nothing interactable: it moves the
    camera at once. *)
Definition uiTouching : @Device Z unit :=
  run tapPaths
    [Dispatch (touchEvent touchstart [finger 100 0 0]);
     Tick (scene 10) emptyFrame]
    device0.

Lemma reachable_uiTouching : reachable tapPaths uiTouching.
Proof. unfold uiTouching. apply reachable_run, reachable_constructor. Qed.

Lemma tap_scheduled_then_published_once_witness :
  tapIndexToWriteNextFrame (snd (end_ (scene 60) (finger 100 0 0) uiTouching)) = 1
  /\ pendingTap (snd (end_ (scene 60) (finger 100 0 0) uiTouching))
     = {| maxTouchCount := 0; startedAt := None |}.
Proof.
  assert (Hp : isPendingFirstTouch (finger 100 0 0) uiTouching = false)
    by (vm_compute; reflexivity).
  assert (He : assignments (snd (end_ (scene 60) (finger 100 0 0) uiTouching)) = [])
    by (vm_compute; reflexivity).
  assert (Hw : withinTapWindow (scene 60) (pendingTap uiTouching) = true)
    by (vm_compute; reflexivity).
  destruct (tap_scheduled_then_published_once tapPaths (scene 60) (finger 100 0 0)
              uiTouching (reachable_deviceOk tapPaths uiTouching reachable_uiTouching)
              Hp He Hw) as [[_ [A [_ B]]] _].
  split; [exact A | exact B].
Defined.

(** A one-finger tap and then a two-finger tap, all on a UI surface and all
    queued before the next frame write. *)
Definition twoTapsQueued : @Device Z unit :=
  run tapPaths
    [Dispatch (touchEvent touchstart [finger 100 0 0]);
     Dispatch (touchEvent touchend [finger 100 0 0]);
     Dispatch (touchEvent touchstart [finger 101 0 0; finger 102 10 0]);
     Dispatch (touchEvent touchend [finger 101 0 0; finger 102 10 0])]
    device0.

(** C7 fails as stated: the first touch-end empties the table with one touch
    counted and no time elapsed, and schedules a one-finger tap; yet the
    frame write publishes the flag of the two-finger tap only, and the write
    after it publishes no tap flag. *)
Lemma one_finger_tap_lost :
  (let afterFirstTap :=
     snd (forEach
            [touchEvent touchstart [finger 100 0 0];
             touchEvent touchend [finger 100 0 0]]
            (process (scene 10)) device0) in
   assignments afterFirstTap = [] /\ tapIndexToWriteNextFrame afterFirstTap = 1)
  /\ publishedAt (write tapPaths (scene 10) emptyFrame twoTapsQueued) (path_tap 1)
     = Some None
  /\ publishedAt (write tapPaths (scene 10) emptyFrame twoTapsQueued) (path_tap 2)
     = Some (Some (VBool true))
  /\ publishedAt
       (write tapPaths (scene 26) emptyFrame
          (snd (write tapPaths (scene 10) emptyFrame twoTapsQueued)))
       (path_tap 1)
     = Some None.
Proof. repeat split; vm_compute; reflexivity. Qed.

(** ** The first touch *)

(** A finger on a UI surface and over an interactable. *)
Definition uiInteractableQueued : @Device Z unit :=
  step tapPaths (Dispatch (touchEvent touchstart [finger 100 1 0])) device0.

Lemma first_touch_over_an_interactable_witness :
  exists frame1 s1,
    write tapPaths (scene 10) emptyFrame uiInteractableQueued = (Normal frame1, s1)
    /\ frame1 path_isTouchingGrabbable = Some (VBool false)
    /\ forall (w2 : @World Z unit) (frame2 : @Frame Z unit),
         exists frame2' s2,
           write tapPaths w2 frame2 s1 = (Normal frame2', s2)
           /\ frame2' path_isTouchingGrabbable = Some (VBool true).
Proof.
  assert (Hi : isCursorOverInteractable (scene 10) (finger 100 1 0) = true)
    by (vm_compute; reflexivity).
  assert (Hd : shouldDelayStartTouch (scene 10) (finger 100 1 0) = false)
    by (vm_compute; reflexivity).
  destruct (first_touch_over_an_interactable tapPaths (scene 10) (finger 100 1 0)
              [finger 100 1 0] emptyFrame uiInteractableQueued
              eq_refl eq_refl eq_refl eq_refl Hi) as [Now _].
  destruct (Now Hd) as [frame1 [s1 [W [_ [_ [_ [G N]]]]]]].
  exists frame1, s1. auto.
Defined.

(** A finger over an interactable that is no UI surface. *)
Definition worldInteractableQueued : @Device Z unit :=
  step tapPaths (Dispatch (touchEvent touchstart [finger 1 1 0])) device0.

(** C9 fails as stated: the touch lands on an interactable that is not a UI
    surface, and the frame write that drains its touch-start leaves the
    table empty and the touch buffered behind the 150 ms timer; nothing is
    published about grabbing. *)
Lemma interactable_touch_is_buffered :
  isCursorOverInteractable (scene 10) (finger 1 1 0) = true
  /\ shouldDelayStartTouch (scene 10) (finger 1 1 0) = true
  /\ (let s1 := snd (write tapPaths (scene 10) emptyFrame worldInteractableQueued) in
      assignments s1 = []
      /\ jobIsAssigned MOVE_CURSOR_JOB (assignments s1) = false
      /\ pendingFirstTouch s1 = Some (finger 1 1 0)
      /\ timers s1 = [{| timerId := 0%nat; timerDelay := 150;
                         timerTask := TaskResolvePendingFirstTouch |}])
  /\ publishedAt (write tapPaths (scene 10) emptyFrame worldInteractableQueued)
       path_isTouchingGrabbable
     = Some None.
Proof. repeat split; vm_compute; reflexivity. Qed.

(** ** Four fingers *)

(** Four fingers land on the world in one event. *)
Definition fourFingersQueued : @Device Z unit :=
  step tapPaths
    (Dispatch (touchEvent touchstart
                 [finger 1 0 0; finger 2 30 40; finger 3 50 50; finger 4 60 60]))
    device0.

(** C5 at its failing input: the first two fingers start a pinch, the third
    is buffered, and the touch-start of the fourth finds a buffered touch
    while FirstPincher is taken: [assign] returns nothing, the write of its
    coordinates throws, and the frame write is abandoned with the third
    finger still buffered, the fourth without a job and the events still
    queued. *)
Theorem fourth_finger_throws :
  fst (write tapPaths (scene 10) emptyFrame fourFingersQueued) = Throw (TypeError "job")
  /\ (let s1 := snd (write tapPaths (scene 10) emptyFrame fourFingersQueued) in
      jobsAndTouches s1 = [(FIRST_PINCHER_JOB, 1); (SECOND_PINCHER_JOB, 2)]
      /\ pendingFirstTouch s1 = Some (finger 3 50 50)
      /\ touchIsAssigned (finger 3 50 50) (assignments s1) = false
      /\ touchIsAssigned (finger 4 60 60) (assignments s1) = false
      /\ events s1 = events fourFingersQueued
      /\ fst (start (scene 10) (finger 4 60 60) s1) = Throw (TypeError "job")
      /\ fst (write tapPaths (scene 26) emptyFrame s1) = Throw (TypeError "job")).
Proof. repeat split; vm_compute; reflexivity. Qed.

(** ** Further runs *)

(** What a run of [write] returned: the frame, when it completed. *)
Definition frameOf (r : Completion (@Frame Z unit) * @Device Z unit) : @Frame Z unit :=
  match fst r with
  | Normal frame => frame
  | Throw _ => emptyFrame
  end.

Lemma reachable_cursorAndCamera : reachable tapPaths cursorAndCamera.
Proof. unfold cursorAndCamera. apply reachable_run, reachable_constructor. Qed.

Lemma reachable_cameraOnly : reachable tapPaths cameraOnly.
Proof. unfold cameraOnly. apply reachable_run, reachable_constructor. Qed.

Lemma reachable_pinchMoving : reachable tapPaths pinchMoving.
Proof. unfold pinchMoving. apply reachable_step, reachable_pinching. Qed.

(** One finger lands on the world and is buffered. *)
Definition oneFingerBuffered : @Device Z unit :=
  run tapPaths
    [Dispatch (touchEvent touchstart [finger 1 0 0]);
     Tick (scene 10) emptyFrame]
    device0.

Lemma reachable_oneFingerBuffered : reachable tapPaths oneFingerBuffered.
Proof. unfold oneFingerBuffered. apply reachable_run, reachable_constructor. Qed.

(** Three fingers land on the world in one event: two start a pinch, the
    third is buffered. *)
Definition thirdFingerBuffered : @Device Z unit :=
  run tapPaths
    [Dispatch (touchEvent touchstart [finger 1 0 0; finger 2 30 40; finger 3 50 50]);
     Tick (scene 10) emptyFrame]
    device0.

Lemma reachable_thirdFingerBuffered : reachable tapPaths thirdFingerBuffered.
Proof. unfold thirdFingerBuffered. apply reachable_run, reachable_constructor. Qed.

(** Two fingers on UI surfaces, the first over an interactable, and two
    fingers on the world: all four jobs are held. *)
Definition fourJobs : @Device Z unit :=
  run tapPaths
    [Dispatch (touchEvent touchstart
                 [finger 101 1 0; finger 102 2 0; finger 1 0 0; finger 2 30 40]);
     Tick (scene 10) emptyFrame]
    device0.

Lemma reachable_fourJobs : reachable tapPaths fourJobs.
Proof. unfold fourJobs. apply reachable_run, reachable_constructor. Qed.

(** The camera touch of [cameraOnly] moves twice before the next frame. *)
Definition cameraDragging : @Device Z unit :=
  run tapPaths
    [Dispatch (touchEvent touchmove [finger 1 5 7]);
     Dispatch (touchEvent touchmove [finger 1 9 3])]
    cameraOnly.

Lemma reachable_cameraDragging : reachable tapPaths cameraDragging.
Proof. unfold cameraDragging. apply reachable_run, reachable_cameraOnly. Qed.

(** A finger lands on the world and lifts before the next frame. *)
Definition quickTapQueued : @Device Z unit :=
  run tapPaths
    [Dispatch (touchEvent touchstart [finger 1 0 0]);
     Dispatch (touchEvent touchend [finger 1 0 0])]
    device0.

Lemma reachable_quickTapQueued : reachable tapPaths quickTapQueued.
Proof. unfold quickTapQueued. apply reachable_run, reachable_constructor. Qed.

Lemma move_end_processTouchStart_never_throw_witness :
  fst (move (scene 20) (finger 2 60 80) pinching) = Normal tt
  /\ fst (end_ (scene 20) (finger 2 60 80) pinching) = Normal tt
  /\ forall allow,
       fst (processTouchStart (scene 20) (finger 2 60 80) allow pinching) = Normal tt.
Proof.
  exact (move_end_processTouchStart_never_throw tapPaths pinching reachable_pinching
           (scene 20) (finger 2 60 80)).
Defined.

Lemma start_throws_exactly_when_the_buffered_touch_cannot_pinch_witness :
  canStart thirdFingerBuffered = false
  /\ start (scene 20) (finger 4 60 60) thirdFingerBuffered
     = (Throw (TypeError "job"), thirdFingerBuffered).
Proof.
  assert (C : canStart thirdFingerBuffered = false) by (vm_compute; reflexivity).
  split; [exact C|].
  exact (proj2 (start_throws_exactly_when_the_buffered_touch_cannot_pinch tapPaths
                  (scene 20) (finger 4 60 60) thirdFingerBuffered
                  reachable_thirdFingerBuffered) C).
Defined.

Lemma write_without_touchstart_returns_witness :
  exists frame' s',
    write tapPaths (scene 30) emptyFrame pinchMoving = (Normal frame', s')
    /\ events s' = [].
Proof.
  apply (write_without_touchstart_returns tapPaths (scene 30) emptyFrame pinchMoving
           reachable_pinchMoving).
  reflexivity.
Defined.

Lemma write_publishes_by_job_witness :
  frameOf (write tapPaths (scene 400) emptyFrame cursorAndCamera) path_isTouching
  = Some (VBool true)
  /\ (exists d,
        frameOf (write tapPaths (scene 400) emptyFrame cursorAndCamera)
          path_touchCameraDelta = Some (VArray2 d))
  /\ frameOf (write tapPaths (scene 30) emptyFrame pinching) path_isTouching = None.
Proof.
  assert (E1 : write tapPaths (scene 400) emptyFrame cursorAndCamera
               = (Normal (frameOf (write tapPaths (scene 400) emptyFrame cursorAndCamera)),
                  snd (write tapPaths (scene 400) emptyFrame cursorAndCamera)))
    by (vm_compute; reflexivity).
  assert (E2 : write tapPaths (scene 30) emptyFrame pinching
               = (Normal (frameOf (write tapPaths (scene 30) emptyFrame pinching)),
                  snd (write tapPaths (scene 30) emptyFrame pinching)))
    by (vm_compute; reflexivity).
  pose proof (write_publishes_by_job tapPaths _ _ _ _ _ reachable_cursorAndCamera E1)
    as [T1 [_ [D1 _]]].
  pose proof (write_publishes_by_job tapPaths _ _ _ _ _ reachable_pinching E2)
    as [T2 _].
  split; [exact T1|]. split; [exact D1 | exact T2].
Defined.

Lemma buffered_touch_has_its_timer_witness :
  pendingFirstTouch oneFingerBuffered = Some (finger 1 0 0)
  /\ exists tm, In tm (timers oneFingerBuffered)
                /\ timerTask tm = TaskResolvePendingFirstTouch.
Proof.
  split; [reflexivity|].
  apply (proj1 (buffered_touch_has_its_timer tapPaths oneFingerBuffered
                  reachable_oneFingerBuffered)).
  discriminate.
Defined.

Lemma fired_timer_never_throws_witness :
  fst (runTask (scene 160) TaskResolvePendingFirstTouch
         (withoutTimer 0 oneFingerBuffered)) = Normal tt.
Proof.
  exact (proj1 (fired_timer_never_throws tapPaths (scene 160) 0%nat
                  {| timerId := 0%nat; timerDelay := 150;
                     timerTask := TaskResolvePendingFirstTouch |}
                  oneFingerBuffered reachable_oneFingerBuffered eq_refl)).
Defined.

Lemma no_tap_beyond_four_fingers_witness :
  jobsAndTouches fourJobs
  = [(MOVE_CURSOR_JOB, 101); (MOVE_CAMERA_JOB, 102);
     (FIRST_PINCHER_JOB, 1); (SECOND_PINCHER_JOB, 2)]
  /\ maxTouchCount (pendingTap fourJobs) = 4
  /\ (length (assignments fourJobs) <= 4)%nat
  /\ 0 <= maxTouchCount (pendingTap fourJobs) <= 4.
Proof.
  split; [reflexivity|]. split; [reflexivity|].
  destruct (no_tap_beyond_four_fingers tapPaths fourJobs reachable_fourJobs)
    as [L [B _]].
  split; [exact L | exact B].
Defined.

Lemma pinch_is_zero_without_a_second_pincher_witness :
  jobIsAssigned SECOND_PINCHER_JOB (assignments cursorAndCamera) = false
  /\ pinch cursorAndCamera = zeroPinch.
Proof.
  split; [reflexivity|].
  apply (proj1 (pinch_is_zero_without_a_second_pincher tapPaths cursorAndCamera
                  reachable_cursorAndCamera)).
  reflexivity.
Defined.

Lemma stray_touch_changes_nothing_witness :
  exists s',
    end_ (scene 20) (finger 9 0 0) pinching = (Normal tt, s')
    /\ assignments s' = assignments pinching
    /\ tapIndexToWriteNextFrame s' = tapIndexToWriteNextFrame pinching.
Proof.
  destruct (stray_touch_changes_nothing tapPaths (scene 20) (finger 9 0 0) pinching
              reachable_pinching eq_refl eq_refl)
    as [_ [s' [E [_ [A [_ [T _]]]]]]].
  exists s'. auto.
Defined.

Lemma camera_delta_published_is_displacement_within_the_write_witness :
  exists frame' s' c',
    write tapPaths (scene 200) emptyFrame cameraDragging = (Normal frame', s')
    /\ findByJob MOVE_CAMERA_JOB (assignments s') = Some c'
    /\ frame' path_touchCameraDelta
       = Some (VArray2 (jsub (toNumber (a_clientX c')) 0, jsub (toNumber (a_clientY c')) 0)).
Proof.
  assert (Fc : findByJob MOVE_CAMERA_JOB (assignments cameraDragging)
               = Some (cameraEntry (finger 1 0 0) (Some 0) (Some 0)))
    by (vm_compute; reflexivity).
  destruct (camera_delta_published_is_displacement_within_the_write tapPaths
              (scene 200) emptyFrame cameraDragging _ reachable_cameraDragging
              eq_refl Fc)
    as [frame' [s' [c' [E [Fc' [_ [_ Ef]]]]]]].
  - repeat constructor.
  - exists frame', s', c'. auto.
Defined.

Lemma end_of_a_cursor_or_camera_touch_witness :
  exists s',
    end_ (scene 400) (finger 1 1 0) cursorAndCamera = (Normal tt, s')
    /\ touchIsAssigned (finger 1 1 0) (assignments s') = false
    /\ pinch s' = pinch cursorAndCamera.
Proof.
  destruct (findByTouch (finger 1 1 0) (assignments cursorAndCamera)) as [a|] eqn:Ft;
    [|vm_compute in Ft; discriminate Ft].
  assert (Hj : job a = MOVE_CURSOR_JOB)
    by (vm_compute in Ft; injection Ft as <-; reflexivity).
  destruct (end_of_a_cursor_or_camera_touch tapPaths (scene 400) (finger 1 1 0)
              cursorAndCamera a reachable_cursorAndCamera eq_refl Ft (or_introl Hj))
    as [s' [E [_ [T [_ [_ [P _]]]]]]].
  exists s'. auto.
Defined.

Lemma quick_tap_moves_the_cursor_and_schedules_tap1_witness :
  exists frame1 s1,
    write tapPaths (scene 10) emptyFrame quickTapQueued = (Normal frame1, s1)
    /\ frame1 path_isTouching = Some (VBool true)
    /\ frame1 path_isTouchingGrabbable = Some (VBool false)
    /\ assignments (step tapPaths (Fire (scene 40) 1%nat) s1) = []
    /\ tapIndexToWriteNextFrame (step tapPaths (Fire (scene 40) 1%nat) s1) = 1.
Proof.
  assert (Hd : shouldDelayStartTouch (scene 10) (finger 1 0 0) = true)
    by (vm_compute; reflexivity).
  destruct (quick_tap_moves_the_cursor_and_schedules_tap1 tapPaths (scene 10) (scene 40)
              (finger 1 0 0) [finger 1 0 0] [finger 1 0 0] emptyFrame quickTapQueued
              reachable_quickTapQueued eq_refl eq_refl eq_refl Hd)
    as [frame1 [s1 [E [T [_ [G [_ [_ [_ [_ [A I]]]]]]]]]]].
  exists frame1, s1. auto.
Defined.

Lemma start_of_second_touch_witness :
  exists s',
    start (scene 20) (finger 2 30 40) oneFingerBuffered = (Normal tt, s')
    /\ pendingFirstTouch s' = None
    /\ pinch s' = {| initialDistance := 50; currentDistance := 50; pinchDelta := 0 |}.
Proof.
  destruct (start_of_second_touch (scene 20) (finger 2 30 40) (finger 1 0 0)
              oneFingerBuffered eq_refl eq_refl eq_refl)
    as [s' [E [_ [P [_ [_ D]]]]]]; try reflexivity.
  - discriminate.
  - exists s'. split; [exact E|]. split; [exact P | exact D].
Defined.


Lemma reachable_uiInteractableQueued : reachable tapPaths uiInteractableQueued.
Proof. unfold uiInteractableQueued. apply reachable_step, reachable_constructor. Qed.

Lemma pinch_current_distance_is_the_distance_of_the_pinchers_witness :
  currentDistance (pinch pinching) = 50
  /\ frameOf (write tapPaths (scene 30) emptyFrame pinchMoving) path_pinch_currentDistance
     = Some (VNumber 100).
Proof.
  assert (Ff : findByJob FIRST_PINCHER_JOB (assignments pinching)
               = Some (pincherEntry FIRST_PINCHER_JOB (finger 1 0 0) (Some 0) (Some 0)))
    by (vm_compute; reflexivity).
  assert (Fg : findByJob SECOND_PINCHER_JOB (assignments pinching)
               = Some (pincherEntry SECOND_PINCHER_JOB (finger 2 30 40) (Some 30) (Some 40)))
    by (vm_compute; reflexivity).
  assert (E : write tapPaths (scene 30) emptyFrame pinchMoving
              = (Normal (frameOf (write tapPaths (scene 30) emptyFrame pinchMoving)),
                 snd (write tapPaths (scene 30) emptyFrame pinchMoving)))
    by (vm_compute; reflexivity).
  assert (Ff' : findByJob FIRST_PINCHER_JOB
                  (assignments (snd (write tapPaths (scene 30) emptyFrame pinchMoving)))
                = Some (pincherEntry FIRST_PINCHER_JOB (finger 1 0 0) (Some 0) (Some 0)))
    by (vm_compute; reflexivity).
  assert (Fg' : findByJob SECOND_PINCHER_JOB
                  (assignments (snd (write tapPaths (scene 30) emptyFrame pinchMoving)))
                = Some (pincherEntry SECOND_PINCHER_JOB (finger 2 30 40) (Some 60) (Some 80)))
    by (vm_compute; reflexivity).
  split.
  - exact (proj1 (pinch_current_distance_is_the_distance_of_the_pinchers tapPaths
                    pinching reachable_pinching) _ _ Ff Fg).
  - exact (proj2 (pinch_current_distance_is_the_distance_of_the_pinchers tapPaths
                    pinchMoving reachable_pinchMoving) _ _ _ _ _ _ E Ff' Fg').
Defined.

Lemma a_touch_keeps_a_job_until_it_ends_witness :
  touchIsAssigned (finger 1 0 0)
    (assignments (snd (end_ (scene 20) (finger 2 30 40) pinching))) = true
  /\ touchIsAssigned (finger 1 0 0)
       (assignments (snd (write tapPaths (scene 30) emptyFrame pinchMoving))) = true.
Proof.
  split.
  - apply (proj1 (a_touch_keeps_a_job_until_it_ends tapPaths pinching (finger 1 0 0)
                    reachable_pinching eq_refl) (scene 20) (finger 2 30 40)).
    discriminate.
  - apply (proj2 (a_touch_keeps_a_job_until_it_ends tapPaths pinchMoving (finger 1 0 0)
                    reachable_pinchMoving eq_refl) (scene 30) emptyFrame).
    intros [].
Defined.

Lemma touching_grabbable_from_the_second_frame_witness :
  exists frame2' s2,
    write tapPaths (scene 30) emptyFrame
      (run tapPaths
         (map Dispatch [touchEvent touchmove [finger 100 3 0]])
         (snd (write tapPaths (scene 10) emptyFrame uiInteractableQueued)))
    = (Normal frame2', s2)
    /\ jobIsAssigned MOVE_CURSOR_JOB (assignments s2) = true
    /\ frame2' path_isTouchingGrabbable = Some (VBool true).
Proof.
  assert (E1 : write tapPaths (scene 10) emptyFrame uiInteractableQueued
               = (Normal (frameOf (write tapPaths (scene 10) emptyFrame uiInteractableQueued)),
                  snd (write tapPaths (scene 10) emptyFrame uiInteractableQueued)))
    by (vm_compute; reflexivity).
  destruct (touching_grabbable_from_the_second_frame tapPaths (scene 10) (scene 30)
              emptyFrame _ emptyFrame uiInteractableQueued _
              [touchEvent touchmove [finger 100 3 0]]
              reachable_uiInteractableQueued E1 eq_refl eq_refl)
    as [frame2' [s2 [E2 G]]].
  assert (J : jobIsAssigned MOVE_CURSOR_JOB (assignments s2) = true).
  { replace s2 with
      (snd (write tapPaths (scene 30) emptyFrame
              (run tapPaths
                 (map Dispatch [touchEvent touchmove [finger 100 3 0]])
                 (snd (write tapPaths (scene 10) emptyFrame uiInteractableQueued)))))
      by (rewrite E2; reflexivity).
    vm_compute. reflexivity. }
  exists frame2', s2. split; [exact E2|]. split; [exact J | exact (G J)].
Defined.

Lemma pending_tap_has_its_start_time_witness :
  maxTouchCount (pendingTap fourJobs) = 4
  /\ exists t0,
       startedAt (pendingTap fourJobs) = Some t0
       /\ forall w : @World Z unit,
            withinTapWindow w (pendingTap fourJobs)
            = jleb (jsub (performance_now w) t0) (ofZ 125).
Proof.
  split; [reflexivity|].
  apply (pending_tap_has_its_start_time tapPaths fourJobs reachable_fourJobs).
  vm_compute. reflexivity.
Defined.

Lemma camera_and_pinchers_have_stored_coordinates_witness :
  exists a x y,
    findByJob SECOND_PINCHER_JOB (assignments pinchMoving) = Some a
    /\ a_clientX a = Some x /\ a_clientY a = Some y.
Proof.
  destruct (findByJob SECOND_PINCHER_JOB (assignments pinchMoving)) as [a|] eqn:Fg;
    [|vm_compute in Fg; discriminate Fg].
  destruct (findByJob_Some _ _ _ Fg) as [Hin Hj].
  destruct (camera_and_pinchers_have_stored_coordinates tapPaths pinchMoving a
              reachable_pinchMoving Hin)
    as [x [y [X [Y _]]]].
  - rewrite Hj. discriminate.
  - exists a, x, y. auto.
Defined.
